(** * morgana.utils: upsampling by repetition, the ASCII codec and the EMA shadow

    A shallow embedding of [src/morgana/utils.py].  Tensors and arrays are
    nested lists, a Python exception is a value of [exn], and a function that
    can raise returns a [result].  Integer tensors hold mathematical integers
    ([Z]).  torch adds 64-bit integers modulo 2^64, so the sums of the model
    are the sums of torch as long as they fit 64 bits; every statement about
    what [upsample_to_repetitions] returns or raises on given counts assumes
    that they do ([fits_int64]).  A cast between integer types is written out
    ([type_as]).  Memory is not limited: an output of any length can be
    built. *)

From Stdlib Require Import ZArith QArith Lia Lqa.
From stdpp Require Import base tactics option list gmap strings.

Local Open Scope Z_scope.

(** ** Exceptions and the error monad *)

Inductive exn : Set :=
  | RuntimeError      (* raised by torch *)
  | ValueError        (* raised by numpy and by Python builtins *)
  | TypeError
  | IndexError
  | AssertionError.

Inductive result (X : Type) : Type :=
  | Ok (x : X)
  | Raise (e : exn).
Arguments Ok {X} x.
Arguments Raise {X} e.

Global Instance result_ret : MRet result := λ _ x, Ok x.
Global Instance result_bind : MBind result := λ _ _ f m,
  match m with Ok x => f x | Raise e => Raise e end.
Global Instance result_fmap : FMap result := λ _ _ f m,
  match m with Ok x => Ok (f x) | Raise e => Raise e end.

(** ** Array primitives of numpy and torch used by the module *)

(** [x[i]] on a sequence: a negative index counts from the end. *)
Definition getitem {X} (l : list X) (i : Z) : result X :=
  let j := if i <? 0 then i + Z.of_nat (length l) else i in
  if j <? 0 then Raise IndexError
  else match l !! Z.to_nat j with
       | Some x => Ok x
       | None => Raise IndexError
       end.

(** [np.arange(n)] and [torch.arange(n)]. *)
Definition arange (n : nat) : list Z := Z.of_nat <$> seq 0 n.

Definition sum_list_Z (l : list Z) : Z := foldr Z.add 0 l.

(** An integer tensor with two axes, or with three; nested lists do not tell
    the size of the last axis of a tensor without steps, so the tensor with
    three axes carries it. *)
Inductive IntTensor : Type :=
  | Axes2 (rows : list (list Z))
  | Axes3 (trailing : nat) (rows : list (list (list Z))).

(** The elements of a tensor in storage order. *)
Definition elements (t : IntTensor) : list Z :=
  match t with
  | Axes2 rows => concat rows
  | Axes3 _ rows => concat ((λ steps, concat steps) <$> rows)
  end.

(** [torch.sum(t, dim=1)]: one item per batch row.  On two axes the item is a
    zero-axis tensor, written here as the one-element list of its value; on
    three axes it is the vector of sums over the steps, one per trailing
    position.  The sums are those of torch where they fit 64 bits. *)
Definition sum_steps (trailing : nat) (steps : list (list Z)) : list Z :=
  foldr (zip_with Z.add) (replicate trailing 0) steps.

Definition torch_sum_dim1 (t : IntTensor) : list (list Z) :=
  match t with
  | Axes2 rows => (λ row, [sum_list_Z row]) <$> rows
  | Axes3 trailing rows => sum_steps trailing <$> rows
  end.

(** [torch.max(t).item()]: the largest element; torch raises on a tensor
    without elements. *)
Definition torch_max (cells : list Z) : result Z :=
  match cells with
  | [] => Raise RuntimeError
  | x :: rest => Ok (foldl Z.max x rest)
  end.

Fixpoint chunks (rows : nat) (width : nat) (flat : list Z) : list (list Z) :=
  match rows with
  | O => []
  | S rows' => take width flat :: chunks rows' width (drop width flat)
  end.

(** [t.reshape((batch_size, -1))]: torch infers the [-1] as the element count
    divided by [batch_size]; it refuses when [batch_size] is zero (any size
    would do for a tensor without elements, none for another) and when the
    division leaves a remainder. *)
Definition reshape_rows (batch_size : nat) (flat : list Z) : result (list (list Z)) :=
  let numel := length flat in
  if (batch_size =? 0)%nat then Raise RuntimeError
  else if negb (numel mod batch_size =? 0)%nat then Raise RuntimeError
  else Ok (chunks batch_size (numel / batch_size) flat).

(** [idx.repeat(1, n)] on the column [torch.arange(batch_size)[:, None]]. *)
Definition torch_repeat_cols (column : list Z) (n : Z) : result (list (list Z)) :=
  if n <? 0 then Raise RuntimeError
  else Ok ((λ b, replicate (Z.to_nat n) b) <$> column).

(** [v * np.ones((rows, cols), dtype=np.int64)]. *)
Definition np_full (rows : nat) (cols : Z) (v : Z) : result (list (list Z)) :=
  if cols <? 0 then Raise ValueError
  else Ok (replicate rows (replicate (Z.to_nat cols) v)).

(** [np.repeat(a, counts)]: a single count is broadcast to every element,
    otherwise there is one count per element; negative counts are refused. *)
Definition np_repeat {X} (a : list X) (counts : list Z) : result (list X) :=
  match counts with
  | [c] =>
      if c <? 0 then Raise ValueError
      else Ok (concat ((λ x, replicate (Z.to_nat c) x) <$> a))
  | _ =>
      if negb (length counts =? length a)%nat then Raise ValueError
      else if forallb (λ c, 0 <=? c) counts
      then Ok (concat (zip_with (λ x c, replicate (Z.to_nat c) x) a counts))
      else Raise ValueError
  end.

(** [operator.index(t)] on a tensor: only a tensor of one element converts. *)
Definition tensor_index (t : list Z) : result Z :=
  match t with
  | [n] => Ok n
  | _ => Raise TypeError
  end.

(** The number of positions selected by the slice [:stop] on [len] items. *)
Definition slice_stop (len : nat) (stop : Z) : nat :=
  if stop <? 0 then Z.to_nat (Z.max 0 (Z.of_nat len + stop))
  else Z.to_nat (Z.min stop (Z.of_nat len)).

(** [row[:stop] = vals] on a numpy row: [vals] must have the length of the
    slice, or one element, which is then broadcast. *)
Definition assign_prefix {X} (row : list X) (stop : Z) (vals : list X) : result (list X) :=
  let k := slice_stop (length row) stop in
  if (length vals =? k)%nat then Ok (vals ++ drop k row)
  else match vals with
       | [v] => Ok (replicate k v ++ drop k row)
       | _ => Raise ValueError
       end.

(** ** [upsample_to_repetitions] *)

Section upsample.
Context {A : Type}.
(** The zero of the feature dtype. *)
Variable zero : A.

(** The loop over [enumerate(zip(repeats, reapeated_lens))], started at
    row [b]. *)
Fixpoint fill_repeated_idxs (seq_feats_idx : list Z) (b : nat)
    (items : list (list Z * list Z)) (repeated_idxs : list (list Z))
    : result (list (list Z)) :=
  match items with
  | [] => Ok repeated_idxs
  | (repeat, repeated_len) :: items' =>
      vals ← np_repeat seq_feats_idx repeat;
      stop ← tensor_index repeated_len;
      row ← getitem repeated_idxs (Z.of_nat b);
      row' ← assign_prefix row stop vals;
      fill_repeated_idxs seq_feats_idx (S b) items' (<[b := row']> repeated_idxs)
  end.

(** [source[batch_idxs, repeated_idxs]]: position [(b, j)] of the result is
    the frame [source[batch_idxs[b, j]][repeated_idxs[b, j]]]. *)
Definition gather (source : list (list (list A)))
    (batch_idxs repeated_idxs : list (list Z)) : result (list (list (list A))) :=
  mapM (λ '(bs, ts),
          mapM (λ '(b, t), item ← getitem source b; getitem item t) (zip bs ts))
       (zip batch_idxs repeated_idxs).

Definition upsample_to_repetitions (sequence_feature : list (list (list A)))
    (repeats : IntTensor) : result (list (list (list A))) :=
  let batch_size := length sequence_feature in
  let max_seq_len := length (hd [] sequence_feature) in
  let feat_dim := length (hd [] (hd [] sequence_feature)) in
  let reapeated_lens := torch_sum_dim1 repeats in
  max_repeated_len ← torch_max (concat reapeated_lens);
  repeats ← reshape_rows batch_size (elements repeats);
  let padder := replicate feat_dim zero in
  let sequence_feature_with_padder := (λ item, item ++ [padder]) <$> sequence_feature in
  batch_idxs ← torch_repeat_cols (arange batch_size) max_repeated_len;
  repeated_idxs ← np_full batch_size max_repeated_len (-1);
  let seq_feats_idx := arange max_seq_len in
  repeated_idxs ← fill_repeated_idxs seq_feats_idx 0 (zip repeats reapeated_lens) repeated_idxs;
  gather sequence_feature_with_padder batch_idxs repeated_idxs.
End upsample.

(** ** The ASCII codec *)

(** A Python string is the list of its code points; [ord] reads a character's
    code point and [chr] builds the character of a code point, which Python
    refuses outside [range(0x110000)]. *)
Definition ord (c : Z) : Z := c.

Definition chr (i : Z) : result Z :=
  if (0 <=? i) && (i <? 1114112) then Ok i else Raise ValueError.

(** The argument of [listify]: one object or a list of them. *)
Inductive object_or_list (X : Type) : Type :=
  | Single (x : X)
  | Listed (l : list X).
Arguments Single {X} x.
Arguments Listed {X} l.

Definition listify {X} (o : object_or_list X) : list X :=
  match o with
  | Single x => [x]
  | Listed l => l
  end.

(** The builtin [max] on a sequence of integers; it raises on an empty one. *)
Definition py_max (l : list Z) : result Z :=
  match l with
  | [] => Raise ValueError
  | x :: rest => Ok (foldl Z.max x rest)
  end.

(** [np.zeros((rows, cols), dtype=np.int8)]. *)
Definition np_zeros (rows : nat) (cols : Z) : result (list (list Z)) :=
  if cols <? 0 then Raise ValueError
  else Ok (replicate rows (replicate (Z.to_nat cols) 0)).

(** Storing an integer in an [np.int8] cell keeps its low eight bits, read as
    a signed byte. *)
Definition to_int8 (z : Z) : Z := (z + 128) mod 256 - 128.

(** The loop over [enumerate(strings)], started at line [i]. *)
Fixpoint fill_encoded (i : nat) (strings : list (list Z)) (encoded : list (list Z))
    : result (list (list Z)) :=
  match strings with
  | [] => Ok encoded
  | line :: strings' =>
      let ascii := ord <$> line in
      row ← getitem encoded (Z.of_nat i);
      row' ← assign_prefix row (Z.of_nat (length line)) (to_int8 <$> ascii);
      fill_encoded (S i) strings' (<[i := row']> encoded)
  end.

Definition string_to_ascii (strings : object_or_list (list Z)) (max_len : option Z)
    : result (list (list Z)) :=
  let strings := listify strings in
  let num_lines := length strings in
  max_num_chars ← match max_len with
                  | None => py_max ((λ s, Z.of_nat (length s)) <$> strings)
                  | Some n => Ok n
                  end;
  encoded ← np_zeros num_lines max_num_chars;
  fill_encoded 0 strings encoded.

(** The maps and filters of the source are lazy and are forced by [join],
    row by row and character by character: the order of [mapM]. *)
Definition ascii_to_string (ascii : list (list Z)) : result (list (list Z)) :=
  mapM (λ codes,
          chars_with_padding ← mapM chr codes;
          mret (filter (λ s, s ≠ 0) chars_with_padding))
       ascii.

(** ** The exponential moving average *)

(** Tensors live in a store; a parameter's [data] is the address of its
    tensor, so that two references to one tensor see each other's in-place
    updates.  A float tensor is the list of its elements, over the rationals
    (exact arithmetic). *)
Abbreviation loc := positive (only parsing).
Abbreviation store := (gmap positive (list Q)) (only parsing).

Record TorchParameter : Type := { data : loc; requires_grad : bool }.

(** A [torch.nn.Module]: its identity as a Python object and what
    [named_parameters()] yields. *)
Record TorchModule : Type :=
  { ident : nat; named_parameters : list (string * TorchParameter) }.

(** [a - b] on tensors: elementwise on equal shapes, a one-element tensor is
    broadcast. *)
Definition tensor_sub (a b : list Q) : result (list Q) :=
  if (length a =? length b)%nat then Ok (zip_with Qminus a b)
  else match a, b with
       | _, [y] => Ok ((λ x, Qminus x y) <$> a)
       | [x], _ => Ok (Qminus x <$> b)
       | _, _ => Raise RuntimeError
       end.

(** [a -= b] on tensors: the result has to keep the shape of [a]. *)
Definition tensor_isub (a b : list Q) : result (list Q) :=
  if (length a =? length b)%nat then Ok (zip_with Qminus a b)
  else match b with
       | [y] => Ok ((λ x, Qminus x y) <$> a)
       | _ => Raise RuntimeError
       end.

Definition tensor_scale (c : Q) (a : list Q) : list Q := Qmult c <$> a.

Module ExponentialMovingAverage.

Record t : Type :=
  { model : TorchModule; decay : Q; shadow : gmap string positive }.

Definition __init__ (model : TorchModule) (decay : Q) : t :=
  {| model := model;
     decay := decay;
     shadow := foldl (λ sh '(name, param),
                        if requires_grad param then <[name := data param]> sh else sh)
                     ∅ (named_parameters model) |}.

(** [x] is the tensor object handed over by the caller, that is its address;
    the subtraction builds a fresh tensor, the [-=] writes in place and binds
    the entry of the dictionary to the tensor it already held, so the shadow
    itself stays as it is. *)
Definition _update_param (self : t) (name : string) (x : loc) (h : store)
    : store * result () :=
  match shadow self !! name with
  | None => (h, Raise AssertionError)
  | Some l =>
      match tensor_sub (h !!! l) (h !!! x) with
      | Raise e => (h, Raise e)
      | Ok update_delta =>
          match tensor_isub (h !!! l) (tensor_scale (1 - decay self)%Q update_delta) with
          | Raise e => (h, Raise e)
          | Ok v => (<[l := v]> h, Ok ())
          end
      end
  end.

Fixpoint update_loop (self : t) (params : list (string * TorchParameter)) (h : store)
    : store * result () :=
  match params with
  | [] => (h, Ok ())
  | (name, param) :: params' =>
      if decide (is_Some (shadow self !! name)) then
        match _update_param self name (data param) h with
        | (h', Ok _) => update_loop self params' h'
        | (h', Raise e) => (h', Raise e)
        end
      else update_loop self params' h
  end.

Definition update_params (self : t) (other_model : TorchModule) (h : store)
    : store * result () :=
  if (ident other_model =? ident (model self))%nat then (h, Raise AssertionError)
  else update_loop self (named_parameters other_model) h.

End ExponentialMovingAverage.

(** ** Masks *)

(** [torch.arange(n)]: torch refuses a negative bound. *)
Definition torch_arange (n : Z) : result (list Z) :=
  if n <? 0 then Raise RuntimeError else Ok (arange (Z.to_nat n)).

(** The integer types of torch. *)
Inductive int_dtype : Set := uint8 | int8 | int16 | int32 | int64.

Definition bits (dtype : int_dtype) : Z :=
  match dtype with
  | uint8 | int8 => 8
  | int16 => 16
  | int32 => 32
  | int64 => 64
  end.

Definition signed (dtype : int_dtype) : bool :=
  match dtype with
  | uint8 => false
  | _ => true
  end.

(** [t.type(dtype)] on an integer: the cast keeps the low bits, read as a
    signed number for the signed types. *)
Definition type_as (dtype : int_dtype) (z : Z) : Z :=
  if signed dtype
  then (z + 2 ^ (bits dtype - 1)) mod 2 ^ bits dtype - 2 ^ (bits dtype - 1)
  else z mod 2 ^ bits dtype.

(** [sequence_mask(seq_len, max_len)] with the default mask type, a byte
    tensor holding 0 or 1; [seq_len] is an integer tensor of the type
    [seq_len_dtype], to which the positions are cast before they are compared
    with the lengths.  The device only says where the tensors live and is
    left out. *)
Definition sequence_mask (seq_len_dtype : int_dtype) (seq_len : list Z)
    (max_len : option Z) : result (list (list (list Z))) :=
  max_len ← match max_len with
            | None => torch_max seq_len
            | Some n => Ok n
            end;
  range ← torch_arange max_len;
  let range := type_as seq_len_dtype <$> range in
  let mask := (λ len : Z, (λ j : Z, j <? len) <$> range) <$> seq_len in
  mret ((λ row : list bool, (λ m : bool, [if m then 1 else 0]) <$> row) <$> mask).

(** A tensor of any number of axes: its shape and its elements in storage
    order. *)
Record Tensor (X : Type) : Type := { shape : list nat; values : list X }.
Arguments shape {X} t.
Arguments values {X} t.

Definition numel (s : list nat) : nat := foldr Nat.mul 1%nat s.

(** [torch.stack(tensors)]: the tensors must be one or more, all of one
    shape. *)
Definition torch_stack {Y} (tensors : list (Tensor Y))
    : result (list nat * list (list Y)) :=
  match tensors with
  | [] => Raise RuntimeError
  | t :: rest =>
      if forallb (λ u, bool_decide (shape u = shape t)) rest
      then Ok (shape t, values <$> tensors)
      else Raise RuntimeError
  end.

(** [torch.prod(stacked, dim=0)]: the product across the stacked tensors,
    position by position. *)
Definition torch_prod_dim0 (stacked : list nat * list (list Z)) : Tensor Z :=
  {| shape := stacked.1;
     values := foldr (zip_with Z.mul) (replicate (numel stacked.1) 1) stacked.2 |}.

Section voiced.
Context {X : Type}.
(** [torch.eq(x, 0.)] on one element of the feature dtype. *)
Variable eq_zero : X → bool.

(** [~torch.eq(sequence_feature, 0.)], its truth values written 0 and 1. *)
Definition is_voiced (sequence_feature : Tensor X) : Tensor Z :=
  {| shape := shape sequence_feature;
     values := (λ x, if negb (eq_zero x) then 1 else 0) <$> values sequence_feature |}.

Definition both_voiced_mask (sequence_features : list (Tensor X)) : result (Tensor Z) :=
  let is_voiced := is_voiced <$> sequence_features in
  stacked ← torch_stack is_voiced;
  mret (torch_prod_dim0 stacked).
End voiced.

(** ** Outcomes of the functions that can end in a Python error *)

(** Besides the exceptions of the numeric libraries, a call can exhaust the
    recursion limit of the interpreter or read a local variable that was
    never bound. *)
Inductive py_result (X : Type) : Type :=
  | Return (x : X)
  | RaiseFrom (e : exn)
  | RaiseRecursionError
  | RaiseUnboundLocalError.
Arguments Return {X} x.
Arguments RaiseFrom {X} e.
Arguments RaiseRecursionError {X}.
Arguments RaiseUnboundLocalError {X}.

Global Instance py_result_ret : MRet py_result := λ _ x, Return x.
Global Instance py_result_bind : MBind py_result := λ _ _ f m,
  match m with
  | Return x => f x
  | RaiseFrom e => RaiseFrom e
  | RaiseRecursionError => RaiseRecursionError
  | RaiseUnboundLocalError => RaiseUnboundLocalError
  end.

(** A call of a function handed over by the caller. *)
Definition call {X} (r : result X) : py_result X :=
  match r with
  | Ok x => Return x
  | Raise e => RaiseFrom e
  end.

(** ** [map_nested] *)

(** The data [map_nested] tells apart: an array or tensor, a mapping (its
    items in iteration order), a string (an iterable whose items are its
    one-character strings), any other iterable (its items in iteration
    order), and anything else. *)
#[warnings="-register-all"] Inductive nested (K X : Type) : Type :=
  | Array (x : X)
  | Mapping (items : list (K * nested K X))
  | Str (s : list Z)
  | Iterable (items : list (nested K X))
  | Plain (x : X).
Arguments Array {K X} x.
Arguments Mapping {K X} items.
Arguments Str {K X} s.
Arguments Iterable {K X} items.
Arguments Plain {K X} x.

(** What [map_nested] builds: a result of [func], a [dict] or a [list]. *)
#[warnings="-register-all"] Inductive nested_result (K Y : Type) : Type :=
  | Result (y : Y)
  | Dict (items : list (K * nested_result K Y))
  | List (items : list (nested_result K Y)).
Arguments Result {K Y} y.
Arguments Dict {K Y} items.
Arguments List {K Y} items.

(** [d[k] = v] on a [dict] kept as the list of its items: a key that is
    present keeps its place. *)
Fixpoint dict_set {K V} `{EqDecision K} (k : K) (v : V) (items : list (K * V))
    : list (K * V) :=
  match items with
  | [] => [(k, v)]
  | (k', v') :: items' =>
      if decide (k = k') then (k, v) :: items' else (k', v') :: dict_set k v items'
  end.

Section map_nested.
Context {K X Y : Type} `{EqDecision K}.

(** The loop over [data.items()], filling the new [dict]; [recurse] is the
    recursive call. *)
Fixpoint mapping_loop (recurse : nested K X → py_result (nested_result K Y))
    (items : list (K * nested K X)) (mapped : list (K * nested_result K Y))
    : py_result (nested_result K Y) :=
  match items with
  | [] => mret (Dict mapped)
  | (k, v) :: items' =>
      r ← recurse v;
      mapping_loop recurse items' (dict_set k r mapped)
  end.

(** Every call takes a frame; [limit] is the number of frames left before
    the interpreter raises [RecursionError]. *)
Fixpoint map_nested (limit : nat) (func : X → result Y) (data : nested K X)
    : py_result (nested_result K Y) :=
  match limit with
  | O => RaiseRecursionError
  | S limit' =>
      match data with
      | Array x => y ← call (func x); mret (Result y)
      | Mapping items => mapping_loop (map_nested limit' func) items []
      | Str s =>
          items ← mapM (λ v, map_nested limit' func (Str [v])) s;
          mret (List items)
      | Iterable items =>
          items ← mapM (map_nested limit' func) items;
          mret (List items)
      | Plain x => y ← call (func x); mret (Result y)
      end
  end.
End map_nested.

(** ** [SequentialWithRecurrent] *)

(** The modules [forward] tells apart, each with what calling it does: a
    [RecurrentCuDNNWrapper] takes the input, the initial hidden state and the
    sequence lengths, a recurrent layer of torch takes the input and the
    initial hidden state, any other module takes the input. *)
Inductive torch_module (X H L : Type) : Type :=
  | RecurrentCuDNNWrapper (forward : X → option H → option L → result (X * H))
  | RNNBase (forward : X → option H → result (X * H))
  | OtherModule (forward : X → result X).
Arguments RecurrentCuDNNWrapper {X H L} forward.
Arguments RNNBase {X H L} forward.
Arguments OtherModule {X H L} forward.

Definition is_recurrent {X H L} (module : torch_module X H L) : bool :=
  match module with
  | RecurrentCuDNNWrapper _ | RNNBase _ => true
  | OtherModule _ => false
  end.

(** What [forward] returns: the output alone, or the output with the hidden
    state. *)
Inductive forward_value (X H : Type) : Type :=
  | Output (input : X)
  | OutputAndHidden (input : X) (hidden : option H).
Arguments Output {X H} input.
Arguments OutputAndHidden {X H} input hidden.

Module SequentialWithRecurrent.
Section forward.
Context {X H L : Type}.

(** The loop over [self._modules.values()]; [module] is the loop variable,
    unbound before the first turn. *)
Fixpoint forward_loop (modules : list (torch_module X H L)) (hx : option H)
    (seq_len : option L) (input : X) (hidden : option H)
    (module : option (torch_module X H L))
    : result (X * option H * option (torch_module X H L)) :=
  match modules with
  | [] => Ok (input, hidden, module)
  | m :: modules' =>
      match m with
      | RecurrentCuDNNWrapper f =>
          '(input, hidden) ← f input hx seq_len;
          forward_loop modules' hx seq_len input (Some hidden) (Some m)
      | RNNBase f =>
          '(input, hidden) ← f input hx;
          forward_loop modules' hx seq_len input (Some hidden) (Some m)
      | OtherModule f =>
          input ← f input;
          forward_loop modules' hx seq_len input hidden (Some m)
      end
  end.

Definition forward (modules : list (torch_module X H L)) (input : X)
    (hx : option H) (seq_len : option L) : py_result (forward_value X H) :=
  '(input, hidden, module) ← call (forward_loop modules hx seq_len input None None);
  match module with
  | None => RaiseUnboundLocalError
  | Some module =>
      if is_recurrent module then mret (OutputAndHidden input hidden)
      else mret (Output input)
  end.
End forward.
End SequentialWithRecurrent.

(** ** Vocabulary of the specification *)

(** A sequence batch of shape [B, T, F]. *)
Definition shaped {X} (sequence_feature : list (list (list X))) (B T F : nat) : Prop :=
  length sequence_feature = B ∧
  Forall (λ item, length item = T ∧ Forall (λ frame, length frame = F) item)
         sequence_feature.

(** A table of counts of shape [B, T]. *)
Definition counts_shaped (r : list (list Z)) (B T : nat) : Prop :=
  length r = B ∧ Forall (λ counts, length counts = T) r.

(** The tensor [repeats] holds the counts [r], either on two axes or on three
    with a trailing axis of size one. *)
Definition boxed (r : list (list Z)) : list (list (list Z)) :=
  (λ counts : list Z, (λ c : Z, [c]) <$> counts) <$> r.

Definition holds_counts (repeats : IntTensor) (r : list (list Z)) : Prop :=
  repeats = Axes2 r ∨ repeats = Axes3 1 (boxed r).

Definition non_negative (r : list (list Z)) : Prop :=
  Forall (Forall (λ c, 0 ≤ c)) r.

(** The counts are 64-bit integers and so is the sum of every row, which is
    then the sum that [torch.sum] computes. *)
Definition int64_range (z : Z) : Prop := - 2 ^ 63 ≤ z < 2 ^ 63.

Definition fits_int64 (r : list (list Z)) : Prop :=
  Forall (λ counts, Forall int64_range counts ∧ int64_range (sum_list_Z counts)) r.

(** Each step repeated contiguously by its count, in step order. *)
Fixpoint expand {X} (steps : list X) (counts : list Z) : list X :=
  match steps, counts with
  | x :: steps', c :: counts' => replicate (Z.to_nat c) x ++ expand steps' counts'
  | _, _ => []
  end.

(** [L] is the maximum over the batch of the row sums of [r]. *)
Definition max_output_length (r : list (list Z)) (L : Z) : Prop :=
  L ∈ (sum_list_Z <$> r) ∧ Forall (λ s, s ≤ L) (sum_list_Z <$> r).

(** The rows of [l] picked in the order of the indices [p]. *)
Definition permute {X} (p : list nat) (l : list X) : list X :=
  omap (λ i, l !! i) p.

Definition permute_rows (p : list nat) (t : IntTensor) : IntTensor :=
  match t with
  | Axes2 rows => Axes2 (permute p rows)
  | Axes3 trailing rows => Axes3 trailing (permute p rows)
  end.

(** What [ascii_to_string] does to one row. *)
Definition decode_row (codes : list Z) : result (list Z) :=
  chars_with_padding ← mapM chr codes;
  mret (filter (λ s, s ≠ 0) chars_with_padding).

(** A code that [chr] accepts. *)
Definition code_point (c : Z) : Prop := 0 ≤ c < 1114112.

(** A string of ASCII characters other than the null character. *)
Definition ascii_only (s : list Z) : Prop := Forall (λ c, 1 ≤ c ≤ 127) s.

(** The locations holding the parameters of a module. *)
Definition storage (m : TorchModule) : list positive :=
  (λ np, data np.2) <$> named_parameters m.

Definition param_names (m : TorchModule) : list string :=
  fst <$> named_parameters m.

(** The index row of one batch item: the step indices repeated by the counts,
    then the index [-1] of the padding frame up to the common length [n]. *)
Definition idx_row (T n : nat) (counts : list Z) : list Z :=
  expand (arange T) counts ++ replicate (n - Z.to_nat (sum_list_Z counts)) (-1).

(** What makes an item of the loop regular: [T] non-negative counts, their sum
    as the length, which does not exceed [n]. *)
Definition regular_item (T n : nat) (item : list Z * list Z) : Prop :=
  length item.1 = T ∧ Forall (λ c, 0 ≤ c) item.1 ∧
  item.2 = [sum_list_Z item.1] ∧ sum_list_Z item.1 ≤ Z.of_nat n.

(** The output row of one batch item: its steps expanded by the counts, then
    the padding frame up to the common length [n]. *)
Definition out_row {X} (padder : X) (n : nat) (steps : list X) (counts : list Z)
    : list X :=
  expand steps counts ++ replicate (n - Z.to_nat (sum_list_Z counts)) padder.

(** Two models of one architecture, each owning its tensors, and a store
    holding them: the trainable weight ["w"] and the frozen buffer ["b"]. *)
Definition example_model : TorchModule :=
  {| ident := 0;
     named_parameters :=
       [("w"%string, {| data := 1%positive; requires_grad := true |});
        ("b"%string, {| data := 3%positive; requires_grad := false |})] |}.

Definition example_other : TorchModule :=
  {| ident := 1;
     named_parameters :=
       [("w"%string, {| data := 2%positive; requires_grad := true |});
        ("b"%string, {| data := 4%positive; requires_grad := false |})] |}.

Definition example_store : gmap positive (list Q) :=
  <[1%positive := [1; 2]%Q]>
    (<[2%positive := [3; 6]%Q]>
       (<[3%positive := [5]%Q]> (<[4%positive := [7]%Q]> ∅))).

(** A second module object that is not [example_model] but holds, under the
    name ["v"], the very tensor of the weight of [example_model]. *)
Definition example_sharing : TorchModule :=
  {| ident := 2;
     named_parameters :=
       [("v"%string, {| data := 1%positive; requires_grad := true |});
        ("w"%string, {| data := 2%positive; requires_grad := true |})] |}.

(** A model whose frozen parameter ["b"] is a second parameter object on the
    tensor of its weight ["w"]. *)
Definition example_tied : TorchModule :=
  {| ident := 3;
     named_parameters :=
       [("w"%string, {| data := 1%positive; requires_grad := true |});
        ("b"%string, {| data := 1%positive; requires_grad := false |})] |}.

(** The frame of [update_params] on the store [h], for the helper built from
    [model]: the shadow holds the tensors of the trainable parameters of
    [model] themselves; a tensor changes only if the shadow holds it under a
    name that [other_model] has too; no parameter of [other_model] changes;
    and a parameter of [model] whose name is missing from the shadow or from
    [other_model] does not change. *)
Definition update_params_footprint (model other_model : TorchModule) (decay : Q)
    (h : gmap positive (list Q)) : Prop :=
  let self := ExponentialMovingAverage.__init__ model decay in
  let h' := (ExponentialMovingAverage.update_params self other_model h).1 in
  (∀ name l, ExponentialMovingAverage.shadow self !! name = Some l →
     ∃ param, (name, param) ∈ named_parameters model ∧
              requires_grad param = true ∧ data param = l) ∧
  (∀ l, (∀ name, name ∈ param_names other_model →
                 ExponentialMovingAverage.shadow self !! name ≠ Some l) →
        h' !! l = h !! l) ∧
  (∀ name param, (name, param) ∈ named_parameters other_model →
     h' !! data param = h !! data param) ∧
  (∀ name param, (name, param) ∈ named_parameters model →
     ExponentialMovingAverage.shadow self !! name = None ∨
     name ∉ param_names other_model →
     h' !! data param = h !! data param).

(** The largest value of an integer type. *)
Definition max_value (dtype : int_dtype) : Z :=
  if signed dtype then 2 ^ (bits dtype - 1) - 1 else 2 ^ bits dtype - 1.

(** The mask row of a sequence of length [len] at width [n]: ones on the
    positions of the sequence, zeros after them. *)
Definition mask_row (len : Z) (n : nat) : list (list Z) :=
  replicate (Nat.min (Z.to_nat len) n) [1] ++ replicate (n - Z.to_nat len) [0].

(** A tensor holds as many elements as its shape says. *)
Definition well_formed {X} (t : Tensor X) : Prop := length (values t) = numel (shape t).

(** Every feature is non-zero at position [i]. *)
Definition all_voiced_at {X} (eq_zero : X → bool) (features : list (Tensor X)) (i : nat)
    : bool :=
  forallb (λ t, match values t !! i with
                | Some x => negb (eq_zero x)
                | None => false
                end) features.

(** The data holds a non-empty string: as such, as a value of a mapping or as
    an item of an iterable, at any depth. *)
Inductive has_text {K X : Type} : nested K X → Prop :=
  | text_here (c : Z) (s : list Z) : has_text (Str (c :: s))
  | text_in_mapping (items : list (K * nested K X)) (k : K) (v : nested K X) :
      (k, v) ∈ items → has_text v → has_text (Mapping items)
  | text_in_iterable (items : list (nested K X)) (v : nested K X) :
      v ∈ items → has_text v → has_text (Iterable items).

(** Data without a non-empty string, nested less than [n] deep, whose
    mappings have distinct keys (as every [dict] has). *)
#[warnings="-register-all"] Inductive plain_data {K X : Type} : nat → nested K X → Prop :=
  | plain_array (n : nat) (x : X) : plain_data (S n) (Array x)
  | plain_other (n : nat) (x : X) : plain_data (S n) (Plain x)
  | plain_empty_str (n : nat) : plain_data (S n) (Str [])
  | plain_mapping (n : nat) (items : list (K * nested K X)) :
      NoDup items.*1 → Forall (λ kv, plain_data n kv.2) items →
      plain_data (S n) (Mapping items)
  | plain_iterable (n : nat) (items : list (nested K X)) :
      Forall (plain_data n) items → plain_data (S n) (Iterable items).

(** A call that returns or hits the recursion limit. *)
Definition returns_or_overflows {K Y} (r : py_result (nested_result K Y)) : Prop :=
  (∃ v, r = Return v) ∨ r = RaiseRecursionError.

(** The function applied to every leaf: mappings keep their keys in order,
    every other iterable becomes a list of the same length. *)
Fixpoint map_leaves {K X Y : Type} (f : X → Y) (data : nested K X) : nested_result K Y :=
  match data with
  | Array x => Result (f x)
  | Mapping items => Dict (map (λ kv, let '(k, v) := kv in (k, map_leaves f v)) items)
  | Str _ => List []
  | Iterable items => List (map (map_leaves f) items)
  | Plain x => Result (f x)
  end.

(** The modules of a plain [nn.Sequential] applied one after the other. *)
Definition compose_layers {X} (layers : list (X → result X)) (input : X) : result X :=
  foldl (λ acc layer, acc ≫= layer) (Ok input) layers.

(** The input handed to the module that follows [modules]. *)
Definition input_after {X H L} (modules : list (torch_module X H L)) (hx : option H)
    (seq_len : option L) (input : X) : result X :=
  '(input, _, _) ← SequentialWithRecurrent.forward_loop modules hx seq_len input None None;
  mret input.

Example upsample_demo :
  upsample_to_repetitions 0 [[[5]; [7]; [9]]; [[1]; [2]; [3]]]
                          (Axes3 1 [[[2]; [0]; [1]]; [[1]; [2]; [2]]])
  = Ok [[[5]; [5]; [9]; [0]; [0]]; [[1]; [2]; [2]; [3]; [3]]].
Proof. reflexivity. Qed.

(** A batch without steps comes back without frames. *)
Example upsample_no_step :
  upsample_to_repetitions 0 [[]; []] (Axes3 1 [[]; []]) = Ok [[]; []].
Proof. reflexivity. Qed.

Example codec_demo :
  string_to_ascii (Listed [[104; 105]; [97; 0; 98]; []]) (Some 4)
    ≫= ascii_to_string
  = Ok [[104; 105]; [97; 98]; []].
Proof. reflexivity. Qed.

(** * Proofs *)

(** ** The error monad *)

Lemma mapM_Ok {X Y} (f : X → result Y) (xs : list X) (ys : list Y) :
  Forall2 (λ x y, f x = Ok y) xs ys → mapM f xs = Ok ys.
Proof.
  induction 1 as [|x y xs ys Hxy _ IH]; [done|].
  cbn. rewrite Hxy. cbn. by rewrite IH.
Qed.

Lemma mapM_Ok_inv {X Y} (f : X → result Y) (xs : list X) (ys : list Y) :
  mapM f xs = Ok ys → Forall2 (λ x y, f x = Ok y) xs ys.
Proof.
  revert ys. induction xs as [|x xs IH]; intros ys; cbn.
  - intros [= <-]. constructor.
  - destruct (f x) as [y|e] eqn:Hx; cbn; [|done].
    destruct (mapM f xs) as [ys'|e]; cbn; [|done].
    intros [= <-]. constructor; auto.
Qed.

Lemma mapM_app_Ok {X Y} (f : X → result Y) xs1 xs2 ys1 ys2 :
  mapM f xs1 = Ok ys1 → mapM f xs2 = Ok ys2 → mapM f (xs1 ++ xs2) = Ok (ys1 ++ ys2).
Proof.
  intros H1%mapM_Ok_inv H2%mapM_Ok_inv. apply mapM_Ok. by apply Forall2_app.
Qed.

Lemma mapM_replicate_Ok {X Y} (f : X → result Y) n x y :
  f x = Ok y → mapM f (replicate n x) = Ok (replicate n y).
Proof. intros H. apply mapM_Ok. by apply Forall2_replicate. Qed.

(** ** Indexing, sums and maxima *)

Lemma getitem_nat {X} (l : list X) (i : nat) (x : X) :
  l !! i = Some x → getitem l (Z.of_nat i) = Ok x.
Proof.
  intros H. unfold getitem.
  destruct (Z.ltb_spec (Z.of_nat i) 0) as [?|_]; [lia|].
  destruct (Z.ltb_spec (Z.of_nat i) 0) as [?|_]; [lia|].
  by rewrite Nat2Z.id, H.
Qed.

Lemma getitem_last {X} (l : list X) (x : X) : getitem (l ++ [x]) (-1) = Ok x.
Proof.
  unfold getitem. rewrite length_app. cbn [length].
  change (-1 <? 0) with true. cbn match.
  destruct (Z.ltb_spec (-1 + Z.of_nat (length l + 1)) 0) as [?|_]; [lia|].
  replace (Z.to_nat (-1 + Z.of_nat (length l + 1))) with (length l) by lia.
  by rewrite list_lookup_middle.
Qed.

Lemma sum_list_Z_app (l k : list Z) :
  sum_list_Z (l ++ k) = sum_list_Z l + sum_list_Z k.
Proof. unfold sum_list_Z. induction l; cbn; lia. Qed.

Lemma sum_list_Z_nonneg (l : list Z) : Forall (λ c, 0 ≤ c) l → 0 ≤ sum_list_Z l.
Proof. unfold sum_list_Z. induction 1; cbn; lia. Qed.

Lemma sum_list_Z_zeros (l : list Z) : Forall (λ c, c = 0) l → sum_list_Z l = 0.
Proof. unfold sum_list_Z. induction 1; cbn; lia. Qed.

Lemma foldl_max_spec (x : Z) (rest : list Z) :
  foldl Z.max x rest ∈ x :: rest ∧ Forall (λ s, s ≤ foldl Z.max x rest) (x :: rest).
Proof.
  revert x. induction rest as [|y rest IH]; intros x; cbn [foldl].
  - split; [left|]. repeat constructor. lia.
  - destruct (IH (Z.max x y)) as [Hin Hle]. split.
    + apply elem_of_cons in Hin as [Heq|Hin].
      * rewrite Heq. destruct (Z.max_spec x y) as [[_ ->]|[_ ->]];
          [right; left | left].
      * right; by right.
    + apply Forall_cons in Hle as [Hm Hle].
      constructor; [lia|]. constructor; [lia|done].
Qed.

(** A maximum, when there is one, is unique, so it does not depend on the
    order of the list. *)
Lemma list_max_unique (l : list Z) (m1 m2 : Z) :
  m1 ∈ l → Forall (λ s, s ≤ m1) l → m2 ∈ l → Forall (λ s, s ≤ m2) l → m1 = m2.
Proof.
  intros H1 A1 H2 A2.
  rewrite Forall_forall in A1, A2.
  specialize (A1 _ H2). specialize (A2 _ H1). lia.
Qed.

Lemma torch_max_spec (l : list Z) (L : Z) :
  torch_max l = Ok L ↔ L ∈ l ∧ Forall (λ s, s ≤ L) l.
Proof.
  destruct l as [|x rest]; cbn.
  - split; [done|]. intros [H _]. by apply elem_of_nil in H.
  - split.
    + intros [= <-]. apply foldl_max_spec.
    + intros [Hin Hle]. f_equal.
      destruct (foldl_max_spec x rest). eapply list_max_unique; eauto.
Qed.

Lemma torch_max_total (l : list Z) : l ≠ [] → ∃ L, torch_max l = Ok L.
Proof. destruct l; [done|]. cbn. eauto. Qed.

(** ** [np.repeat] and the expansion of the specification *)

Lemma length_expand {X} (steps : list X) (counts : list Z) :
  length steps = length counts → Forall (λ c, 0 ≤ c) counts →
  length (expand steps counts) = Z.to_nat (sum_list_Z counts).
Proof.
  revert counts. induction steps as [|x steps IH]; intros [|c counts]; cbn; try done.
  intros [= Hlen] [Hc Hcs]%Forall_cons.
  rewrite length_app, length_replicate, IH by done.
  pose proof (sum_list_Z_nonneg _ Hcs). unfold sum_list_Z in *. lia.
Qed.

Lemma concat_zip_with_expand {X} (a : list X) (counts : list Z) :
  concat (zip_with (λ x c, replicate (Z.to_nat c) x) a counts) = expand a counts.
Proof.
  revert counts. induction a as [|x a IH]; intros [|c counts]; cbn; try done.
  by rewrite IH.
Qed.

Lemma np_repeat_Ok {X} (a : list X) (counts : list Z) :
  length counts = length a → Forall (λ c, 0 ≤ c) counts →
  np_repeat a counts = Ok (expand a counts).
Proof.
  intros Hlen Hnn.
  assert (forallb (λ c, 0 <=? c) counts = true) as Hall.
  { apply forallb_forall. intros c Hc%list_elem_of_In.
    rewrite Forall_forall in Hnn. apply Z.leb_le; auto. }
  unfold np_repeat. rewrite Hlen, Nat.eqb_refl, Hall. cbn [negb].
  rewrite concat_zip_with_expand.
  destruct counts as [|c [|c' counts]]; try done.
  destruct a as [|x [|x' a]]; try done.
  apply Forall_cons in Hnn as [Hc _].
  destruct (Z.ltb_spec c 0); [lia|]. cbn. by rewrite !app_nil_r.
Qed.

Lemma np_repeat_negative {X} (a : list X) (counts : list Z) :
  length counts = length a → ¬ Forall (λ c, 0 ≤ c) counts →
  np_repeat a counts = Raise ValueError.
Proof.
  intros Hlen Hneg.
  assert (forallb (λ c, 0 <=? c) counts = false) as Hall.
  { apply not_true_is_false. intros H. apply Hneg, Forall_forall.
    intros c Hc%list_elem_of_In. rewrite forallb_forall in H. apply Z.leb_le; auto. }
  unfold np_repeat. rewrite Hlen, Nat.eqb_refl, Hall. cbn [negb].
  destruct counts as [|c [|c' counts]]; try done.
  destruct (Z.ltb_spec c 0); [done|].
  exfalso. apply Hneg. by repeat constructor.
Qed.

(** Reading the expanded indices out of a list gives the expanded list. *)
Lemma mapM_expand {X Y} (f : X → result Y) idxs ys counts :
  Forall2 (λ i y, f i = Ok y) idxs ys →
  mapM f (expand idxs counts) = Ok (expand ys counts).
Proof.
  intros H. revert counts.
  induction H as [|i y idxs ys Hiy _ IH]; intros [|c counts]; cbn [expand]; try done.
  apply mapM_app_Ok; [|apply IH]. by apply mapM_replicate_Ok.
Qed.

(** The position of a step's copies inside the expansion. *)
Lemma expand_lookup {X} (steps : list X) (counts : list Z) (t : nat) (x : X) (j : Z) :
  length steps = length counts → Forall (λ c, 0 ≤ c) counts →
  steps !! t = Some x →
  sum_list_Z (take t counts) ≤ j < sum_list_Z (take (S t) counts) →
  expand steps counts !! Z.to_nat j = Some x.
Proof.
  revert counts t j.
  induction steps as [|y steps IH]; intros [|c counts] t j; cbn; try done.
  intros [= Hlen] [Hc Hcs]%Forall_cons Ht Hj.
  unfold sum_list_Z in Hj.
  destruct t as [|t]; cbn in *.
  - injection Ht as ->. rewrite take_0 in Hj. cbn in Hj.
    rewrite lookup_app_l by (rewrite length_replicate; lia).
    apply lookup_replicate_2. lia.
  - pose proof (sum_list_Z_nonneg (take t counts)) as Hpre.
    unfold sum_list_Z in Hpre.
    rewrite lookup_app_r by (rewrite length_replicate;
      specialize (Hpre (Forall_take _ _ _ Hcs)); lia).
    rewrite length_replicate.
    replace (Z.to_nat j - Z.to_nat c)%nat with (Z.to_nat (j - c)) by lia.
    apply (IH counts t); [done..|]. unfold sum_list_Z. lia.
Qed.

(** ** Reshaping and summing the counts *)

Lemma chunks_concat (r : list (list Z)) (T : nat) :
  Forall (λ counts, length counts = T) r → chunks (length r) T (concat r) = r.
Proof.
  induction 1 as [|counts r Hc _ IH]; cbn; [done|].
  rewrite take_app_length', drop_app_length' by done. by rewrite IH.
Qed.

Lemma length_concat_rows (r : list (list Z)) (T : nat) :
  Forall (λ counts, length counts = T) r → length (concat r) = (length r * T)%nat.
Proof. induction 1 as [|counts r Hc _ IH]; cbn; [done|]. rewrite length_app. lia. Qed.

Lemma reshape_rows_concat (r : list (list Z)) (B T : nat) :
  counts_shaped r B T → (0 < B)%nat →
  reshape_rows B (concat r) = Ok r.
Proof.
  intros [HB HT] HposB. unfold reshape_rows.
  rewrite (length_concat_rows r T HT), HB.
  destruct (Nat.eqb_spec B 0) as [?|_]; [lia|].
  rewrite (Nat.mul_comm B T), Nat.Div0.mod_mul, Nat.div_mul by lia.
  cbn. rewrite <-HB. by rewrite chunks_concat.
Qed.

Lemma elements_holds (repeats : IntTensor) (r : list (list Z)) :
  holds_counts repeats r → elements repeats = concat r.
Proof.
  intros [->| ->]; [done|]. cbn. f_equal. unfold boxed.
  rewrite <-list_fmap_compose. apply list_eq. intros i. rewrite list_lookup_fmap.
  destruct (r !! i) as [counts|]; cbn; [|done]. f_equal.
  induction counts; cbn; [done|]. by f_equal.
Qed.

Lemma sum_steps_boxed (counts : list Z) :
  sum_steps 1 ((λ c : Z, [c]) <$> counts) = [sum_list_Z counts].
Proof.
  unfold sum_steps. induction counts as [|c counts IH]; cbn; [done|].
  unfold sum_list_Z in *. cbn in IH. by rewrite IH.
Qed.

Lemma torch_sum_dim1_holds (repeats : IntTensor) (r : list (list Z)) :
  holds_counts repeats r →
  torch_sum_dim1 repeats = (λ counts, [sum_list_Z counts]) <$> r.
Proof.
  intros [->| ->]; [done|]. cbn. unfold boxed.
  rewrite <-list_fmap_compose. apply list_fmap_ext.
  intros i counts _. cbn. apply sum_steps_boxed.
Qed.

Lemma concat_singletons (r : list (list Z)) :
  concat ((λ counts, [sum_list_Z counts]) <$> r) = sum_list_Z <$> r.
Proof. induction r; cbn; [done|]. by f_equal. Qed.

(** ** The index rows built by the loop *)

Lemma slice_stop_within (n : nat) (stop : Z) :
  0 ≤ stop ≤ Z.of_nat n → slice_stop n stop = Z.to_nat stop.
Proof. intros H. unfold slice_stop. destruct (Z.ltb_spec stop 0); lia. Qed.

Lemma assign_prefix_Ok {X} (row vals : list X) (stop : Z) :
  0 ≤ stop ≤ Z.of_nat (length row) → length vals = Z.to_nat stop →
  assign_prefix row stop vals = Ok (vals ++ drop (Z.to_nat stop) row).
Proof.
  intros Hstop Hlen. unfold assign_prefix.
  rewrite slice_stop_within by done. by rewrite Hlen, Nat.eqb_refl.
Qed.

Lemma length_arange (n : nat) : length (arange n) = n.
Proof. unfold arange. by rewrite length_fmap, length_seq. Qed.

Lemma length_idx_row (T n : nat) (counts : list Z) :
  length counts = T → Forall (λ c, 0 ≤ c) counts → sum_list_Z counts ≤ Z.of_nat n →
  length (idx_row T n counts) = n.
Proof.
  intros HT Hnn Hle. unfold idx_row.
  rewrite length_app, length_replicate, length_expand;
    rewrite ?length_arange; [lia|done..].
Qed.

Lemma fill_repeated_idxs_step (T n b : nat) (counts : list Z) items
    (repeated_idxs : list (list Z)) (row : list Z) :
  regular_item T n (counts, [sum_list_Z counts]) →
  repeated_idxs !! b = Some row → length row = n →
  fill_repeated_idxs (arange T) b ((counts, [sum_list_Z counts]) :: items) repeated_idxs
  = fill_repeated_idxs (arange T) (S b) items
      (<[b := expand (arange T) counts ++ drop (Z.to_nat (sum_list_Z counts)) row]>
         repeated_idxs).
Proof.
  intros (HT & Hnn & _ & Hle) Hrow Hlen. cbn [fst snd] in HT, Hnn, Hle.
  pose proof (sum_list_Z_nonneg _ Hnn).
  cbn [fill_repeated_idxs].
  rewrite np_repeat_Ok by (by rewrite ?length_arange). cbn.
  rewrite (getitem_nat _ _ _ Hrow). cbn.
  rewrite assign_prefix_Ok; [done|lia|].
  rewrite length_expand; rewrite ?length_arange; done.
Qed.

Lemma fill_repeated_idxs_Ok (T n : nat) (items : list (list Z * list Z))
    (done_rows : list (list Z)) :
  Forall (regular_item T n) items →
  fill_repeated_idxs (arange T) (length done_rows) items
    (done_rows ++ replicate (length items) (replicate n (-1)))
  = Ok (done_rows ++ ((λ item, idx_row T n item.1) <$> items)).
Proof.
  revert done_rows. induction items as [|[counts len] items IH]; intros done_rows.
  - intros _. done.
  - intros [Hreg Hrest]%Forall_cons.
    assert (len = [sum_list_Z counts]) as -> by apply Hreg.
    cbn [length replicate].
    rewrite (fill_repeated_idxs_step T n _ _ _ _ (replicate n (-1))); try done.
    + rewrite insert_app_r_alt, Nat.sub_diag by done. cbn [insert list_insert].
      rewrite drop_replicate.
      specialize (IH (done_rows ++ [idx_row T n counts]) Hrest).
      rewrite length_app, Nat.add_1_r, <-!(assoc_L (++)) in IH. exact IH.
    + by rewrite list_lookup_middle.
    + by rewrite length_replicate.
Qed.

(** A negative count stops the loop with numpy's [ValueError], whatever
    happened on the rows before it. *)
Lemma fill_repeated_idxs_negative (T n : nat) (items : list (list Z * list Z))
    (b : nat) (repeated_idxs : list (list Z)) :
  Forall (λ row, length row = n) repeated_idxs →
  (b + length items ≤ length repeated_idxs)%nat →
  Forall (λ item, length item.1 = T ∧ item.2 = [sum_list_Z item.1] ∧
                  sum_list_Z item.1 ≤ Z.of_nat n) items →
  Exists (λ item, ¬ Forall (λ c, 0 ≤ c) item.1) items →
  fill_repeated_idxs (arange T) b items repeated_idxs = Raise ValueError.
Proof.
  revert b repeated_idxs.
  induction items as [|[counts len] items IH]; intros b idxs Hrows Hb Hitems Hneg.
  - by apply Exists_nil in Hneg.
  - apply Forall_cons in Hitems as [(HT & Hlen & Hle) Hitems].
    cbn [fst snd] in HT, Hlen, Hle.
    subst len. cbn [length] in Hb.
    destruct (decide (Forall (λ c, 0 ≤ c) counts)) as [Hnn|Hbad].
    + apply Exists_cons in Hneg as [?|Hneg]; [done|].
      destruct (lookup_lt_is_Some_2 idxs b) as [row Hrow]; [lia|].
      assert (length row = n) as Hrowlen.
      { rewrite Forall_forall in Hrows. eapply Hrows, list_elem_of_lookup_2, Hrow. }
      rewrite (fill_repeated_idxs_step T n _ _ _ _ row); try done.
      apply IH; try done.
      * apply Forall_insert; [done|].
        pose proof (sum_list_Z_nonneg _ Hnn).
        rewrite length_app, length_drop, length_expand;
          rewrite ?length_arange; [lia|done..].
      * rewrite length_insert. lia.
    + cbn [fill_repeated_idxs].
      by rewrite np_repeat_negative by (by rewrite ?length_arange).
Qed.

Lemma zip_fmap_self {X Y} (f : X → Y) (l : list X) :
  zip l (f <$> l) = (λ x, (x, f x)) <$> l.
Proof. induction l; cbn; [done|]. by f_equal. Qed.

(** ** The gather *)

Lemma lookup_arange (n i : nat) (z : Z) : arange n !! i = Some z → z = Z.of_nat i.
Proof.
  unfold arange. rewrite list_lookup_fmap.
  destruct (seq 0 n !! i) as [k|] eqn:Hk; [|done].
  apply lookup_seq in Hk as [-> _]. by intros [= <-].
Qed.

Lemma getitem_steps {X} (steps : list X) (padder : X) :
  Forall2 (λ i y, getitem (steps ++ [padder]) i = Ok y) (arange (length steps)) steps.
Proof.
  apply Forall2_same_length_lookup_2.
  - apply length_arange.
  - intros i z y Hi Hy.
    apply lookup_arange in Hi as ->. apply getitem_nat. by apply lookup_app_l_Some.
Qed.

Section gather_proofs.
Context {A : Type}.

Lemma gather_item (source : list (list (list A))) (b : Z) item ts ys (n : nat) :
  getitem source b = Ok item → mapM (getitem item) ts = Ok ys →
  (length ts ≤ n)%nat →
  mapM (λ '(b, t), item ← getitem source b; getitem item t) (zip (replicate n b) ts)
  = Ok ys.
Proof.
  intros Hb Hts%mapM_Ok_inv Hn. apply mapM_Ok. revert n Hn.
  induction Hts as [|t y ts ys Hty _ IH]; intros n Hn.
  - destruct n; constructor.
  - destruct n as [|n]; cbn in Hn; [lia|]. cbn. constructor.
    + rewrite Hb. cbn. done.
    + apply IH. lia.
Qed.

Lemma gather_out_row (steps : list (list A)) (padder : list A) (counts : list Z)
    (n : nat) :
  mapM (getitem (steps ++ [padder])) (idx_row (length steps) n counts)
  = Ok (out_row padder n steps counts).
Proof.
  unfold idx_row, out_row. apply mapM_app_Ok.
  - apply mapM_expand, getitem_steps.
  - apply mapM_replicate_Ok, getitem_last.
Qed.

Lemma gather_Ok (sf : list (list (list A))) (padder : list A) (r : list (list Z))
    (B T F n : nat) :
  shaped sf B T F → counts_shaped r B T → non_negative r →
  Forall (λ counts, sum_list_Z counts ≤ Z.of_nat n) r →
  gather ((λ item, item ++ [padder]) <$> sf)
         ((λ b, replicate n b) <$> arange B) (idx_row T n <$> r)
  = Ok (zip_with (out_row padder n) sf r).
Proof.
  intros [HB Hsf] [HrB HrT] Hnn Hle. unfold gather. apply mapM_Ok.
  apply Forall2_same_length_lookup_2.
  { rewrite !length_zip_with, !length_fmap, length_arange. lia. }
  intros i [bs ts] y Hi Hy.
  apply lookup_zip_with_Some in Hi as (bs' & ts' & [= <- <-] & Hbs & Hts).
  apply lookup_zip_with_Some in Hy as (steps & counts & -> & Hsteps & Hcounts).
  rewrite list_lookup_fmap in Hbs. rewrite list_lookup_fmap, Hcounts in Hts.
  destruct (arange B !! i) as [z|] eqn:Hz; [|done].
  apply lookup_arange in Hz as ->. cbn in Hbs, Hts.
  injection Hbs as <-. injection Hts as <-.
  unfold non_negative in Hnn.
  rewrite Forall_forall in Hsf. rewrite Forall_forall in HrT.
  rewrite Forall_forall in Hnn. rewrite Forall_forall in Hle.
  pose proof (list_elem_of_lookup_2 _ _ _ Hsteps) as Hin1.
  pose proof (list_elem_of_lookup_2 _ _ _ Hcounts) as Hin2.
  destruct (Hsf _ Hin1) as [HT _].
  apply (gather_item _ _ (steps ++ [padder])).
  - apply getitem_nat. by rewrite list_lookup_fmap, Hsteps.
  - rewrite <-HT. apply gather_out_row.
  - rewrite length_idx_row; auto.
Qed.
End gather_proofs.

(** ** What [upsample_to_repetitions] computes *)

Lemma max_output_length_exists (r : list (list Z)) :
  r ≠ [] → ∃ L, max_output_length r L.
Proof.
  intros Hne. destruct (torch_max_total (sum_list_Z <$> r)) as [L HL].
  - by destruct r.
  - exists L. by apply torch_max_spec.
Qed.

Lemma max_output_length_bound (r : list (list Z)) (L : Z) (b : nat) counts :
  max_output_length r L → r !! b = Some counts → sum_list_Z counts ≤ L.
Proof.
  intros [_ Hmax] Hb. rewrite Forall_fmap, Forall_forall in Hmax.
  apply (Hmax counts). by eapply list_elem_of_lookup_2.
Qed.

Lemma max_output_length_nonneg (r : list (list Z)) (L : Z) :
  non_negative r → max_output_length r L → 0 ≤ L.
Proof.
  intros Hnn [Hin _]. apply list_elem_of_fmap in Hin as (counts & -> & Hc).
  unfold non_negative in Hnn. rewrite Forall_forall in Hnn.
  apply sum_list_Z_nonneg; auto.
Qed.

Lemma max_output_length_fits (r : list (list Z)) (L : Z) :
  fits_int64 r → max_output_length r L → int64_range L.
Proof.
  intros Hfits [Hin _]. apply list_elem_of_fmap in Hin as (counts & -> & Hc).
  unfold fits_int64 in Hfits. rewrite Forall_forall in Hfits.
  by destruct (Hfits counts Hc).
Qed.

(** Without steps every row sum is zero, and so is the maximum. *)
Lemma max_output_length_no_step (r : list (list Z)) (B : nat) (L : Z) :
  counts_shaped r B 0 → max_output_length r L → L = 0.
Proof.
  intros [_ HT] [Hin _]. apply list_elem_of_fmap in Hin as (counts & -> & Hc).
  rewrite Forall_forall in HT. by apply HT, nil_length_inv in Hc as ->.
Qed.

Section upsample_proofs.
Context {A : Type}.
Variable zero : A.

Lemma shaped_dims (sf : list (list (list A))) (B T F : nat) :
  shaped sf B T F → (0 < B)%nat →
  length (hd [] sf) = T ∧ ((0 < T)%nat → length (hd [] (hd [] sf)) = F).
Proof.
  intros [HB Hsf] HposB.
  destruct sf as [|item sf]; cbn in HB; [lia|].
  apply Forall_cons in Hsf as [[HT HF] _]. cbn. split; [done|]. intros HposT.
  destruct item as [|frame item]; cbn in HT; [lia|].
  by apply Forall_cons in HF as [HF _].
Qed.

(** The first statements of the function, common to all aligned inputs:
    the row sums, their maximum and the reshaped counts. *)
Lemma upsample_to_repetitions_unfold (sf : list (list (list A))) repeats r
    (B T F : nat) (L : Z) :
  shaped sf B T F → counts_shaped r B T → holds_counts repeats r →
  (0 < B)%nat → max_output_length r L →
  upsample_to_repetitions zero sf repeats =
    (batch_idxs ← torch_repeat_cols (arange B) L;
     repeated_idxs ← np_full B L (-1);
     repeated_idxs ← fill_repeated_idxs (arange T) 0
                       ((λ counts, (counts, [sum_list_Z counts])) <$> r) repeated_idxs;
     gather ((λ item, item ++ [replicate (length (hd [] (hd [] sf))) zero]) <$> sf)
            batch_idxs repeated_idxs).
Proof.
  intros Hsf Hr Hholds HposB [Hin Hmax].
  destruct (shaped_dims _ _ _ _ Hsf HposB) as [HT _].
  unfold upsample_to_repetitions.
  rewrite (torch_sum_dim1_holds _ _ Hholds), concat_singletons.
  rewrite (proj2 (torch_max_spec _ L)) by done.
  rewrite (elements_holds _ _ Hholds).
  destruct Hsf as [HB Hsf]. rewrite HB, HT.
  rewrite (reshape_rows_concat _ _ _ Hr HposB).
  cbn [mbind result_bind]. by rewrite zip_fmap_self.
Qed.

(** Every aligned input with non-negative counts is upsampled row by row. *)
Theorem upsample_to_repetitions_Ok (sf : list (list (list A))) repeats r
    (B T F : nat) (L : Z) :
  shaped sf B T F → counts_shaped r B T → holds_counts repeats r →
  (0 < B)%nat → non_negative r → max_output_length r L →
  upsample_to_repetitions zero sf repeats
  = Ok (zip_with (out_row (replicate F zero) (Z.to_nat L)) sf r).
Proof.
  intros Hsf Hr Hholds HposB Hnn HL.
  rewrite (upsample_to_repetitions_unfold sf repeats r B T F L) by done.
  pose proof (max_output_length_nonneg r L Hnn HL) as HL0.
  unfold torch_repeat_cols, np_full.
  destruct (Z.ltb_spec L 0) as [?|_]; [lia|]. cbn [mbind result_bind].
  pose proof (fill_repeated_idxs_Ok T (Z.to_nat L)
                ((λ counts, (counts, [sum_list_Z counts])) <$> r) []) as Hfill.
  cbn [length app] in Hfill.
  rewrite length_fmap, (proj1 Hr) in Hfill. rewrite Hfill; clear Hfill.
  - cbn [mbind result_bind]. rewrite <-list_fmap_compose.
    rewrite (gather_Ok sf _ r B T F); try done.
    + f_equal. destruct (shaped_dims _ _ _ _ Hsf HposB) as [_ HF].
      destruct T as [|T]; [|by rewrite HF by lia].
      by rewrite (max_output_length_no_step r B L Hr HL).
    + destruct HL as [_ Hmax]. rewrite Forall_fmap in Hmax.
      eapply Forall_impl; [exact Hmax|].
      intros counts Hc. unfold compose in Hc. lia.
  - destruct Hr as [_ HrT], HL as [_ Hmax].
    apply Forall_fmap. unfold non_negative in Hnn.
    rewrite Forall_fmap in Hmax.
    rewrite Forall_forall in HrT. rewrite Forall_forall in Hnn.
    rewrite Forall_forall in Hmax.
    apply Forall_forall. intros counts Hc. repeat split; cbn [fst snd]; auto.
    specialize (Hmax _ Hc). unfold compose in Hmax. lia.
Qed.

(** A negative count makes every aligned input raise. *)
Theorem upsample_to_repetitions_negative (sf : list (list (list A))) repeats r
    (B T F : nat) (L : Z) :
  shaped sf B T F → counts_shaped r B T → holds_counts repeats r →
  (0 < B)%nat → ¬ non_negative r → max_output_length r L →
  upsample_to_repetitions zero sf repeats
  = Raise (if L <? 0 then RuntimeError else ValueError).
Proof.
  intros Hsf Hr Hholds HposB Hneg HL.
  rewrite (upsample_to_repetitions_unfold sf repeats r B T F L) by done.
  destruct HL as [Hin Hmax].
  unfold torch_repeat_cols, np_full.
  destruct (Z.ltb_spec L 0) as [?|HL0]; [done|]. cbn [mbind result_bind].
  destruct Hr as [HrB HrT].
  rewrite (fill_repeated_idxs_negative T (Z.to_nat L)); [done|..].
  - apply Forall_replicate. by rewrite length_replicate.
  - rewrite length_fmap, length_replicate. lia.
  - apply Forall_fmap. rewrite Forall_fmap in Hmax.
    rewrite Forall_forall in HrT. rewrite Forall_forall in Hmax.
    apply Forall_forall. intros counts Hc. repeat split; cbn [fst snd]; auto.
    specialize (Hmax _ Hc). unfold compose in Hmax. lia.
  - apply Exists_fmap. cbn. by apply not_Forall_Exists; [apply _|].
Qed.

(** An empty batch has no row sum to take the maximum of. *)
Lemma upsample_to_repetitions_empty_batch (sf : list (list (list A))) repeats r
    (T F : nat) :
  shaped sf 0 T F → counts_shaped r 0 T → holds_counts repeats r →
  upsample_to_repetitions zero sf repeats = Raise RuntimeError.
Proof.
  intros _ [HrB _] Hholds. apply nil_length_inv in HrB as ->.
  unfold upsample_to_repetitions. by destruct Hholds as [->| ->].
Qed.
End upsample_proofs.

(** ** Output rows *)

Lemma expand_zero_counts {X} (steps : list X) (counts : list Z) :
  Forall (λ c, c = 0) counts → expand steps counts = [].
Proof.
  intros H. revert steps.
  induction H as [|c counts -> _ IH]; intros [|x steps]; try done.
  cbn [expand]. change (Z.to_nat 0) with 0%nat. apply IH.
Qed.

Lemma expand_frames {X} (P : X → Prop) (steps : list X) (counts : list Z) :
  Forall P steps → Forall P (expand steps counts).
Proof.
  intros H. revert counts. induction H as [|x steps Hx _ IH]; intros [|c counts]; cbn;
    try constructor.
  apply Forall_app. split; [by apply Forall_replicate|apply IH].
Qed.

Section out_row_proofs.
Context {A : Type}.

Lemma length_out_row (padder : A) (n : nat) (steps : list A) (counts : list Z) :
  length steps = length counts → Forall (λ c, 0 ≤ c) counts →
  sum_list_Z counts ≤ Z.of_nat n →
  length (out_row padder n steps counts) = n.
Proof.
  intros Hlen Hnn Hle. unfold out_row.
  rewrite length_app, length_replicate, length_expand by done. lia.
Qed.

Lemma take_out_row (padder : A) (n : nat) (steps : list A) (counts : list Z) :
  length steps = length counts → Forall (λ c, 0 ≤ c) counts →
  take (Z.to_nat (sum_list_Z counts)) (out_row padder n steps counts)
  = expand steps counts.
Proof.
  intros Hlen Hnn. unfold out_row.
  by rewrite take_app_length' by (symmetry; by apply length_expand).
Qed.

Lemma drop_out_row (padder : A) (n : nat) (steps : list A) (counts : list Z) :
  length steps = length counts → Forall (λ c, 0 ≤ c) counts →
  drop (Z.to_nat (sum_list_Z counts)) (out_row padder n steps counts)
  = replicate (n - Z.to_nat (sum_list_Z counts)) padder.
Proof.
  intros Hlen Hnn. unfold out_row.
  by rewrite drop_app_length' by (symmetry; by apply length_expand).
Qed.

Lemma out_row_frames (P : A → Prop) (padder : A) (n : nat) (steps : list A)
    (counts : list Z) :
  Forall P steps → P padder → Forall P (out_row padder n steps counts).
Proof.
  intros H Hp. unfold out_row. apply Forall_app. split.
  - by apply expand_frames.
  - by apply Forall_replicate.
Qed.

(** The facts about one row of an aligned batch that the statements below
    keep using. *)
Lemma aligned_row (sf : list (list (list A))) (r : list (list Z)) (B T F b : nat)
    steps counts :
  shaped sf B T F → counts_shaped r B T → non_negative r →
  sf !! b = Some steps → r !! b = Some counts →
  length steps = length counts ∧ Forall (λ c, 0 ≤ c) counts ∧
  Forall (λ frame, length frame = F) steps ∧ length counts = T ∧ (0 < B)%nat.
Proof.
  intros [HB Hsf] [HrB HrT] Hnn Hs Hc. unfold non_negative in Hnn.
  rewrite Forall_forall in Hsf. rewrite Forall_forall in HrT.
  rewrite Forall_forall in Hnn.
  pose proof (list_elem_of_lookup_2 _ _ _ Hs) as Hin1.
  pose proof (list_elem_of_lookup_2 _ _ _ Hc) as Hin2.
  destruct (Hsf _ Hin1) as [HT HF]. specialize (HrT _ Hin2).
  apply lookup_lt_Some in Hs. repeat split; auto; lia.
Qed.
End out_row_proofs.

(** ** Statements about [upsample_to_repetitions] *)

(** C1. For a sequence batch of shape [B, T, F] and non-negative counts aligned
    with it (on two axes or with a trailing axis of size one), which fit 64
    bits together with their row sums, the function returns an output whose row [b] has the maximum output length of the
    batch, starts with the steps of row [b] each repeated contiguously by its
    count in step order (the copies of step [t] fill the positions from the
    sum of the counts before [t] up to that sum plus the count of [t]), and is
    a zero frame at every position from the row's sum of counts on.  In
    particular, counts [2, 0, 1] over the one-feature steps [[x5], [x7], [x9]]
    give the row [[x5], [x5], [x9]] followed by zero frames. *)
Theorem upsample_row_expanded_then_padded {A : Type} (zero : A)
    (sf : list (list (list A))) (repeats : IntTensor) (r : list (list Z))
    (B T F b : nat) (steps : list (list A)) (counts : list Z) :
  shaped sf B T F → counts_shaped r B T → holds_counts repeats r →
  non_negative r → fits_int64 r →
  sf !! b = Some steps → r !! b = Some counts →
  ∃ out row L,
    upsample_to_repetitions zero sf repeats = Ok out ∧
    out !! b = Some row ∧
    max_output_length r L ∧ length row = Z.to_nat L ∧
    take (Z.to_nat (sum_list_Z counts)) row = expand steps counts ∧
    (∀ (t : nat) (x : list A) (j : Z),
       steps !! t = Some x →
       sum_list_Z (take t counts) ≤ j < sum_list_Z (take (S t) counts) →
       row !! Z.to_nat j = Some x) ∧
    (∀ j : nat,
       (Z.to_nat (sum_list_Z counts) ≤ j < length row)%nat →
       row !! j = Some (replicate F zero)) ∧
    (∀ x5 x7 x9 : A,
       steps = [[x5]; [x7]; [x9]] → counts = [2; 0; 1] →
       row = [[x5]; [x5]; [x9]] ++ replicate (Z.to_nat L - 3) [zero]).
Proof.
  intros Hsf Hr Hholds Hnn _ Hs Hc.
  destruct (aligned_row sf r B T F b steps counts) as (Hlen & Hcnn & HF & HT & HposB);
    try done.
  destruct (max_output_length_exists r) as [L HL].
  { intros ->. done. }
  pose proof (max_output_length_bound r L b counts HL Hc) as Hle.
  pose proof (sum_list_Z_nonneg _ Hcnn) as Hsum.
  exists (zip_with (out_row (replicate F zero) (Z.to_nat L)) sf r),
         (out_row (replicate F zero) (Z.to_nat L) steps counts), L.
  split; [by apply (upsample_to_repetitions_Ok zero sf repeats r B T F L)|].
  split; [apply lookup_zip_with_Some; eauto|].
  split; [done|].
  split; [apply length_out_row; (done || lia)|].
  split; [by apply take_out_row|].
  split; [|split].
  - intros t x j Ht Hj. unfold out_row.
    assert (sum_list_Z (take (S t) counts) ≤ sum_list_Z counts) as Hpre.
    { rewrite <-(take_drop (S t) counts) at 2. rewrite sum_list_Z_app.
      pose proof (sum_list_Z_nonneg (drop (S t) counts) (Forall_drop _ _ _ Hcnn)). lia. }
    pose proof (sum_list_Z_nonneg (take t counts) (Forall_take _ _ _ Hcnn)).
    rewrite lookup_app_l by (rewrite length_expand by done; lia).
    by apply (expand_lookup steps counts t).
  - intros j Hj. rewrite length_out_row in Hj by (done || lia). unfold out_row.
    rewrite lookup_app_r by (rewrite length_expand by done; lia).
    apply lookup_replicate_2. rewrite length_expand by done. lia.
  - intros x5 x7 x9 -> ->. unfold out_row.
    apply Forall_cons in HF as [HF _]. cbn in HF. subst F. reflexivity.
Qed.

Lemma upsample_row_expanded_then_padded_witness :
  ∃ out row L,
    upsample_to_repetitions 0 [[[5]; [7]; [9]]; [[1]; [2]; [3]]]
        (Axes3 1 [[[2]; [0]; [1]]; [[1]; [2]; [2]]]) = Ok out ∧
    out !! 0%nat = Some row ∧
    max_output_length [[2; 0; 1]; [1; 2; 2]] L ∧ length row = Z.to_nat L ∧
    take (Z.to_nat (sum_list_Z [2; 0; 1])) row = expand [[5]; [7]; [9]] [2; 0; 1] ∧
    (∀ (t : nat) (x : list Z) (j : Z),
       [[5]; [7]; [9]] !! t = Some x →
       sum_list_Z (take t [2; 0; 1]) ≤ j < sum_list_Z (take (S t) [2; 0; 1]) →
       row !! Z.to_nat j = Some x) ∧
    (∀ j : nat,
       (Z.to_nat (sum_list_Z [2; 0; 1]%Z) ≤ j < length row)%nat →
       row !! j = Some (replicate 1 0)) ∧
    (∀ x5 x7 x9 : Z,
       [[5]; [7]; [9]] = [[x5]; [x7]; [x9]] → [2; 0; 1] = [2; 0; 1] →
       row = [[x5]; [x5]; [x9]] ++ replicate (Z.to_nat L - 3) [0]).
Proof.
  apply (upsample_row_expanded_then_padded 0
           [[[5]; [7]; [9]]; [[1]; [2]; [3]]]
           (Axes3 1 [[[2]; [0]; [1]]; [[1]; [2]; [2]]])
           [[2; 0; 1]; [1; 2; 2]] 2 3 1 0).
  - split; [reflexivity|]. repeat constructor.
  - split; [reflexivity|]. repeat constructor.
  - right. reflexivity.
  - repeat constructor; lia.
  - repeat (constructor; cbn); lia.
  - reflexivity.
  - reflexivity.
Defined.

(** C2. On a valid input (a non-empty batch of shape [B, T, F] and
    non-negative counts aligned with it, which fit 64 bits together with
    their row sums) the output has shape
    [B, L, F], where [L] is the maximum over the batch rows of the row sums of
    the counts, and a row whose sum is below [L] ends in zero frames from its
    sum up to [L]. *)
Theorem upsample_output_shape {A : Type} (zero : A)
    (sf : list (list (list A))) (repeats : IntTensor) (r : list (list Z))
    (B T F : nat) :
  shaped sf B T F → counts_shaped r B T → holds_counts repeats r →
  (0 < B)%nat → non_negative r → fits_int64 r →
  ∃ out L,
    upsample_to_repetitions zero sf repeats = Ok out ∧
    max_output_length r L ∧
    shaped out B (Z.to_nat L) F ∧
    (∀ (b : nat) (counts : list Z) (row : list (list A)),
       r !! b = Some counts → out !! b = Some row → sum_list_Z counts < L →
       drop (Z.to_nat (sum_list_Z counts)) row
       = replicate (Z.to_nat (L - sum_list_Z counts)) (replicate F zero)).
Proof.
  intros Hsf Hr Hholds HposB Hnn _.
  destruct (max_output_length_exists r) as [L HL].
  { destruct Hr as [HrB _]. intros ->. cbn in HrB. lia. }
  exists (zip_with (out_row (replicate F zero) (Z.to_nat L)) sf r), L.
  split; [by apply (upsample_to_repetitions_Ok zero sf repeats r B T F L)|].
  split; [done|].
  assert (∀ b steps counts, sf !! b = Some steps → r !! b = Some counts →
            length steps = length counts ∧ Forall (λ c, 0 ≤ c) counts ∧
            Forall (λ frame, length frame = F) steps ∧
            0 ≤ sum_list_Z counts ≤ L) as Hrow.
  { intros b steps counts Hs Hc.
    destruct (aligned_row sf r B T F b steps counts) as (Hlen & Hcnn & HF & _); try done.
    pose proof (max_output_length_bound r L b counts HL Hc).
    pose proof (sum_list_Z_nonneg _ Hcnn). done. }
  split; [split|].
  - rewrite length_zip_with. destruct Hsf as [-> _], Hr as [-> _]. lia.
  - apply Forall_forall. intros row [b Hb]%list_elem_of_lookup_1.
    apply lookup_zip_with_Some in Hb as (steps & counts & -> & Hs & Hc).
    destruct (Hrow b steps counts Hs Hc) as (Hlen & Hcnn & HF & Hle).
    split; [apply length_out_row; (done || lia)|].
    apply out_row_frames; [done|apply length_replicate].
  - intros b counts row Hc Hb Hlt.
    apply lookup_zip_with_Some in Hb as (steps & counts' & -> & Hs & Hc').
    assert (counts' = counts) as -> by congruence.
    destruct (Hrow b steps counts Hs Hc) as (Hlen & Hcnn & HF & Hle).
    rewrite drop_out_row by done. f_equal. lia.
Qed.

Lemma upsample_output_shape_witness :
  ∃ out L,
    upsample_to_repetitions 0 [[[5]; [7]; [9]]; [[1]; [2]; [3]]]
        (Axes2 [[2; 0; 1]; [1; 2; 2]]) = Ok out ∧
    max_output_length [[2; 0; 1]; [1; 2; 2]] L ∧
    shaped out 2 (Z.to_nat L) 1 ∧
    (∀ (b : nat) (counts : list Z) (row : list (list Z)),
       [[2; 0; 1]; [1; 2; 2]] !! b = Some counts → out !! b = Some row →
       sum_list_Z counts < L →
       drop (Z.to_nat (sum_list_Z counts)) row
       = replicate (Z.to_nat (L - sum_list_Z counts)) (replicate 1 0)).
Proof.
  apply (upsample_output_shape 0 [[[5]; [7]; [9]]; [[1]; [2]; [3]]]
           (Axes2 [[2; 0; 1]; [1; 2; 2]]) [[2; 0; 1]; [1; 2; 2]] 2 3 1).
  - split; [reflexivity|]. repeat constructor.
  - split; [reflexivity|]. repeat constructor.
  - left. reflexivity.
  - lia.
  - repeat constructor; lia.
  - repeat (constructor; cbn); lia.
Defined.

(** C6. In a batch of shape [B, T, F] with non-negative counts aligned with
    it, which fit 64 bits together with their row sums, where row [b] has a zero count at every step while some row [b'] has a
    positive sum of counts, the output row [b] consists of zero frames only:
    as many as the maximum output length of the batch, which is positive. *)
Theorem upsample_all_zero_counts_row {A : Type} (zero : A)
    (sf : list (list (list A))) (repeats : IntTensor) (r : list (list Z))
    (B T F b b' : nat) (counts counts' : list Z) :
  shaped sf B T F → counts_shaped r B T → holds_counts repeats r →
  non_negative r → fits_int64 r →
  r !! b = Some counts → Forall (λ c, c = 0) counts →
  r !! b' = Some counts' → 0 < sum_list_Z counts' →
  ∃ out L,
    upsample_to_repetitions zero sf repeats = Ok out ∧
    max_output_length r L ∧ 0 < L ∧
    out !! b = Some (replicate (Z.to_nat L) (replicate F zero)).
Proof.
  intros Hsf Hr Hholds Hnn _ Hc Hzero Hc' Hpos.
  assert (0 < B)%nat as HposB.
  { apply lookup_lt_Some in Hc. destruct Hr as [<- _]. lia. }
  destruct (lookup_lt_is_Some_2 sf b) as [steps Hs].
  { destruct Hsf as [-> _], Hr as [<- _]. by eapply lookup_lt_Some. }
  destruct (max_output_length_exists r) as [L HL].
  { intros ->. done. }
  pose proof (max_output_length_bound r L b' counts' HL Hc').
  exists (zip_with (out_row (replicate F zero) (Z.to_nat L)) sf r), L.
  split; [by apply (upsample_to_repetitions_Ok zero sf repeats r B T F L)|].
  split; [done|]. split; [lia|].
  apply lookup_zip_with_Some. exists steps, counts. split; [|done].
  unfold out_row. rewrite expand_zero_counts, sum_list_Z_zeros by done.
  cbn [app]. f_equal. change (Z.to_nat 0) with 0%nat. lia.
Qed.

Lemma upsample_all_zero_counts_row_witness :
  ∃ out L,
    upsample_to_repetitions 0 [[[5]; [7]]; [[1]; [2]]]
        (Axes3 1 [[[0]; [0]]; [[1]; [2]]]) = Ok out ∧
    max_output_length [[0; 0]; [1; 2]] L ∧ 0 < L ∧
    out !! 0%nat = Some (replicate (Z.to_nat L) (replicate 1 0)).
Proof.
  apply (upsample_all_zero_counts_row 0 [[[5]; [7]]; [[1]; [2]]]
           (Axes3 1 [[[0]; [0]]; [[1]; [2]]]) [[0; 0]; [1; 2]] 2 2 1 0 1 [0; 0] [1; 2]).
  - split; [reflexivity|]. repeat constructor.
  - split; [reflexivity|]. repeat constructor.
  - right. reflexivity.
  - repeat constructor; lia.
  - repeat (constructor; cbn); lia.
  - reflexivity.
  - repeat constructor.
  - reflexivity.
  - reflexivity.
Defined.

(** C7. When the counts aligned with a sequence batch contain a negative
    entry (the counts and their row sums fitting 64 bits), the function
    produces no output: it ends with an exception of the numeric libraries,
    which nothing in the function catches.  The exception is torch's
    [RuntimeError] for the negative size handed to [batch_idx.repeat] when
    the maximum row sum is negative, and otherwise numpy's [ValueError] for
    the negative count handed to [np.repeat], an error about the value and
    not about a shape or a type. *)
Theorem upsample_negative_count_raises {A : Type} (zero : A)
    (sf : list (list (list A))) (repeats : IntTensor) (r : list (list Z))
    (B T F b t : nat) (counts : list Z) (c : Z) :
  shaped sf B T F → counts_shaped r B T → holds_counts repeats r →
  fits_int64 r →
  r !! b = Some counts → counts !! t = Some c → c < 0 →
  ∃ e, upsample_to_repetitions zero sf repeats = Raise e ∧
       (e = RuntimeError ∨ e = ValueError) ∧
       (∀ L, max_output_length r L →
             e = if L <? 0 then RuntimeError else ValueError).
Proof.
  intros Hsf Hr Hholds _ Hb Ht Hc.
  assert (0 < B)%nat as HposB.
  { apply lookup_lt_Some in Hb. destruct Hr as [<- _]. lia. }
  assert (¬ non_negative r) as Hneg.
  { unfold non_negative. intros Hnn. rewrite Forall_forall in Hnn.
    specialize (Hnn counts (list_elem_of_lookup_2 _ _ _ Hb)).
    rewrite Forall_forall in Hnn.
    specialize (Hnn c (list_elem_of_lookup_2 _ _ _ Ht)). lia. }
  destruct (max_output_length_exists r) as [L HL].
  { intros ->. done. }
  exists (if L <? 0 then RuntimeError else ValueError).
  split; [by apply (upsample_to_repetitions_negative zero sf repeats r B T F L)|].
  split; [destruct (L <? 0); auto|].
  intros L' [Hin' Hmax']. destruct HL as [Hin Hmax].
  by rewrite (list_max_unique _ L' L Hin' Hmax' Hin Hmax).
Qed.

Lemma upsample_negative_count_raises_witness :
  ∃ e, upsample_to_repetitions 0 [[[5]; [7]; [9]]; [[1]; [2]; [3]]]
         (Axes3 1 [[[2]; [0]; [1]]; [[1]; [-1]; [2]]]) = Raise e ∧
       (e = RuntimeError ∨ e = ValueError) ∧
       (∀ L, max_output_length [[2; 0; 1]; [1; -1; 2]] L →
             e = if L <? 0 then RuntimeError else ValueError).
Proof.
  apply (upsample_negative_count_raises 0 [[[5]; [7]; [9]]; [[1]; [2]; [3]]]
           (Axes3 1 [[[2]; [0]; [1]]; [[1]; [-1]; [2]]])
           [[2; 0; 1]; [1; -1; 2]] 2 3 1 1 1 [1; -1; 2] (-1)).
  - split; [reflexivity|]. repeat constructor.
  - split; [reflexivity|]. repeat constructor.
  - right. reflexivity.
  - repeat (constructor; cbn); lia.
  - reflexivity.
  - reflexivity.
  - lia.
Defined.

(** C7, counterexample.  The failure on a negative count is no shape or type
    error.  The counts [[1, -1, 2]] have one integer per step of the three
    steps, the shape and the type of the counts [[1, 1, 2]], on which the
    function returns; what the call raises is the [ValueError] of
    [np.repeat] for the value of the count, not a [TypeError], and the shape
    checks of the function (the reshape, the broadcast of [np.repeat] and
    that of the slice assignment) all pass before it. *)
Lemma upsample_negative_count_is_value_error :
  shaped [[[5]; [7]; [9]]] 1 3 1 ∧
  counts_shaped [[1; -1; 2]] 1 3 ∧ counts_shaped [[1; 1; 2]] 1 3 ∧
  upsample_to_repetitions 0 [[[5]; [7]; [9]]] (Axes2 [[1; 1; 2]])
  = Ok [[[5]; [7]; [9]; [9]]] ∧
  upsample_to_repetitions 0 [[[5]; [7]; [9]]] (Axes2 [[1; -1; 2]])
  = Raise ValueError ∧
  reshape_rows 1 (elements (Axes2 [[1; -1; 2]])) = Ok [[1; -1; 2]] ∧
  length [1; -1; 2] = length (arange 3) ∧
  np_repeat (arange 3) [1; -1; 2] = Raise ValueError ∧
  np_repeat (arange 3) [1; 1; 2] = Ok [0; 1; 2; 2].
Proof.
  split; [split; [reflexivity|repeat constructor]|].
  split; [split; [reflexivity|repeat constructor]|].
  split; [split; [reflexivity|repeat constructor]|].
  repeat split; reflexivity.
Qed.

(** ** Permuting the batch *)

Lemma permute_seq_app {X} (done_rows l : list X) :
  omap (λ i, (done_rows ++ l) !! i) (seq (length done_rows) (length l)) = l.
Proof.
  revert done_rows. induction l as [|x l IH]; intros done_rows; [done|].
  cbn [length seq omap list_omap]. rewrite list_lookup_middle by done.
  f_equal. specialize (IH (done_rows ++ [x])).
  rewrite length_app, Nat.add_1_r, <-(assoc_L (++)) in IH. exact IH.
Qed.

Lemma permute_seq {X} (l : list X) : permute (seq 0 (length l)) l = l.
Proof. apply (permute_seq_app [] l). Qed.

Lemma permute_Permutation {X} (p : list nat) (l : list X) :
  p ≡ₚ seq 0 (length l) → permute p l ≡ₚ l.
Proof.
  intros Hp. rewrite <-(permute_seq l) at 2. unfold permute. by apply omap_Permutation.
Qed.

Lemma permute_fmap {X Y} (f : X → Y) (p : list nat) (l : list X) :
  permute p (f <$> l) = f <$> permute p l.
Proof.
  unfold permute. induction p as [|i p IH]; [done|].
  cbn [omap list_omap]. rewrite list_lookup_fmap.
  destruct (l !! i); cbn; by rewrite IH.
Qed.

Lemma permute_zip_with {X Y W} (f : X → Y → W) (p : list nat) (l : list X) (k : list Y) :
  length l = length k →
  permute p (zip_with f l k) = zip_with f (permute p l) (permute p k).
Proof.
  intros Hlen. unfold permute. induction p as [|i p IH]; [done|].
  cbn [omap list_omap]. rewrite lookup_zip_with.
  destruct (l !! i) as [x|] eqn:Hl; destruct (k !! i) as [y|] eqn:Hk; cbn.
  - by rewrite IH.
  - apply lookup_lt_Some in Hl. apply lookup_ge_None in Hk. lia.
  - apply lookup_lt_Some in Hk. apply lookup_ge_None in Hl. lia.
  - done.
Qed.

Lemma Forall_Permutation_1 {X} (P : X → Prop) (l k : list X) :
  l ≡ₚ k → Forall P k → Forall P l.
Proof.
  intros Hperm. rewrite !Forall_forall. intros H x Hx. apply H. by rewrite <-Hperm.
Qed.

Lemma permute_holds_counts (p : list nat) repeats r :
  holds_counts repeats r → holds_counts (permute_rows p repeats) (permute p r).
Proof.
  intros [->| ->]; [by left|right]. cbn. f_equal. unfold boxed. apply permute_fmap.
Qed.

Lemma permute_max_output_length (p : list nat) (r : list (list Z)) (L : Z) :
  p ≡ₚ seq 0 (length r) → max_output_length r L → max_output_length (permute p r) L.
Proof.
  intros Hp [Hin Hmax]. pose proof (permute_Permutation p r Hp) as Hperm.
  split.
  - by rewrite Hperm.
  - eapply Forall_Permutation_1; [|exact Hmax]. by rewrite Hperm.
Qed.

(** C5. The function commutes with every permutation of the batch rows:
    upsampling the permuted sequence batch with the permuted counts gives the
    rows of the original output in the permuted order, and an input that
    makes the function raise makes it raise the same exception after the
    permutation. *)
Theorem upsample_batch_permutation {A : Type} (zero : A)
    (sf : list (list (list A))) (repeats : IntTensor) (r : list (list Z))
    (B T F : nat) (p : list nat) :
  shaped sf B T F → counts_shaped r B T → holds_counts repeats r →
  p ≡ₚ seq 0 B →
  upsample_to_repetitions zero (permute p sf) (permute_rows p repeats)
  = permute p <$> upsample_to_repetitions zero sf repeats.
Proof.
  intros Hsf Hr Hholds Hp.
  assert (permute p sf ≡ₚ sf) as Hpsf.
  { apply permute_Permutation. by destruct Hsf as [-> _]. }
  assert (permute p r ≡ₚ r) as Hpr.
  { apply permute_Permutation. by destruct Hr as [-> _]. }
  assert (shaped (permute p sf) B T F) as Hsf'.
  { destruct Hsf as [HB HF]. split; [by rewrite Hpsf|].
    by eapply Forall_Permutation_1. }
  assert (counts_shaped (permute p r) B T) as Hr'.
  { destruct Hr as [HB HT]. split; [by rewrite Hpr|].
    by eapply Forall_Permutation_1. }
  pose proof (permute_holds_counts p _ _ Hholds) as Hholds'.
  destruct (decide (B = 0)%nat) as [->|HB0].
  { rewrite (upsample_to_repetitions_empty_batch zero (permute p sf) _ (permute p r) T F)
      by done.
    by rewrite (upsample_to_repetitions_empty_batch zero sf _ r T F) by done. }
  assert (0 < B)%nat as HposB by lia.
  destruct (max_output_length_exists r) as [L HL].
  { destruct Hr as [HrB _]. intros ->. cbn in HrB. lia. }
  assert (max_output_length (permute p r) L) as HL'.
  { apply permute_max_output_length; [|done]. by destruct Hr as [-> _]. }
  destruct (decide (non_negative r)) as [Hnn|Hneg].
  - rewrite (upsample_to_repetitions_Ok zero (permute p sf) _ (permute p r) B T F L);
      try done.
    + rewrite (upsample_to_repetitions_Ok zero sf _ r B T F L) by done.
      cbn. f_equal. symmetry. apply permute_zip_with.
      destruct Hsf as [-> _], Hr as [-> _]. done.
    + by eapply Forall_Permutation_1.
  - rewrite (upsample_to_repetitions_negative zero (permute p sf) _ (permute p r) B T F L);
      try done.
    + by rewrite (upsample_to_repetitions_negative zero sf _ r B T F L) by done.
    + intros Hnn. apply Hneg. eapply Forall_Permutation_1; [|exact Hnn]. done.
Qed.

Lemma upsample_batch_permutation_witness :
  upsample_to_repetitions 0
    (permute [1; 0]%nat [[[5]; [7]; [9]]; [[1]; [2]; [3]]])
    (permute_rows [1; 0]%nat (Axes3 1 [[[2]; [0]; [1]]; [[1]; [2]; [2]]]))
  = permute [1; 0]%nat
      <$> upsample_to_repetitions 0 [[[5]; [7]; [9]]; [[1]; [2]; [3]]]
            (Axes3 1 [[[2]; [0]; [1]]; [[1]; [2]; [2]]]).
Proof.
  apply (upsample_batch_permutation 0 [[[5]; [7]; [9]]; [[1]; [2]; [3]]]
           (Axes3 1 [[[2]; [0]; [1]]; [[1]; [2]; [2]]])
           [[2; 0; 1]; [1; 2; 2]] 2 3 1 [1; 0]%nat).
  - split; [reflexivity|]. repeat constructor.
  - split; [reflexivity|]. repeat constructor.
  - right. reflexivity.
  - apply perm_swap.
Defined.

(** ** The codec *)

Lemma fmap_ord (line : list Z) : ord <$> line = line.
Proof. apply list_fmap_id. Qed.

Lemma fill_encoded_Ok (m : nat) (strings : list (list Z)) (done_rows : list (list Z)) :
  Forall (λ line, (length line ≤ m)%nat) strings →
  fill_encoded (length done_rows) strings
    (done_rows ++ replicate (length strings) (replicate m 0))
  = Ok (done_rows ++
        ((λ line, (to_int8 <$> line) ++ replicate (m - length line) 0) <$> strings)).
Proof.
  revert done_rows. induction strings as [|line strings IH]; intros done_rows.
  - intros _. done.
  - intros [Hline Hrest]%Forall_cons. cbn [length replicate fill_encoded].
    rewrite (getitem_nat _ _ (replicate m 0)) by (by rewrite list_lookup_middle).
    cbn [mbind result_bind]. rewrite fmap_ord.
    rewrite assign_prefix_Ok; rewrite ?length_replicate, ?length_fmap, ?Nat2Z.id;
      [|lia..].
    cbn [mbind result_bind].
    rewrite insert_app_r_alt, Nat.sub_diag by done. cbn [insert list_insert].
    rewrite drop_replicate.
    specialize (IH (done_rows ++ [(to_int8 <$> line) ++ replicate (m - length line) 0])
                  Hrest).
    rewrite length_app, Nat.add_1_r, <-!(assoc_L (++)) in IH. exact IH.
Qed.

Lemma string_to_ascii_Ok (strings : list (list Z)) (max_len : Z) :
  0 ≤ max_len → Forall (λ line, Z.of_nat (length line) ≤ max_len) strings →
  string_to_ascii (Listed strings) (Some max_len)
  = Ok ((λ line, (to_int8 <$> line) ++ replicate (Z.to_nat max_len - length line) 0)
          <$> strings).
Proof.
  intros Hm Hfit. unfold string_to_ascii, np_zeros. cbn [listify mbind result_bind].
  destruct (Z.ltb_spec max_len 0) as [?|_]; [lia|].
  apply (fill_encoded_Ok (Z.to_nat max_len) strings []).
  eapply Forall_impl; [exact Hfit|]. intros line Hline. cbn in Hline. lia.
Qed.

Lemma ascii_to_string_rows (ascii : list (list Z)) :
  ascii_to_string ascii = mapM decode_row ascii.
Proof. reflexivity. Qed.

Lemma chr_Ok (c : Z) : code_point c → chr c = Ok c.
Proof.
  intros [H0 H1]. unfold chr.
  destruct (Z.leb_spec 0 c); [|lia]. destruct (Z.ltb_spec c 1114112); [done|lia].
Qed.

Lemma mapM_chr_Ok (codes : list Z) : Forall code_point codes → mapM chr codes = Ok codes.
Proof.
  intros H. apply mapM_Ok. induction H; constructor; [by apply chr_Ok|done].
Qed.

Lemma decode_row_Ok (codes : list Z) :
  Forall code_point codes → decode_row codes = Ok (filter (λ s, s ≠ 0) codes).
Proof. intros H. unfold decode_row. by rewrite mapM_chr_Ok. Qed.

(** Whatever a row decodes to holds no null character. *)
Lemma decode_row_no_null (codes out : list Z) :
  decode_row codes = Ok out → Forall (λ c, c ≠ 0) out.
Proof.
  unfold decode_row. destruct (mapM chr codes) as [chars|e]; cbn; [|done].
  intros [= <-]. apply Forall_forall. by intros c [? _]%list_elem_of_filter.
Qed.

Lemma filter_padding (k : nat) : filter (λ s, s ≠ 0) (replicate k 0) = [].
Proof.
  induction k as [|k IH]; [done|].
  change (replicate (S k) 0) with (0 :: replicate k 0).
  by rewrite filter_cons_False by (intros H; by apply H).
Qed.

(** Trailing zeros do not change what a row decodes to, exception included. *)
Lemma decode_row_padding (codes : list Z) (k : nat) :
  decode_row (codes ++ replicate k 0) = decode_row codes.
Proof.
  unfold decode_row. induction codes as [|c codes IH].
  - cbn [app]. rewrite (mapM_replicate_Ok chr k 0 0) by done.
    cbn [mbind result_bind mapM mret result_ret]. by rewrite filter_padding.
  - cbn [app mapM]. destruct (chr c) as [d|e]; cbn [mbind result_bind]; [|done].
    destruct (mapM chr (codes ++ replicate k 0)) as [chars1|e1];
      destruct (mapM chr codes) as [chars2|e2];
      cbn [mbind result_bind mret result_ret] in IH |- *; try done.
    injection IH as IH. rewrite !filter_cons. destruct (decide (d ≠ 0)); by rewrite IH.
Qed.

Lemma to_int8_ascii (c : Z) : 0 ≤ c ≤ 127 → to_int8 c = c.
Proof.
  intros H. unfold to_int8. rewrite Z.mod_small by lia. lia.
Qed.

Lemma fmap_to_int8_ascii (line : list Z) : ascii_only line → to_int8 <$> line = line.
Proof.
  unfold ascii_only. induction 1 as [|c line Hc _ IH]; [done|].
  cbn. rewrite to_int8_ascii by lia. by f_equal.
Qed.

Lemma filter_ascii_only (line : list Z) :
  ascii_only line → filter (λ s, s ≠ 0) line = line.
Proof.
  unfold ascii_only. induction 1 as [|c line Hc _ IH]; [done|].
  rewrite filter_cons_True by lia. by f_equal.
Qed.

Lemma decode_encoded_ascii (strings : list (list Z)) (m : nat) :
  Forall ascii_only strings →
  ascii_to_string
    ((λ line, (to_int8 <$> line) ++ replicate (m - length line) 0) <$> strings)
  = Ok strings.
Proof.
  intros Hascii. rewrite ascii_to_string_rows. apply mapM_Ok.
  apply Forall2_fmap_l, Forall_Forall2_diag.
  eapply Forall_impl; [exact Hascii|]. intros line Hline. unfold compose. cbn beta.
  rewrite decode_row_padding, fmap_to_int8_ascii by done.
  rewrite decode_row_Ok.
  - by rewrite filter_ascii_only.
  - eapply Forall_impl; [exact Hline|]. intros c Hc. unfold code_point. cbn in Hc. lia.
Qed.

(** Without a maximum length the width is the length of the longest string,
    and the round trip holds as well; only the empty list has no longest
    string, and there [max] raises. *)
Lemma string_to_ascii_default_width (strings : list (list Z)) :
  strings ≠ [] →
  ∃ M, 0 ≤ M ∧ Forall (λ line, Z.of_nat (length line) ≤ M) strings ∧
       string_to_ascii (Listed strings) None = string_to_ascii (Listed strings) (Some M).
Proof.
  intros Hne. destruct strings as [|line strings]; [done|].
  set (lens := (λ s : list Z, Z.of_nat (length s)) <$> strings).
  exists (foldl Z.max (Z.of_nat (length line)) lens).
  destruct (foldl_max_spec (Z.of_nat (length line)) lens) as [_ Hmax].
  split; [|split; [|done]].
  - apply Forall_cons in Hmax as [Hline _]. lia.
  - change (Z.of_nat (length line) :: lens)
      with ((λ s : list Z, Z.of_nat (length s)) <$> line :: strings) in Hmax.
    by rewrite Forall_fmap in Hmax.
Qed.

Lemma codec_round_trip_default_width (strings : list (list Z)) :
  strings ≠ [] → Forall ascii_only strings →
  string_to_ascii (Listed strings) None ≫= ascii_to_string = Ok strings.
Proof.
  intros Hne Hascii.
  destruct (string_to_ascii_default_width strings Hne) as (M & HM & Hfit & ->).
  rewrite string_to_ascii_Ok by done.
  cbn [mbind result_bind]. by apply decode_encoded_ascii.
Qed.

(** C3. Encoding a list of strings made of ASCII characters with code points
    from 1 to 127, each no longer than the chosen maximum length, and decoding
    the result gives the list of strings back. *)
Theorem codec_round_trip (strings : list (list Z)) (max_len : Z) :
  Forall ascii_only strings →
  0 ≤ max_len → Forall (λ line, Z.of_nat (length line) ≤ max_len) strings →
  string_to_ascii (Listed strings) (Some max_len) ≫= ascii_to_string = Ok strings.
Proof.
  intros Hascii Hm Hfit. rewrite string_to_ascii_Ok by done.
  cbn [mbind result_bind]. by apply decode_encoded_ascii.
Qed.

Lemma codec_round_trip_witness :
  string_to_ascii (Listed [[104; 105]; []; [109; 111; 114]]) (Some 4)
    ≫= ascii_to_string
  = Ok [[104; 105]; []; [109; 111; 114]].
Proof.
  apply (codec_round_trip [[104; 105]; []; [109; 111; 114]] 4).
  - repeat constructor; lia.
  - lia.
  - repeat constructor; cbn; lia.
Defined.

Lemma mapM_fmap_ext {X Y W} (f : Y → result W) (g g' : X → Y) (l : list X) :
  (∀ x, f (g x) = f (g' x)) → mapM f (g <$> l) = mapM f (g' <$> l).
Proof.
  intros Hext. induction l as [|x l IH]; [done|].
  cbn [fmap list_fmap mapM]. change (list_fmap X Y ?h l) with (h <$> l).
  by rewrite Hext, IH.
Qed.

Lemma decode_encoded_width (strings : list (list Z)) (m : nat) :
  ascii_to_string
    ((λ line : list Z, (to_int8 <$> line) ++ replicate (m - length line) 0) <$> strings)
  = ascii_to_string ((λ line : list Z, to_int8 <$> line) <$> strings).
Proof.
  rewrite !ascii_to_string_rows. apply mapM_fmap_ext.
  intros line. apply decode_row_padding.
Qed.

(** C4. For a list of strings (of ASCII characters or not) and two maximum
    lengths [L1 ≤ L2], the first at least the length of the longest string,
    decoding the encoding at width [L1] and decoding the encoding at width
    [L2] give the same result: the zero padding added by the larger width is
    stripped. *)
Theorem codec_width_stable (strings : list (list Z)) (L1 L2 : Z) :
  0 ≤ L1 → L1 ≤ L2 → Forall (λ line, Z.of_nat (length line) ≤ L1) strings →
  string_to_ascii (Listed strings) (Some L1) ≫= ascii_to_string
  = string_to_ascii (Listed strings) (Some L2) ≫= ascii_to_string.
Proof.
  intros H1 H12 Hfit.
  rewrite (string_to_ascii_Ok strings L1) by done.
  rewrite (string_to_ascii_Ok strings L2).
  - cbn [mbind result_bind]. by rewrite !decode_encoded_width.
  - lia.
  - eapply Forall_impl; [exact Hfit|]. intros line Hline. cbn in Hline. lia.
Qed.

Lemma codec_width_stable_witness :
  string_to_ascii (Listed [[104; 105]; []; [109; 111; 114]]) (Some 3)
    ≫= ascii_to_string
  = string_to_ascii (Listed [[104; 105]; []; [109; 111; 114]]) (Some 7)
    ≫= ascii_to_string.
Proof.
  apply (codec_width_stable [[104; 105]; []; [109; 111; 114]] 3 7).
  - lia.
  - lia.
  - repeat constructor; cbn; lia.
Defined.

Lemma ascii_to_string_no_null (ascii out : list (list Z)) :
  ascii_to_string ascii = Ok out → Forall (Forall (λ c, c ≠ 0)) out.
Proof.
  rewrite ascii_to_string_rows. intros H%mapM_Ok_inv.
  induction H as [|codes line ascii out Hrow _ IH]; constructor; [|done].
  by eapply decode_row_no_null.
Qed.

(** C9. [ascii_to_string] drops every zero code of a row, wherever it stands:
    a row of code points decodes to its non-zero codes in order.  Hence a
    list of strings one of which holds the null character never comes back
    from encoding and decoding, at any maximum length. *)
Theorem ascii_to_string_deletes_null :
  (∀ ascii : list (list Z),
     Forall (Forall code_point) ascii →
     ascii_to_string ascii = Ok (filter (λ c, c ≠ 0) <$> ascii)) ∧
  (∀ (strings : list (list Z)) (max_len : option Z) (line : list Z),
     line ∈ strings → 0 ∈ line →
     string_to_ascii (Listed strings) max_len ≫= ascii_to_string ≠ Ok strings).
Proof.
  split.
  - intros ascii Hcodes. rewrite ascii_to_string_rows. apply mapM_Ok.
    apply Forall2_fmap_r, Forall_Forall2_diag.
    eapply Forall_impl; [exact Hcodes|]. intros codes Hc. by apply decode_row_Ok.
  - intros strings max_len line Hline Hnull Hback.
    destruct (string_to_ascii (Listed strings) max_len) as [encoded|e]; [|done].
    cbn [mbind result_bind] in Hback.
    apply ascii_to_string_no_null in Hback.
    rewrite Forall_forall in Hback. specialize (Hback line Hline).
    rewrite Forall_forall in Hback. by apply (Hback 0).
Qed.

Lemma ascii_to_string_deletes_null_witness :
  ascii_to_string [[97; 0; 98; 0; 0]; [0; 99]] = Ok [[97; 98]; [99]] ∧
  string_to_ascii (Listed [[97; 0; 98]]) (Some 5) ≫= ascii_to_string
    ≠ Ok [[97; 0; 98]].
Proof.
  split.
  - apply (proj1 ascii_to_string_deletes_null [[97; 0; 98; 0; 0]; [0; 99]]).
    repeat constructor; unfold code_point; lia.
  - apply (proj2 ascii_to_string_deletes_null [[97; 0; 98]] (Some 5) [97; 0; 98]).
    + left.
    + right; left.
Defined.

(** ** The exponential moving average *)

Import ExponentialMovingAverage.

Lemma length_zip_with_same {X Y W} (f : X → Y → W) (l : list X) (k : list Y) :
  length l = length k → length (zip_with f l k) = length l.
Proof. intros H. rewrite length_zip_with. lia. Qed.

(** The in-place form of the update, element by element. *)
Lemma in_place_update (d : Q) (s x : list Q) :
  length x = length s →
  zip_with Qminus s (tensor_scale (1 - d)%Q (zip_with Qminus s x))
  = zip_with (λ a b, a - (1 - d) * (a - b))%Q s x.
Proof.
  revert x. induction s as [|a s IH]; intros [|b x]; cbn; try done.
  intros [= Hlen]. f_equal. by apply IH.
Qed.

Lemma in_place_update_is_average (d : Q) (s x : list Q) :
  Forall2 Qeq (zip_with (λ a b, a - (1 - d) * (a - b))%Q s x)
              (zip_with (λ a b, d * a + (1 - d) * b)%Q s x).
Proof.
  revert x. induction s as [|a s IH]; intros [|b x]; cbn; try constructor.
  - ring.
  - apply IH.
Qed.

Lemma update_param_value (self : t) (name : string) (x l : positive)
    (h : gmap positive (list Q)) :
  shadow self !! name = Some l → length (h !!! x) = length (h !!! l) →
  _update_param self name x h
  = (<[l := zip_with (λ a b, a - (1 - decay self) * (a - b))%Q (h !!! l) (h !!! x)]> h,
     Ok ()).
Proof.
  intros Hname Hlen. unfold _update_param. rewrite Hname.
  unfold tensor_sub. rewrite <-Hlen, Nat.eqb_refl.
  unfold tensor_isub, tensor_scale.
  rewrite length_fmap, length_zip_with_same, Nat.eqb_refl by done.
  by rewrite <-in_place_update.
Qed.

(** C8. For a name registered in the shadow and a current parameter value
    [x] of the shape of the shadow value [s], one update step succeeds and
    writes, at the address of the shadow entry and nowhere else, the value
    [s - (1 - decay) * (s - x)] computed in place by the code, which is equal
    element by element to [decay * s + (1 - decay) * x] in exact arithmetic.
    This holds for every decay, those of the interval [0, 1] included. *)
Theorem update_param_is_moving_average (self : t) (name : string) (x l : positive)
    (h : gmap positive (list Q)) :
  shadow self !! name = Some l → length (h !!! x) = length (h !!! l) →
  ∃ v : list Q,
    _update_param self name x h = (<[l := v]> h, Ok ()) ∧
    v = zip_with (λ s xv, s - (1 - decay self) * (s - xv))%Q (h !!! l) (h !!! x) ∧
    Forall2 Qeq v
      (zip_with (λ s xv, decay self * s + (1 - decay self) * xv)%Q (h !!! l) (h !!! x)).
Proof.
  intros Hname Hlen. eexists. split; [by apply update_param_value|].
  split; [done|]. apply in_place_update_is_average.
Qed.

Lemma update_param_is_moving_average_witness :
  ∃ v : list Q,
    _update_param (__init__ example_model (9 # 10)%Q) "w" 2%positive example_store
    = (<[1%positive := v]> example_store, Ok ()) ∧
    v = zip_with (λ s xv, s - (1 - decay (__init__ example_model (9 # 10)%Q)) * (s - xv))%Q
          (example_store !!! 1%positive) (example_store !!! 2%positive) ∧
    Forall2 Qeq v
      (zip_with (λ s xv, decay (__init__ example_model (9 # 10)%Q) * s
                         + (1 - decay (__init__ example_model (9 # 10)%Q)) * xv)%Q
         (example_store !!! 1%positive) (example_store !!! 2%positive)).
Proof.
  apply (update_param_is_moving_average (__init__ example_model (9 # 10)%Q)
           "w" 2%positive 1%positive example_store).
  - reflexivity.
  - reflexivity.
Defined.

(** *** What [update_params] writes *)

Lemma update_param_frame (self : t) (name : string) (x l' : positive)
    (h : gmap positive (list Q)) :
  shadow self !! name ≠ Some l' →
  (_update_param self name x h).1 !! l' = h !! l'.
Proof.
  intros Hne. unfold _update_param.
  destruct (shadow self !! name) as [l|]; [|done].
  destruct (tensor_sub _ _); [|done].
  destruct (tensor_isub _ _); [|done].
  cbn. apply lookup_insert_ne. congruence.
Qed.

Lemma update_loop_frame (self : t) (params : list (string * TorchParameter))
    (l' : positive) (h : gmap positive (list Q)) :
  (∀ name, name ∈ params.*1 → shadow self !! name ≠ Some l') →
  (update_loop self params h).1 !! l' = h !! l'.
Proof.
  revert h. induction params as [|[name param] params IH]; intros h Hfree; [done|].
  cbn [update_loop].
  assert (∀ name', name' ∈ params.*1 → shadow self !! name' ≠ Some l') as Hrest.
  { intros name' Hin. apply Hfree. cbn. by right. }
  destruct (decide (is_Some (shadow self !! name))) as [_|_]; [|by apply IH].
  pose proof (update_param_frame self name (data param) l' h) as Hstep.
  destruct (_update_param self name (data param) h) as [h1 [u|e]]; cbn in Hstep |- *.
  - rewrite IH by done. apply Hstep, Hfree. cbn. left.
  - apply Hstep, Hfree. cbn. left.
Qed.

Lemma update_params_frame (self : t) (other_model : TorchModule) (l' : positive)
    (h : gmap positive (list Q)) :
  (∀ name, name ∈ param_names other_model → shadow self !! name ≠ Some l') →
  (update_params self other_model h).1 !! l' = h !! l'.
Proof.
  intros Hfree. unfold update_params.
  destruct (ident other_model =? ident (model self))%nat; [done|].
  by apply update_loop_frame.
Qed.

(** The shadow built by [__init__] maps a name to the address of the tensor
    of a trainable parameter of the model: the same tensor, not a copy. *)
Lemma shadow_fold_lookup (params : list (string * TorchParameter))
    (sh : gmap string positive) (name : string) (l : positive) :
  foldl (λ sh '(name, param),
           if requires_grad param then <[name := data param]> sh else sh) sh params
    !! name = Some l →
  sh !! name = Some l ∨
  ∃ param, (name, param) ∈ params ∧ requires_grad param = true ∧ data param = l.
Proof.
  revert sh. induction params as [|[n p] params IH]; intros sh; cbn [foldl]; [by left|].
  intros [Hsh|(param & Hin & Hgrad & Hdata)]%IH.
  - destruct (requires_grad p) eqn:Hgrad; [|by left].
    apply lookup_insert_Some in Hsh as [[-> <-]|[_ Hsh]]; [|by left].
    right. exists p. split; [left|done].
  - right. exists param. split; [by right|done].
Qed.

Lemma shadow_init_lookup (m : TorchModule) (d : Q) (name : string) (l : positive) :
  shadow (__init__ m d) !! name = Some l →
  ∃ param, (name, param) ∈ named_parameters m ∧
           requires_grad param = true ∧ data param = l.
Proof.
  cbn [__init__ shadow]. intros [Hempty|H]%shadow_fold_lookup; [|done].
  by rewrite lookup_empty in Hempty.
Qed.

Lemma storage_elem (m : TorchModule) (name : string) (param : TorchParameter) :
  (name, param) ∈ named_parameters m → data param ∈ storage m.
Proof.
  intros Hin. unfold storage. apply list_elem_of_fmap.
  exists (name, param). by split.
Qed.

(** When every parameter owns its tensor, the tensor names its parameter. *)
Lemma storage_owner (m : TorchModule) (n1 n2 : string) (p1 p2 : TorchParameter) :
  NoDup (storage m) →
  (n1, p1) ∈ named_parameters m → (n2, p2) ∈ named_parameters m →
  data p1 = data p2 → n1 = n2.
Proof.
  intros Hnd [i Hi]%list_elem_of_lookup_1 [j Hj]%list_elem_of_lookup_1 Hdata.
  assert (i = j) as ->.
  { apply (NoDup_lookup (storage m) i j (data p1)); [done|..]; unfold storage;
      rewrite list_lookup_fmap; [by rewrite Hi|rewrite Hj; cbn; by rewrite Hdata]. }
  congruence.
Qed.

(** C10, as amended.  When the parameters of [self.model] have tensors of
    their own, none of which is the tensor of a parameter of [other_model],
    [update_params(other_model)] changes only tensors held by the shadow (the
    tensors of the trainable parameters of [self.model], which the shadow
    aliases) under a name that [other_model] has too; it changes no parameter
    of [other_model]; and it leaves alone every parameter of [self.model]
    whose name is missing from the shadow or from [other_model].  The first
    two parts need neither assumption. *)
Theorem update_params_frame_separate (model other_model : TorchModule) (decay : Q)
    (h : gmap positive (list Q)) :
  NoDup (storage model) →
  Forall (λ l, l ∉ storage model) (storage other_model) →
  update_params_footprint model other_model decay h.
Proof.
  intros Hmodel Hdisjoint. rewrite Forall_forall in Hdisjoint.
  unfold update_params_footprint. cbn zeta.
  split; [intros name l; apply shadow_init_lookup|].
  split; [intros l; apply update_params_frame|].
  split.
  - intros name param Hin. apply update_params_frame.
    intros name' _ (param' & Hin' & _ & Hdata)%shadow_init_lookup.
    apply (Hdisjoint (data param)); [by eapply storage_elem|].
    rewrite <-Hdata. by eapply storage_elem.
  - intros name param Hin Habsent. apply update_params_frame.
    intros name' Hother Hshadow.
    pose proof Hshadow as (param' & Hin' & _ & Hdata)%shadow_init_lookup.
    assert (name' = name) as -> by (by eapply storage_owner).
    destruct Habsent as [Hnone|Hnot]; [congruence|done].
Qed.

Lemma update_params_frame_separate_witness :
  update_params_footprint example_model example_other (9 # 10)%Q example_store.
Proof.
  apply (update_params_frame_separate example_model example_other (9 # 10)%Q
           example_store).
  - compute_done.
  - compute_done.
Defined.

(** C10 as stated fails on shared tensors.  [example_sharing] is not
    [example_model], yet its parameter ["v"] is the weight of [example_model],
    which the update overwrites (from [1, 2] to [2, 4] at decay one half);
    and in [example_tied] the frozen ["b"], which the shadow does not hold,
    changes with the weight whose tensor it shares. *)
Lemma update_params_shared_tensor :
  ¬ update_params_footprint example_model example_sharing (1 # 2)%Q example_store ∧
  ¬ update_params_footprint example_tied example_other (1 # 2)%Q example_store.
Proof.
  split.
  - intros (_ & _ & Hother & _).
    specialize (Hother "v"%string {| data := 1%positive; requires_grad := true |}).
    cbn zeta in Hother.
    assert (("v"%string, {| data := 1%positive; requires_grad := true |})
            ∈ named_parameters example_sharing) as Hin by left.
    specialize (Hother Hin). vm_compute in Hother. discriminate Hother.
  - intros (_ & _ & _ & Hself).
    specialize (Hself "b"%string {| data := 1%positive; requires_grad := false |}).
    cbn zeta in Hself.
    assert (("b"%string, {| data := 1%positive; requires_grad := false |})
            ∈ named_parameters example_tied) as Hin by (right; left).
    specialize (Hself Hin (or_introl eq_refl)).
    vm_compute in Hself. discriminate Hself.
Qed.

(** * Further properties *)

(** ** [sequence_mask] *)

Lemma arange_S (n : nat) : arange (S n) = arange n ++ [Z.of_nat n].
Proof. unfold arange. by rewrite seq_S, fmap_app. Qed.

Lemma mask_bits (len : Z) (n : nat) :
  (λ j : Z, j <? len) <$> arange n
  = replicate (Nat.min (Z.to_nat len) n) true ++ replicate (n - Z.to_nat len) false.
Proof.
  induction n as [|n IH]; [by rewrite Nat.min_0_r|].
  rewrite arange_S, fmap_app, IH. cbn [fmap list_fmap].
  destruct (Z.ltb_spec (Z.of_nat n) len) as [Hlt|Hge].
  - replace (Nat.min (Z.to_nat len) n) with n by lia.
    replace (Nat.min (Z.to_nat len) (S n)) with (S n) by lia.
    replace (n - Z.to_nat len)%nat with 0%nat by lia.
    replace (S n - Z.to_nat len)%nat with 0%nat by lia.
    rewrite replicate_S_end. cbn [replicate]. by rewrite !app_nil_r.
  - replace (Nat.min (Z.to_nat len) (S n)) with (Nat.min (Z.to_nat len) n) by lia.
    replace (S n - Z.to_nat len)%nat with (S (n - Z.to_nat len)) by lia.
    by rewrite <-(assoc_L (++)), <-replicate_S_end.
Qed.

Lemma type_as_fits (d : int_dtype) (z : Z) :
  0 ≤ z ≤ max_value d → type_as d z = z.
Proof.
  unfold type_as, max_value.
  destruct d; cbn [signed bits]; intros Hz; rewrite Z.mod_small by lia; lia.
Qed.

(** The cast of a position never exceeds the position. *)
Lemma type_as_le (d : int_dtype) (z : Z) : 0 ≤ z → type_as d z ≤ z.
Proof.
  intros Hz. unfold type_as.
  destruct d; cbn [signed bits];
    match goal with
    | |- context [?a mod ?m] =>
        pose proof (Z.mod_le a m ltac:(lia) ltac:(lia)); lia
    end.
Qed.

Lemma lookup_arange_lt (n i : nat) : (i < n)%nat → arange n !! i = Some (Z.of_nat i).
Proof.
  intros Hi. destruct (lookup_lt_is_Some_2 (arange n) i) as [z Hz].
  { by rewrite length_arange. }
  by rewrite Hz, (lookup_arange n i z Hz).
Qed.

(** The mask entry by entry, for any width. *)
Lemma sequence_mask_entries (d : int_dtype) (seq_len : list Z) (n : Z) :
  0 ≤ n →
  sequence_mask d seq_len (Some n)
  = Ok ((λ len, (λ j : Z, [if type_as d j <? len then 1 else 0])
                  <$> arange (Z.to_nat n)) <$> seq_len).
Proof.
  intros Hn. unfold sequence_mask, torch_arange. cbn [mbind result_bind].
  destruct (Z.ltb_spec n 0) as [?|_]; [lia|]. cbn [mbind result_bind mret result_ret].
  f_equal. rewrite <-list_fmap_compose. apply list_fmap_ext. intros _ len _. cbn.
  by rewrite <-!list_fmap_compose.
Qed.

(** When the positions fit the type of [seq_len], each row is ones then
    zeros. *)
Lemma sequence_mask_rows (d : int_dtype) (seq_len : list Z) (n : Z) :
  0 ≤ n → n - 1 ≤ max_value d →
  sequence_mask d seq_len (Some n) = Ok ((λ len, mask_row len (Z.to_nat n)) <$> seq_len).
Proof.
  intros Hn Hfit. rewrite sequence_mask_entries by done. f_equal.
  apply list_fmap_ext. intros _ len _.
  transitivity ((λ m : bool, [if m then 1 else 0])
                  <$> ((λ j : Z, j <? len) <$> arange (Z.to_nat n))).
  - rewrite <-list_fmap_compose. apply list_fmap_ext. intros i j Hj. cbn.
    pose proof (lookup_lt_Some _ _ _ Hj) as Hi. rewrite length_arange in Hi.
    apply lookup_arange in Hj as ->. rewrite type_as_fits by lia. done.
  - rewrite mask_bits, fmap_app, !fmap_replicate. done.
Qed.

(** Without a maximum length the width is the largest entry. *)
Lemma sequence_mask_default (d : int_dtype) (seq_len : list Z) (M : Z) :
  M ∈ seq_len → Forall (λ len, len ≤ M) seq_len →
  sequence_mask d seq_len None
  = (if M <? 0 then Raise RuntimeError else sequence_mask d seq_len (Some M)).
Proof.
  intros Hin Hmax. unfold sequence_mask.
  rewrite (proj2 (torch_max_spec seq_len M)) by done.
  cbn [mbind result_bind]. unfold torch_arange. by destruct (M <? 0).
Qed.

Lemma lookup_mask_row (len : Z) (n j : nat) :
  (j < n)%nat →
  mask_row len n !! j = Some [if Z.of_nat j <? len then 1 else 0].
Proof.
  intros Hj. unfold mask_row.
  destruct (Z.ltb_spec (Z.of_nat j) len) as [Hlt|Hge].
  - rewrite lookup_app_l by (rewrite length_replicate; lia).
    apply lookup_replicate_2. lia.
  - rewrite lookup_app_r by (rewrite length_replicate; lia).
    apply lookup_replicate_2. rewrite length_replicate. lia.
Qed.

Lemma length_mask_row (len : Z) (n : nat) : length (mask_row len n) = n.
Proof. unfold mask_row. rewrite length_app, !length_replicate. lia. Qed.

(** X1. With a maximum length [n ≥ 0], [sequence_mask] returns a mask of
    shape [B, n, 1] whose entry at [(b, j)] is one exactly when the position
    [j], cast to the integer type of [seq_len], is below [seq_len[b]].  When
    the positions fit that type ([n - 1] is at most its largest value), row
    [b] holds a one at each of the first [min(max(seq_len[b], 0), n)]
    positions and zeros after them, so that the entry at [(b, j)] is one
    exactly when [j < seq_len[b]]. *)
Theorem sequence_mask_shape_and_entries (d : int_dtype) (seq_len : list Z) (n : Z) :
  0 ≤ n →
  ∃ mask,
    sequence_mask d seq_len (Some n) = Ok mask ∧
    shaped mask (length seq_len) (Z.to_nat n) 1 ∧
    (∀ (b j : nat) (len : Z) (row : list (list Z)),
       seq_len !! b = Some len → mask !! b = Some row → (j < Z.to_nat n)%nat →
       row !! j = Some [if type_as d (Z.of_nat j) <? len then 1 else 0]) ∧
    (n - 1 ≤ max_value d →
     (∀ (b : nat) (len : Z), seq_len !! b = Some len →
        mask !! b = Some (replicate (Nat.min (Z.to_nat len) (Z.to_nat n)) [1]
                          ++ replicate (Z.to_nat n - Z.to_nat len) [0])) ∧
     (∀ (b j : nat) (len : Z) (row : list (list Z)),
        seq_len !! b = Some len → mask !! b = Some row → (j < Z.to_nat n)%nat →
        row !! j = Some [if Z.of_nat j <? len then 1 else 0])).
Proof.
  intros Hn. eexists. split; [by apply sequence_mask_entries|].
  split; [split|split].
  - by rewrite length_fmap.
  - apply Forall_fmap, Forall_forall. intros len _. cbn. split.
    + by rewrite length_fmap, length_arange.
    + apply Forall_fmap, Forall_forall. by intros j _.
  - intros b j len row Hb Hrow Hj. rewrite list_lookup_fmap, Hb in Hrow.
    injection Hrow as <-. by rewrite list_lookup_fmap, lookup_arange_lt.
  - intros Hfit.
    pose proof (sequence_mask_rows d seq_len n Hn Hfit) as Hrows.
    rewrite sequence_mask_entries in Hrows by done. injection Hrows as ->. split.
    + intros b len Hb. by rewrite list_lookup_fmap, Hb.
    + intros b j len row Hb Hrow Hj. rewrite list_lookup_fmap, Hb in Hrow.
      injection Hrow as <-. by apply lookup_mask_row.
Qed.

Lemma sequence_mask_shape_and_entries_witness :
  ∃ mask,
    sequence_mask int8 [2; 0; 5; -1] (Some 3) = Ok mask ∧
    shaped mask (length [2; 0; 5; -1]) (Z.to_nat 3) 1 ∧
    (∀ (b j : nat) (len : Z) (row : list (list Z)),
       [2; 0; 5; -1] !! b = Some len → mask !! b = Some row → (j < Z.to_nat 3)%nat →
       row !! j = Some [if type_as int8 (Z.of_nat j) <? len then 1 else 0]) ∧
    (3 - 1 ≤ max_value int8 →
     (∀ (b : nat) (len : Z), [2; 0; 5; -1] !! b = Some len →
        mask !! b = Some (replicate (Nat.min (Z.to_nat len) (Z.to_nat 3)) [1]
                          ++ replicate (Z.to_nat 3 - Z.to_nat len) [0])) ∧
     (∀ (b j : nat) (len : Z) (row : list (list Z)),
        [2; 0; 5; -1] !! b = Some len → mask !! b = Some row → (j < Z.to_nat 3)%nat →
        row !! j = Some [if Z.of_nat j <? len then 1 else 0])).
Proof. apply (sequence_mask_shape_and_entries int8 [2; 0; 5; -1] 3). lia. Defined.

(** Beyond the range of the type the positions wrap: with lengths of eight
    bits and a width of 130, the positions 128 and 129 are cast to -128 and
    -127 and count as positions of every sequence. *)
Example sequence_mask_positions_wrap :
  ∃ mask,
    sequence_mask int8 [2] (Some 130) = Ok mask ∧
    mask = [replicate 2 [1] ++ replicate 126 [0] ++ replicate 2 [1]].
Proof. eexists. split; [|reflexivity]. vm_compute. reflexivity. Qed.

(** X2. Without a maximum length the width is the largest entry of
    [seq_len]: the call raises torch's [RuntimeError] when that entry is
    negative, and otherwise returns what the call with that width returns, a
    mask in which the row of a longest sequence holds ones only (whatever the
    integer type of [seq_len]). *)
Theorem sequence_mask_default_width (d : int_dtype) (seq_len : list Z) (M : Z) :
  M ∈ seq_len → Forall (λ len, len ≤ M) seq_len →
  sequence_mask d seq_len None
  = (if M <? 0 then Raise RuntimeError else sequence_mask d seq_len (Some M)) ∧
  (0 ≤ M →
   ∃ mask (b : nat),
     sequence_mask d seq_len None = Ok mask ∧
     seq_len !! b = Some M ∧ mask !! b = Some (replicate (Z.to_nat M) [1])).
Proof.
  intros Hin Hmax.
  pose proof (sequence_mask_default d seq_len M Hin Hmax) as Hdefault.
  split; [done|]. intros HM.
  apply list_elem_of_lookup_1 in Hin as [b Hb].
  eexists _, b. rewrite Hdefault. destruct (Z.ltb_spec M 0) as [?|_]; [lia|].
  split; [by apply sequence_mask_entries|]. split; [done|].
  rewrite list_lookup_fmap, Hb. cbn. f_equal. apply list_eq. intros i.
  rewrite list_lookup_fmap.
  destruct (decide (i < Z.to_nat M)%nat) as [Hi|Hi].
  - rewrite lookup_arange_lt, lookup_replicate_2 by done. cbn.
    pose proof (type_as_le d (Z.of_nat i) ltac:(lia)).
    by destruct (Z.ltb_spec (type_as d (Z.of_nat i)) M); [|lia].
  - rewrite (lookup_ge_None_2 (arange _)) by (rewrite length_arange; lia).
    symmetry. apply lookup_replicate_None. lia.
Qed.

Lemma sequence_mask_default_width_witness :
  sequence_mask int64 [2; 0; 5; -1] None
  = (if 5 <? 0 then Raise RuntimeError else sequence_mask int64 [2; 0; 5; -1] (Some 5)) ∧
  (0 ≤ 5 →
   ∃ mask (b : nat),
     sequence_mask int64 [2; 0; 5; -1] None = Ok mask ∧
     [2; 0; 5; -1] !! b = Some 5 ∧ mask !! b = Some (replicate (Z.to_nat 5) [1])).
Proof.
  apply (sequence_mask_default_width int64 [2; 0; 5; -1] 5).
  - right; right; left.
  - repeat constructor; lia.
Defined.

(** An empty [seq_len] without a maximum length has no largest entry, and a
    negative maximum length is no bound for [torch.arange]. *)
Lemma sequence_mask_raises (d : int_dtype) (seq_len : list Z) (n : Z) :
  sequence_mask d [] None = Raise RuntimeError ∧
  (n < 0 → sequence_mask d seq_len (Some n) = Raise RuntimeError).
Proof.
  split; [done|]. intros Hn. unfold sequence_mask, torch_arange.
  cbn [mbind result_bind]. by destruct (Z.ltb_spec n 0); [|lia].
Qed.

Lemma elem_of_expand {X} (steps : list X) (counts : list Z) (x : X) :
  x ∈ expand steps counts → x ∈ steps.
Proof.
  revert counts. induction steps as [|y steps IH]; intros [|c counts]; cbn [expand];
    try (by intros ?%elem_of_nil).
  intros [Hx|Hx]%elem_of_app.
  - apply elem_of_replicate in Hx as [-> _]. left.
  - right. by eapply IH.
Qed.

Lemma mask_row_zero (len : Z) (n j : nat) :
  mask_row len n !! j = Some [0] → (Z.to_nat len ≤ j < n)%nat.
Proof.
  intros Hj. pose proof (lookup_lt_Some _ _ _ Hj) as Hlt.
  rewrite length_mask_row in Hlt. split; [|done].
  rewrite (lookup_mask_row len n j Hlt) in Hj.
  destruct (Z.ltb_spec (Z.of_nat j) len); [done|lia].
Qed.

Lemma mask_row_one (len : Z) (n j : nat) :
  mask_row len n !! j = Some [1] → (j < Z.to_nat len)%nat ∧ (j < n)%nat.
Proof.
  intros Hj. pose proof (lookup_lt_Some _ _ _ Hj) as Hlt.
  rewrite length_mask_row in Hlt. split; [|done].
  rewrite (lookup_mask_row len n j Hlt) in Hj.
  destruct (Z.ltb_spec (Z.of_nat j) len); [lia|done].
Qed.

(** X3. The mask built by [sequence_mask] from the row sums of the counts
    (a tensor of 64-bit integers) fits the output of
    [upsample_to_repetitions] on these counts, when the counts and their row
    sums fit 64 bits: both have one row per batch item and the same number of
    positions per row, the output holds a zero frame wherever the mask holds
    a zero, and a step of the same batch item wherever the mask holds a
    one. *)
Theorem sequence_mask_marks_upsampled_padding {A : Type} (zero : A)
    (sf : list (list (list A))) (repeats : IntTensor) (r : list (list Z))
    (B T F : nat) :
  shaped sf B T F → counts_shaped r B T → holds_counts repeats r →
  (0 < B)%nat → non_negative r → fits_int64 r →
  ∃ out mask,
    upsample_to_repetitions zero sf repeats = Ok out ∧
    sequence_mask int64 (sum_list_Z <$> r) None = Ok mask ∧
    length mask = length out ∧
    (∀ (b : nat) (steps row : list (list A)) (mrow : list (list Z)),
       sf !! b = Some steps → out !! b = Some row → mask !! b = Some mrow →
       length mrow = length row ∧
       (∀ j : nat, mrow !! j = Some [0] → row !! j = Some (replicate F zero)) ∧
       (∀ j : nat, mrow !! j = Some [1] → ∃ x, x ∈ steps ∧ row !! j = Some x)).
Proof.
  intros Hsf Hr Hholds HposB Hnn Hfits.
  destruct (max_output_length_exists r) as [L HL].
  { destruct Hr as [HrB _]. intros ->. cbn in HrB. lia. }
  pose proof (max_output_length_nonneg r L Hnn HL) as HL0.
  pose proof (max_output_length_fits r L Hfits HL) as HL63.
  exists (zip_with (out_row (replicate F zero) (Z.to_nat L)) sf r),
         ((λ len, mask_row len (Z.to_nat L)) <$> (sum_list_Z <$> r)).
  split; [by apply (upsample_to_repetitions_Ok zero sf repeats r B T F L)|].
  split.
  { destruct HL as [Hin Hmax].
    rewrite (sequence_mask_default int64 _ L Hin Hmax).
    destruct (Z.ltb_spec L 0) as [?|_]; [lia|]. apply sequence_mask_rows; [done|].
    unfold int64_range in HL63. unfold max_value. cbn [signed bits]. lia. }
  split.
  { rewrite !length_fmap, length_zip_with. destruct Hsf as [-> _], Hr as [-> _]. lia. }
  intros b steps row mrow Hs Hrow Hmrow.
  apply lookup_zip_with_Some in Hrow as (steps' & counts & -> & Hs' & Hc).
  assert (steps' = steps) as -> by congruence.
  rewrite !list_lookup_fmap, Hc in Hmrow. injection Hmrow as <-.
  destruct (aligned_row sf r B T F b steps counts) as (Hlen & Hcnn & HF & _); try done.
  pose proof (max_output_length_bound r L b counts HL Hc) as Hle.
  pose proof (sum_list_Z_nonneg _ Hcnn) as Hsum.
  split; [|split].
  - rewrite length_mask_row, length_out_row; (done || lia).
  - intros j [Hj1 Hj2]%mask_row_zero. unfold out_row.
    rewrite lookup_app_r by (rewrite length_expand by done; lia).
    apply lookup_replicate_2. rewrite length_expand by done. lia.
  - intros j [Hj1 Hj2]%mask_row_one. unfold out_row.
    destruct (lookup_lt_is_Some_2 (expand steps counts) j) as [x Hx].
    { rewrite length_expand by done. lia. }
    exists x. split.
    + eapply elem_of_expand, list_elem_of_lookup_2, Hx.
    + by rewrite lookup_app_l by (by eapply lookup_lt_Some).
Qed.

Lemma sequence_mask_marks_upsampled_padding_witness :
  ∃ out mask,
    upsample_to_repetitions 0 [[[5]; [7]; [9]]; [[1]; [2]; [3]]]
        (Axes2 [[2; 0; 1]; [1; 2; 2]]) = Ok out ∧
    sequence_mask int64 (sum_list_Z <$> [[2; 0; 1]; [1; 2; 2]]) None = Ok mask ∧
    length mask = length out ∧
    (∀ (b : nat) (steps row : list (list Z)) (mrow : list (list Z)),
       [[[5]; [7]; [9]]; [[1]; [2]; [3]]] !! b = Some steps →
       out !! b = Some row → mask !! b = Some mrow →
       length mrow = length row ∧
       (∀ j : nat, mrow !! j = Some [0] → row !! j = Some (replicate 1 0)) ∧
       (∀ j : nat, mrow !! j = Some [1] → ∃ x, x ∈ steps ∧ row !! j = Some x)).
Proof.
  apply (sequence_mask_marks_upsampled_padding 0 [[[5]; [7]; [9]]; [[1]; [2]; [3]]]
           (Axes2 [[2; 0; 1]; [1; 2; 2]]) [[2; 0; 1]; [1; 2; 2]] 2 3 1).
  - split; [reflexivity|]. repeat constructor.
  - split; [reflexivity|]. repeat constructor.
  - left. reflexivity.
  - lia.
  - repeat constructor; lia.
  - repeat (constructor; cbn); lia.
Defined.

(** ** [both_voiced_mask] *)

Lemma torch_stack_Ok {Y} (tensors : list (Tensor Y)) (s : list nat) :
  tensors ≠ [] → Forall (λ t, shape t = s) tensors →
  torch_stack tensors = Ok (s, values <$> tensors).
Proof.
  intros Hne Hs. destruct tensors as [|t rest]; [done|].
  apply Forall_cons in Hs as [Ht Hrest]. unfold torch_stack.
  rewrite (proj2 (forallb_forall _ rest)); [by rewrite Ht|].
  intros u Hu%list_elem_of_In. apply bool_decide_eq_true_2.
  rewrite Forall_forall in Hrest. by rewrite Ht, (Hrest u Hu).
Qed.

Lemma torch_stack_mismatch {Y} (tensors : list (Tensor Y)) (t u : Tensor Y) :
  t ∈ tensors → u ∈ tensors → shape t ≠ shape u →
  torch_stack tensors = Raise RuntimeError.
Proof.
  intros Ht Hu Hne. destruct tensors as [|t0 rest]; [done|]. unfold torch_stack.
  destruct (forallb _ rest) eqn:Hall; [|done]. exfalso.
  rewrite forallb_forall in Hall.
  assert (∀ v, v ∈ t0 :: rest → shape v = shape t0) as Hsame.
  { intros v [->|Hv]%elem_of_cons; [done|].
    by apply (bool_decide_eq_true_1 _ (Hall v (proj1 (list_elem_of_In _ _) Hv))). }
  apply Hne. by rewrite (Hsame t Ht), (Hsame u Hu).
Qed.

Section voiced_proofs.
Context {X : Type}.
Variable eq_zero : X → bool.

Lemma is_voiced_product (features : list (Tensor X)) (n i : nat) :
  Forall (λ t, length (values t) = n) features → (i < n)%nat →
  foldr (zip_with Z.mul) (replicate n 1) (values <$> (is_voiced eq_zero <$> features)) !! i
  = Some (if all_voiced_at eq_zero features i then 1 else 0).
Proof.
  intros Hlen Hi. induction Hlen as [|t features Ht _ IH].
  - cbn. by apply lookup_replicate_2.
  - cbn [fmap list_fmap foldr all_voiced_at forallb].
    change (list_fmap _ _ values (list_fmap _ _ (is_voiced eq_zero) features))
      with (values <$> (is_voiced eq_zero <$> features)).
    rewrite lookup_zip_with, IH. cbn [values is_voiced].
    rewrite list_lookup_fmap.
    destruct (lookup_lt_is_Some_2 (values t) i) as [x Hx]; [lia|].
    rewrite Hx. cbn. fold (all_voiced_at eq_zero features i).
    by destruct (eq_zero x), (all_voiced_at eq_zero features i).
Qed.

Lemma length_is_voiced_product (features : list (Tensor X)) (n : nat) :
  Forall (λ t, length (values t) = n) features →
  length (foldr (zip_with Z.mul) (replicate n 1)
            (values <$> (is_voiced eq_zero <$> features))) = n.
Proof.
  induction 1 as [|t features Ht _ IH]; cbn; [by rewrite length_replicate|].
  rewrite length_zip_with, length_fmap, Ht.
  change (list_fmap _ _ values (list_fmap _ _ (is_voiced eq_zero) features))
    with (values <$> (is_voiced eq_zero <$> features)) in *. lia.
Qed.

(** X4. On one or more well-formed features of one shape, [both_voiced_mask]
    returns a mask of that shape which holds a one at the positions where
    every feature is non-zero and a zero at all others. *)
Theorem both_voiced_mask_entries (features : list (Tensor X)) (s : list nat) :
  features ≠ [] → Forall well_formed features → Forall (λ t, shape t = s) features →
  ∃ out,
    both_voiced_mask eq_zero features = Ok out ∧
    shape out = s ∧ well_formed out ∧
    (∀ i : nat, (i < numel s)%nat →
       values out !! i = Some (if all_voiced_at eq_zero features i then 1 else 0)).
Proof.
  intros Hne Hwf Hs.
  assert (Forall (λ t, length (values t) = numel s) features) as Hlen.
  { rewrite Forall_forall in Hwf. rewrite Forall_forall in Hs.
    apply Forall_forall. intros t Ht. rewrite <-(Hs t Ht). by apply Hwf. }
  eexists. split.
  { unfold both_voiced_mask.
    rewrite (torch_stack_Ok (is_voiced eq_zero <$> features) s).
    - reflexivity.
    - by destruct features.
    - by apply Forall_fmap. }
  split; [done|]. split.
  - unfold well_formed, torch_prod_dim0. cbn [values shape fst snd].
    by apply length_is_voiced_product.
  - intros i Hi. unfold torch_prod_dim0. cbn [values shape fst snd].
    by apply is_voiced_product.
Qed.
End voiced_proofs.

Lemma both_voiced_mask_entries_witness :
  ∃ out,
    both_voiced_mask (Z.eqb 0)
      [ {| shape := [2; 2]%nat; values := [3; 0; 5; 1] |};
        {| shape := [2; 2]%nat; values := [1; 4; 0; 2] |} ] = Ok out ∧
    shape out = [2; 2]%nat ∧ well_formed out ∧
    (∀ i : nat, (i < numel [2; 2]%nat)%nat →
       values out !! i =
       Some (if all_voiced_at (Z.eqb 0)
                  [ {| shape := [2; 2]%nat; values := [3; 0; 5; 1] |};
                    {| shape := [2; 2]%nat; values := [1; 4; 0; 2] |} ] i
             then 1 else 0)).
Proof.
  apply (both_voiced_mask_entries (Z.eqb 0)
           [ {| shape := [2; 2]%nat; values := [3; 0; 5; 1] |};
             {| shape := [2; 2]%nat; values := [1; 4; 0; 2] |} ] [2; 2]%nat).
  - discriminate.
  - repeat constructor.
  - repeat constructor.
Defined.

Lemma zip_with_mul_swap (a1 a2 b : list Z) :
  zip_with Z.mul a1 (zip_with Z.mul a2 b) = zip_with Z.mul a2 (zip_with Z.mul a1 b).
Proof.
  revert a2 b. induction a1 as [|x a1 IH]; intros [|y a2] [|z b]; cbn; try done.
  f_equal; [lia|apply IH].
Qed.

Section voiced_order.
Context {X : Type}.
Variable eq_zero : X → bool.

(** The two ways the call can end, told apart by the shapes of the features. *)
Lemma both_voiced_mask_cases (features : list (Tensor X)) :
  (features = [] ∨ ∃ t u, t ∈ features ∧ u ∈ features ∧ shape t ≠ shape u) ∧
    both_voiced_mask eq_zero features = Raise RuntimeError
  ∨ (∃ s, features ≠ [] ∧ Forall (λ t, shape t = s) features ∧
          both_voiced_mask eq_zero features
          = Ok (torch_prod_dim0 (s, values <$> (is_voiced eq_zero <$> features)))).
Proof.
  destruct features as [|t rest]; [left; split; [by left|done]|].
  destruct (decide (Forall (λ u, shape u = shape t) (t :: rest))) as [Hsame|Hdiff].
  - right. exists (shape t). split; [done|]. split; [done|].
    unfold both_voiced_mask.
    rewrite (torch_stack_Ok (is_voiced eq_zero <$> t :: rest) (shape t));
      [done|done|by apply Forall_fmap].
  - left. apply not_Forall_Exists in Hdiff; [|apply _].
    apply Exists_exists in Hdiff as (u & Hu & Hne).
    assert (t ∈ t :: rest) as Ht by left.
    split; [right; by exists u, t|].
    unfold both_voiced_mask.
    rewrite (torch_stack_mismatch (is_voiced eq_zero <$> t :: rest)
               (is_voiced eq_zero u) (is_voiced eq_zero t)); [done|..].
    + by apply list_elem_of_fmap_2.
    + by apply list_elem_of_fmap_2.
    + done.
Qed.

(** X5. The order of the features does not matter to [both_voiced_mask]:
    two argument lists that are permutations of each other give the same
    mask, or raise alike. *)
Theorem both_voiced_mask_any_order (features features' : list (Tensor X)) :
  features ≡ₚ features' →
  both_voiced_mask eq_zero features = both_voiced_mask eq_zero features'.
Proof.
  intros Hperm.
  destruct (both_voiced_mask_cases features)
    as [[Hbad ->]|(s & Hne & Hs & ->)].
  - destruct (both_voiced_mask_cases features')
      as [[_ ->]|(s' & Hne' & Hs' & _)]; [done|]. exfalso.
    destruct Hbad as [->|(t & u & Ht & Hu & Hdiff)].
    + by apply Permutation_nil_l in Hperm.
    + rewrite Forall_forall in Hs'. apply Hdiff.
      rewrite (Hs' t), (Hs' u); [done|by rewrite <-Hperm..].
  - assert (Forall (λ t, shape t = s) features') as Hs'.
    { eapply Forall_Permutation_1; [|exact Hs]. done. }
    assert (features' ≠ []) as Hne'.
    { intros ->. by apply Permutation_nil_r in Hperm. }
    unfold both_voiced_mask.
    rewrite (torch_stack_Ok (is_voiced eq_zero <$> features') s);
      [|by destruct features'|by apply Forall_fmap].
    cbn [mbind result_bind mret result_ret]. f_equal.
    unfold torch_prod_dim0. cbn [fst snd]. f_equal.
    apply (foldr_permutation_proper (=)).
    + by intros b x y ->.
    + apply zip_with_mul_swap.
    + by rewrite Hperm.
Qed.

(** X6. [both_voiced_mask] raises, torch's [RuntimeError] and nothing else,
    exactly when it is given no feature or two features of different
    shapes. *)
Theorem both_voiced_mask_raises (features : list (Tensor X)) :
  (both_voiced_mask eq_zero features = Raise RuntimeError ↔
   features = [] ∨ ∃ t u, t ∈ features ∧ u ∈ features ∧ shape t ≠ shape u) ∧
  (∀ e, both_voiced_mask eq_zero features = Raise e → e = RuntimeError).
Proof.
  destruct (both_voiced_mask_cases features)
    as [[Hbad Hraise]|(s & Hne & Hs & HOk)].
  - rewrite Hraise. split; [done|]. by intros e [= <-].
  - rewrite HOk. split; [|done]. split; [done|].
    intros [->|(t & u & Ht & Hu & Hdiff)]; [done|].
    rewrite Forall_forall in Hs. exfalso. apply Hdiff. by rewrite (Hs t), (Hs u).
Qed.
End voiced_order.

Lemma both_voiced_mask_any_order_witness :
  both_voiced_mask (Z.eqb 0)
    [ {| shape := [3]%nat; values := [3; 0; 5] |};
      {| shape := [3]%nat; values := [1; 4; 0] |} ]
  = both_voiced_mask (Z.eqb 0)
      [ {| shape := [3]%nat; values := [1; 4; 0] |};
        {| shape := [3]%nat; values := [3; 0; 5] |} ].
Proof.
  apply (both_voiced_mask_any_order (Z.eqb 0)
           [ {| shape := [3]%nat; values := [3; 0; 5] |};
             {| shape := [3]%nat; values := [1; 4; 0] |} ]
           [ {| shape := [3]%nat; values := [1; 4; 0] |};
             {| shape := [3]%nat; values := [3; 0; 5] |} ]).
  apply perm_swap.
Defined.

(** ** More on [upsample_to_repetitions] *)

Lemma expand_ones {X} (steps : list X) :
  expand steps (replicate (length steps) 1) = steps.
Proof. induction steps as [|x steps IH]; [done|]. cbn. by rewrite IH. Qed.

Lemma sum_list_Z_ones (n : nat) : sum_list_Z (replicate n 1) = Z.of_nat n.
Proof. unfold sum_list_Z. induction n as [|n IH]; cbn [replicate foldr]; lia. Qed.

Lemma out_row_full {X} (padder : X) (n : nat) (steps : list X) (counts : list Z) :
  Z.of_nat n ≤ sum_list_Z counts → out_row padder n steps counts = expand steps counts.
Proof.
  intros Hn. unfold out_row.
  replace (n - Z.to_nat (sum_list_Z counts))%nat with 0%nat by lia.
  apply app_nil_r.
Qed.

Lemma zip_with_ext_r {X Y W} (f g : X → Y → W) (l : list X) (k : list Y) :
  Forall (λ y, ∀ x, f x y = g x y) k → zip_with f l k = zip_with g l k.
Proof.
  intros Hk. revert l. induction Hk as [|y k Hy _ IH]; intros [|x l]; cbn; try done.
  by rewrite Hy, IH.
Qed.

(** When every row of counts has the same sum, that sum is the maximum and
    no row is padded. *)
Lemma upsample_to_repetitions_uniform {A : Type} (zero : A)
    (sf : list (list (list A))) (repeats : IntTensor) (r : list (list Z))
    (B T F : nat) (total : Z) :
  shaped sf B T F → counts_shaped r B T → holds_counts repeats r →
  (0 < B)%nat → non_negative r → Forall (λ counts, sum_list_Z counts = total) r →
  upsample_to_repetitions zero sf repeats = Ok (zip_with expand sf r).
Proof.
  intros Hsf Hr Hholds HposB Hnn Hsum.
  assert (max_output_length r total) as HL.
  { split.
    - destruct r as [|counts r]; [destruct Hr as [HrB _]; cbn in HrB; lia|].
      apply Forall_cons in Hsum as [<- _]. left.
    - apply Forall_fmap. eapply Forall_impl; [exact Hsum|].
      intros counts Hc. unfold compose. cbn beta in Hc |- *. lia. }
  rewrite (upsample_to_repetitions_Ok zero sf repeats r B T F total) by done.
  f_equal. apply zip_with_ext_r.
  eapply Forall_impl; [exact Hsum|]. intros counts Hc steps. cbn beta in Hc.
  apply out_row_full. rewrite Hc.
  pose proof (max_output_length_nonneg r total Hnn HL). lia.
Qed.

(** X7. When all rows of counts have the same sum (the counts and that sum
    fitting 64 bits), the output has no padding: each output row is its input
    row with every step repeated by its count, and all output rows have that
    sum as their length. *)
Theorem upsample_uniform_sums_no_padding {A : Type} (zero : A)
    (sf : list (list (list A))) (repeats : IntTensor) (r : list (list Z))
    (B T F : nat) (total : Z) :
  shaped sf B T F → counts_shaped r B T → holds_counts repeats r →
  (0 < B)%nat → non_negative r → fits_int64 r →
  Forall (λ counts, sum_list_Z counts = total) r →
  ∃ out,
    upsample_to_repetitions zero sf repeats = Ok out ∧
    out = zip_with expand sf r ∧
    Forall (λ row, length row = Z.to_nat total) out.
Proof.
  intros Hsf Hr Hholds HposB Hnn _ Hsum. eexists.
  split; [by eapply upsample_to_repetitions_uniform|]. split; [done|].
  apply Forall_forall. intros row [b Hb]%list_elem_of_lookup_1.
  apply lookup_zip_with_Some in Hb as (steps & counts & -> & Hs & Hc).
  destruct (aligned_row sf r B T F b steps counts) as (Hlen & Hcnn & _); try done.
  rewrite length_expand by done. f_equal.
  rewrite Forall_forall in Hsum. apply Hsum. by eapply list_elem_of_lookup_2.
Qed.

Lemma upsample_uniform_sums_no_padding_witness :
  ∃ out,
    upsample_to_repetitions 0 [[[5]; [7]; [9]]; [[1]; [2]; [3]]]
        (Axes2 [[2; 0; 1]; [1; 1; 1]]) = Ok out ∧
    out = zip_with expand [[[5]; [7]; [9]]; [[1]; [2]; [3]]] [[2; 0; 1]; [1; 1; 1]] ∧
    Forall (λ row, length row = Z.to_nat 3) out.
Proof.
  apply (upsample_uniform_sums_no_padding 0 [[[5]; [7]; [9]]; [[1]; [2]; [3]]]
           (Axes2 [[2; 0; 1]; [1; 1; 1]]) [[2; 0; 1]; [1; 1; 1]] 2 3 1 3).
  - split; [reflexivity|]. repeat constructor.
  - split; [reflexivity|]. repeat constructor.
  - left. reflexivity.
  - lia.
  - repeat constructor; lia.
  - repeat (constructor; cbn); lia.
  - repeat constructor.
Defined.

(** X8. With a count of one at every step of a non-empty batch, the function
    returns its input. *)
Theorem upsample_ones_is_identity {A : Type} (zero : A)
    (sf : list (list (list A))) (repeats : IntTensor) (B T F : nat) :
  shaped sf B T F → (0 < B)%nat →
  holds_counts repeats (replicate B (replicate T 1)) →
  upsample_to_repetitions zero sf repeats = Ok sf.
Proof.
  intros Hsf HposB Hholds.
  rewrite (upsample_to_repetitions_uniform zero sf repeats
             (replicate B (replicate T 1)) B T F (Z.of_nat T)); try done.
  - f_equal. destruct Hsf as [<- Hsf]. clear HposB Hholds.
    induction Hsf as [|steps sf [HT _] _ IH]; [done|].
    cbn [length replicate zip_with]. rewrite IH. f_equal.
    rewrite <-HT. apply expand_ones.
  - split; [by rewrite length_replicate|].
    apply Forall_replicate. by rewrite length_replicate.
  - apply Forall_replicate, Forall_replicate. lia.
  - apply Forall_replicate, sum_list_Z_ones.
Qed.

Lemma upsample_ones_is_identity_witness :
  upsample_to_repetitions 0 [[[5; 6]; [7; 8]; [9; 0]]; [[1; 1]; [2; 2]; [3; 3]]]
    (Axes3 1 [[[1]; [1]; [1]]; [[1]; [1]; [1]]])
  = Ok [[[5; 6]; [7; 8]; [9; 0]]; [[1; 1]; [2; 2]; [3; 3]]].
Proof.
  apply (upsample_ones_is_identity 0 [[[5; 6]; [7; 8]; [9; 0]]; [[1; 1]; [2; 2]; [3; 3]]]
           (Axes3 1 [[[1]; [1]; [1]]; [[1]; [1]; [1]]]) 2 3 2).
  - split; [reflexivity|]. repeat constructor.
  - lia.
  - right. reflexivity.
Defined.

(** X9. An empty sequence batch makes the function raise torch's
    [RuntimeError], whatever the tensor of counts: either there is no row sum
    to take the maximum of, or the counts cannot be reshaped into no row. *)
Theorem upsample_empty_batch_raises {A : Type} (zero : A) (repeats : IntTensor) :
  upsample_to_repetitions zero [] repeats = Raise RuntimeError.
Proof.
  unfold upsample_to_repetitions, torch_max.
  destruct (concat (torch_sum_dim1 repeats)); [done|].
  cbn [mbind result_bind length]. unfold reshape_rows. done.
Qed.

Lemma np_repeat_mismatch {X} (a : list X) (counts : list Z) :
  length counts ≠ length a → length counts ≠ 1%nat →
  np_repeat a counts = Raise ValueError.
Proof.
  intros Hlen Hone. unfold np_repeat.
  destruct (Nat.eqb_spec (length counts) (length a)) as [?|_]; [done|].
  by destruct counts as [|c [|c' counts]].
Qed.

(** The first statements of the function when only the batch sizes agree. *)
Lemma upsample_to_repetitions_unfold_steps {A : Type} (zero : A)
    (sf : list (list (list A))) repeats r (B T T' F : nat) (L : Z) :
  shaped sf B T F → counts_shaped r B T' → holds_counts repeats r →
  (0 < B)%nat → max_output_length r L →
  upsample_to_repetitions zero sf repeats =
    (batch_idxs ← torch_repeat_cols (arange B) L;
     repeated_idxs ← np_full B L (-1);
     repeated_idxs ← fill_repeated_idxs (arange T) 0
                       ((λ counts, (counts, [sum_list_Z counts])) <$> r) repeated_idxs;
     gather ((λ item, item ++ [replicate (length (hd [] (hd [] sf))) zero]) <$> sf)
            batch_idxs repeated_idxs).
Proof.
  intros Hsf Hr Hholds HposB [Hin Hmax].
  destruct (shaped_dims _ _ _ _ Hsf HposB) as [HT _].
  unfold upsample_to_repetitions.
  rewrite (torch_sum_dim1_holds _ _ Hholds), concat_singletons.
  rewrite (proj2 (torch_max_spec _ L)) by done.
  rewrite (elements_holds _ _ Hholds).
  destruct Hsf as [HB Hsf]. rewrite HB, HT.
  rewrite (reshape_rows_concat _ _ _ Hr HposB).
  cbn [mbind result_bind]. by rewrite zip_fmap_self.
Qed.

(** X10. When the non-negative counts of a non-empty batch, which fit 64
    bits together with their row sums, have another number of steps per row
    than the sequence batch, and not exactly one, the function raises numpy's
    [ValueError]: [np.repeat] finds no count for some step. *)
Theorem upsample_step_mismatch_raises {A : Type} (zero : A)
    (sf : list (list (list A))) (repeats : IntTensor) (r : list (list Z))
    (B T T' F : nat) :
  shaped sf B T F → counts_shaped r B T' → holds_counts repeats r →
  (0 < B)%nat → non_negative r → fits_int64 r → T' ≠ T → T' ≠ 1%nat →
  upsample_to_repetitions zero sf repeats = Raise ValueError.
Proof.
  intros Hsf Hr Hholds HposB Hnn _ HT Hone.
  destruct (max_output_length_exists r) as [L HL].
  { destruct Hr as [HrB _]. intros ->. cbn in HrB. lia. }
  rewrite (upsample_to_repetitions_unfold_steps zero sf repeats r B T T' F L) by done.
  pose proof (max_output_length_nonneg r L Hnn HL) as HL0.
  unfold torch_repeat_cols, np_full.
  destruct (Z.ltb_spec L 0) as [?|_]; [lia|]. cbn [mbind result_bind].
  destruct Hr as [HrB HrT].
  destruct r as [|counts r]; [cbn in HrB; lia|].
  apply Forall_cons in HrT as [Hc _].
  cbn [fmap list_fmap fill_repeated_idxs].
  rewrite np_repeat_mismatch; [done|rewrite length_arange; lia|lia].
Qed.

Lemma upsample_step_mismatch_raises_witness :
  upsample_to_repetitions 0 [[[5]; [7]; [9]]; [[1]; [2]; [3]]]
    (Axes2 [[2; 0]; [1; 2]]) = Raise ValueError.
Proof.
  apply (upsample_step_mismatch_raises 0 [[[5]; [7]; [9]]; [[1]; [2]; [3]]]
           (Axes2 [[2; 0]; [1; 2]]) [[2; 0]; [1; 2]] 2 3 2 1).
  - split; [reflexivity|]. repeat constructor.
  - split; [reflexivity|]. repeat constructor.
  - left. reflexivity.
  - lia.
  - repeat constructor; lia.
  - repeat (constructor; cbn); lia.
  - lia.
  - lia.
Defined.

(** ** More on the codec *)

Lemma slice_stop_le (len : nat) (stop : Z) : (slice_stop len stop ≤ len)%nat.
Proof. unfold slice_stop. destruct (Z.ltb_spec stop 0); lia. Qed.

(** A slice assignment either raises [ValueError] or keeps the length of the
    row, whose elements then come from the old row or from the values. *)
Lemma assign_prefix_cases {X} (P : X → Prop) (row vals : list X) (stop : Z) :
  assign_prefix row stop vals = Raise ValueError ∨
  ∃ row', assign_prefix row stop vals = Ok row' ∧ length row' = length row ∧
          (Forall P row → Forall P vals → Forall P row').
Proof.
  unfold assign_prefix. pose proof (slice_stop_le (length row) stop) as Hk.
  destruct (Nat.eqb_spec (length vals) (slice_stop (length row) stop)) as [Hlen|_].
  - right. eexists. split; [done|]. split.
    + rewrite length_app, length_drop. lia.
    + intros Hrow Hvals. apply Forall_app. split; [done|by apply Forall_drop].
  - destruct vals as [|v [|v' vals]]; [by left| |by left].
    right. eexists. split; [done|]. split.
    + rewrite length_app, length_replicate, length_drop. lia.
    + intros Hrow [Hv _]%Forall_cons. apply Forall_app.
      split; [by apply Forall_replicate|by apply Forall_drop].
Qed.

Lemma to_int8_range (z : Z) : -128 ≤ to_int8 z ≤ 127.
Proof. unfold to_int8. pose proof (Z.mod_pos_bound (z + 128) 256). lia. Qed.

(** What the loop of [string_to_ascii] keeps: the number of rows, their
    width, and the range of a signed byte. *)
Lemma fill_encoded_invariant (n : nat) (strings : list (list Z)) (i : nat)
    (encoded encoded' : list (list Z)) :
  fill_encoded i strings encoded = Ok encoded' →
  Forall (λ row, length row = n) encoded →
  Forall (Forall (λ c, -128 ≤ c ≤ 127)) encoded →
  length encoded' = length encoded ∧
  Forall (λ row, length row = n) encoded' ∧
  Forall (Forall (λ c, -128 ≤ c ≤ 127)) encoded'.
Proof.
  revert i encoded. induction strings as [|line strings IH]; intros i encoded; cbn.
  - intros [= <-]. done.
  - unfold getitem. destruct (Z.ltb_spec (Z.of_nat i) 0) as [?|_]; [lia|].
    destruct (Z.ltb_spec (Z.of_nat i) 0) as [?|_]; [lia|]. rewrite Nat2Z.id.
    destruct (encoded !! i) as [row|] eqn:Hrow; [|done]. cbn [mbind result_bind].
    destruct (assign_prefix_cases (λ c, -128 ≤ c ≤ 127) row
                (to_int8 <$> (ord <$> line)) (Z.of_nat (length line)))
      as [->|(row' & -> & Hlen & Hrange)]; [done|].
    cbn [mbind result_bind]. intros Hfill Hwidth Hbytes.
    assert (length row = n ∧ Forall (λ c, -128 ≤ c ≤ 127) row) as [Hn Hrow_bytes].
    { rewrite Forall_forall in Hwidth. rewrite Forall_forall in Hbytes.
      pose proof (list_elem_of_lookup_2 _ _ _ Hrow). auto. }
    apply IH in Hfill as (Hcount & Hwidth' & Hbytes').
    + by rewrite length_insert in Hcount.
    + apply Forall_insert; [done|lia].
    + apply Forall_insert; [done|]. apply Hrange; [done|].
      apply Forall_fmap, Forall_forall. intros c _. apply to_int8_range.
Qed.

(** X11. Whatever [string_to_ascii] returns is a rectangular array of signed
    bytes: one row per string, all rows of one width (the maximum length when
    one is given), every entry between -128 and 127. *)
Theorem string_to_ascii_rectangular (strings : object_or_list (list Z))
    (max_len : option Z) (encoded : list (list Z)) :
  string_to_ascii strings max_len = Ok encoded →
  length encoded = length (listify strings) ∧
  (∃ width : Z, 0 ≤ width ∧ (∀ n, max_len = Some n → width = n) ∧
                Forall (λ row, length row = Z.to_nat width) encoded) ∧
  Forall (Forall (λ c, -128 ≤ c ≤ 127)) encoded.
Proof.
  unfold string_to_ascii.
  destruct (match max_len with
            | None => py_max ((λ s : list Z, Z.of_nat (length s)) <$> listify strings)
            | Some n => Ok n
            end) as [width|e] eqn:Hwidth; [|done].
  cbn [mbind result_bind]. unfold np_zeros.
  destruct (Z.ltb_spec width 0) as [?|Hpos]; [done|]. cbn [mbind result_bind].
  intros Hfill.
  apply (fill_encoded_invariant (Z.to_nat width)) in Hfill as (Hcount & Hrows & Hbytes).
  - rewrite length_replicate in Hcount. split; [done|]. split; [|done].
    exists width. split; [done|]. split; [|done].
    intros n ->. by injection Hwidth as ->.
  - apply Forall_replicate, length_replicate.
  - apply Forall_replicate, Forall_replicate. lia.
Qed.

Lemma string_to_ascii_rectangular_witness :
  length [[104; 105; 0]; [0; 0; 0]; [109; 111; 114]]
  = length (listify (Listed [[104; 105]; []; [109; 111; 114]])) ∧
  (∃ width : Z, 0 ≤ width ∧ (∀ n, @None Z = Some n → width = n) ∧
                Forall (λ row, length row = Z.to_nat width)
                       [[104; 105; 0]; [0; 0; 0]; [109; 111; 114]]) ∧
  Forall (Forall (λ c, -128 ≤ c ≤ 127)) [[104; 105; 0]; [0; 0; 0]; [109; 111; 114]].
Proof.
  apply (string_to_ascii_rectangular (Listed [[104; 105]; []; [109; 111; 114]]) None).
  reflexivity.
Defined.

(** A line that is too long for the width stops the loop with numpy's
    [ValueError], whatever happened on the lines before it. *)
Lemma fill_encoded_too_long (n : nat) (strings : list (list Z)) (i : nat)
    (encoded : list (list Z)) :
  Forall (λ row, length row = n) encoded →
  (i + length strings ≤ length encoded)%nat →
  Exists (λ line, (n < length line)%nat ∧ (2 ≤ length line)%nat) strings →
  fill_encoded i strings encoded = Raise ValueError.
Proof.
  revert i encoded. induction strings as [|line strings IH]; intros i encoded Hwidth Hi Hlong.
  - by apply Exists_nil in Hlong.
  - cbn [length] in Hi. cbn [fill_encoded].
    destruct (lookup_lt_is_Some_2 encoded i) as [row Hrow]; [lia|].
    rewrite (getitem_nat _ _ _ Hrow). cbn [mbind result_bind].
    assert (length row = n) as Hn.
    { rewrite Forall_forall in Hwidth. eapply Hwidth, list_elem_of_lookup_2, Hrow. }
    apply Exists_cons in Hlong as [[Hlong Htwo]|Hlong].
    + unfold assign_prefix. rewrite !length_fmap, Hn.
      replace (slice_stop n (Z.of_nat (length line))) with n
        by (unfold slice_stop; destruct (Z.ltb_spec (Z.of_nat (length line)) 0); lia).
      destruct (Nat.eqb_spec (length line) n) as [?|_]; [lia|].
      by destruct line as [|c [|c' line]]; cbn in Htwo; [lia..|].
    + destruct (assign_prefix_cases (λ _, True) row
                  (to_int8 <$> (ord <$> line)) (Z.of_nat (length line)))
        as [->|(row' & -> & Hlen & _)]; [done|].
      cbn [mbind result_bind]. apply IH; [|rewrite length_insert; lia|done].
      apply Forall_insert; [done|lia].
Qed.

(** X12. A string longer than the maximum length is not truncated: when some
    string of two or more characters, in a list of strings of ASCII
    characters, exceeds the maximum length, [string_to_ascii] raises numpy's
    [ValueError]. *)
Theorem string_to_ascii_too_long_raises (strings : list (list Z)) (max_len : Z)
    (line : list Z) :
  Forall (Forall (λ c, 0 ≤ c ≤ 127)) strings →
  0 ≤ max_len → line ∈ strings →
  max_len < Z.of_nat (length line) → (2 ≤ length line)%nat →
  string_to_ascii (Listed strings) (Some max_len) = Raise ValueError.
Proof.
  intros _ Hm Hin Hlong Htwo. unfold string_to_ascii, np_zeros.
  cbn [listify mbind result_bind].
  destruct (Z.ltb_spec max_len 0) as [?|_]; [lia|]. cbn [mbind result_bind].
  apply (fill_encoded_too_long (Z.to_nat max_len)).
  - apply Forall_replicate, length_replicate.
  - rewrite length_replicate. lia.
  - apply Exists_exists. exists line. split; [done|]. split; [lia|done].
Qed.

Lemma string_to_ascii_too_long_raises_witness :
  string_to_ascii (Listed [[104; 105]; [109; 111; 114]]) (Some 2) = Raise ValueError.
Proof.
  apply (string_to_ascii_too_long_raises [[104; 105]; [109; 111; 114]] 2 [109; 111; 114]).
  - repeat constructor; lia.
  - lia.
  - right; left.
  - cbn; lia.
  - cbn; lia.
Defined.

Lemma chr_cases (c : Z) :
  code_point c ∧ chr c = Ok c ∨ ¬ code_point c ∧ chr c = Raise ValueError.
Proof.
  unfold chr, code_point.
  destruct (Z.leb_spec 0 c); destruct (Z.ltb_spec c 1114112); cbn;
    [left|right..]; split; (done || lia).
Qed.

Lemma decode_row_cases (codes : list Z) :
  Forall code_point codes ∧ decode_row codes = Ok (filter (λ s, s ≠ 0) codes)
  ∨ ¬ Forall code_point codes ∧ decode_row codes = Raise ValueError.
Proof.
  destruct (decide (Forall code_point codes)) as [Hall|Hbad];
    [left; split; [done|by apply decode_row_Ok]|right; split; [done|]].
  unfold decode_row. induction codes as [|c codes IH]; [by destruct Hbad|].
  cbn [mapM]. destruct (chr_cases c) as [[Hc ->]|[Hc ->]]; [|done].
  cbn [mbind result_bind].
  destruct (mapM chr codes) as [chars|e]; cbn [mbind result_bind] in IH |- *.
  - exfalso. assert (¬ Forall code_point codes) as Hrest
      by (intros Hrest; apply Hbad; by constructor).
    by specialize (IH Hrest).
  - apply IH. intros Hrest. apply Hbad. by constructor.
Qed.

(** X13. On codes of 32 bits or fewer (signed), [ascii_to_string] raises,
    [ValueError] and nothing else, exactly when some code of some row is not
    a code point that [chr] accepts (below zero or from 0x110000 on);
    otherwise it returns one string per row. *)
Theorem ascii_to_string_raises (ascii : list (list Z)) :
  Forall (Forall (λ c, -2147483648 ≤ c ≤ 2147483647)) ascii →
  (ascii_to_string ascii = Raise ValueError ↔ ¬ Forall (Forall code_point) ascii) ∧
  (∀ e, ascii_to_string ascii = Raise e → e = ValueError) ∧
  (∀ strings, ascii_to_string ascii = Ok strings → length strings = length ascii).
Proof.
  intros _. rewrite ascii_to_string_rows.
  induction ascii as [|codes ascii (IHiff & IHerr & IHlen)].
  - split; [split; [done|intros H; by destruct H]|]. split; [done|]. by intros ? [= <-].
  - cbn [mapM].
    destruct (decode_row_cases codes) as [[Hcodes ->]|[Hcodes ->]];
      cbn [mbind result_bind].
    + destruct (mapM decode_row ascii) as [strings|e]; cbn [mbind result_bind].
      * split; [split; [done|]|split; [done|]].
        -- intros Hbad. exfalso. apply Hbad. constructor; [done|].
           destruct (decide (Forall (Forall code_point) ascii)) as [?|Hrest]; [done|].
           by apply IHiff in Hrest.
        -- intros ? [= <-]. cbn. f_equal. by apply IHlen.
      * pose proof (IHerr e eq_refl) as ->.
        split; [split|split; [by intros ? [= <-]|done]].
        -- intros _ [_ Hrest]%Forall_cons. by apply (proj1 IHiff).
        -- done.
    + split; [split; [|done]|split; [by intros ? [= <-]|done]].
      intros _ [? _]%Forall_cons. done.
Qed.

Lemma ascii_to_string_raises_witness :
  ascii_to_string [[104; 105]; [97; -3; 0]] = Raise ValueError.
Proof.
  refine (proj2 (proj1 (ascii_to_string_raises [[104; 105]; [97; -3; 0]] _)) _).
  { repeat constructor; lia. }
  intros [_ [Hrow _]%Forall_cons]%Forall_cons.
  apply Forall_cons in Hrow as [_ [Hc _]%Forall_cons].
  unfold code_point in Hc. lia.
Defined.

(** X14. The codec round trip in the other direction: an array whose rows
    are ASCII strings without null characters, each padded with zeros to the
    width [m], is what [string_to_ascii] at width [m] builds from the strings
    that [ascii_to_string] reads off it. *)
Theorem codec_round_trip_of_array (lines : list (list Z)) (m : nat) :
  Forall ascii_only lines → Forall (λ line, (length line ≤ m)%nat) lines →
  ascii_to_string ((λ line, line ++ replicate (m - length line) 0) <$> lines)
    ≫= (λ strings, string_to_ascii (Listed strings) (Some (Z.of_nat m)))
  = Ok ((λ line, line ++ replicate (m - length line) 0) <$> lines).
Proof.
  intros Hascii Hfit.
  assert ((λ line : list Z, line ++ replicate (m - length line) 0) <$> lines
          = (λ line : list Z, (to_int8 <$> line) ++ replicate (m - length line) 0)
              <$> lines) as Hrows.
  { apply Forall_fmap_ext_1. eapply Forall_impl; [exact Hascii|].
    intros line Hline. cbn beta. by rewrite fmap_to_int8_ascii. }
  rewrite Hrows, decode_encoded_ascii by done. cbn [mbind result_bind].
  rewrite string_to_ascii_Ok; [by rewrite Nat2Z.id|lia|].
  eapply Forall_impl; [exact Hfit|]. intros line Hline. cbn beta in *. lia.
Qed.

Lemma codec_round_trip_of_array_witness :
  ascii_to_string
    ((λ line, line ++ replicate (4 - length line) 0) <$> [[104; 105]; []; [109; 111; 114]])
    ≫= (λ strings, string_to_ascii (Listed strings) (Some (Z.of_nat 4)))
  = Ok ((λ line, line ++ replicate (4 - length line) 0)
          <$> [[104; 105]; []; [109; 111; 114]]).
Proof.
  apply (codec_round_trip_of_array [[104; 105]; []; [109; 111; 114]] 4).
  - repeat constructor; lia.
  - repeat constructor; cbn; lia.
Defined.

(** X15. Without a maximum length [string_to_ascii] takes the length of the
    longest string as the width: on a non-empty list of strings of ASCII
    characters it returns what the call with that width returns, each
    string's codes followed by zeros up to that width, so that a longest
    string fills its row; on the empty list the builtin [max] raises
    [ValueError]. *)
Theorem string_to_ascii_default_is_longest (strings : list (list Z)) :
  string_to_ascii (Listed []) None = Raise ValueError ∧
  (strings ≠ [] → Forall (Forall (λ c, 0 ≤ c ≤ 127)) strings →
   ∃ longest : list Z,
     longest ∈ strings ∧
     Forall (λ line, (length line ≤ length longest)%nat) strings ∧
     string_to_ascii (Listed strings) None
     = string_to_ascii (Listed strings) (Some (Z.of_nat (length longest))) ∧
     string_to_ascii (Listed strings) None
     = Ok ((λ line, line ++ replicate (length longest - length line) 0) <$> strings)).
Proof.
  split; [done|]. intros Hne Hascii.
  destruct strings as [|line strings]; [done|].
  set (lens := (λ s : list Z, Z.of_nat (length s)) <$> line :: strings).
  destruct (foldl_max_spec (Z.of_nat (length line))
              ((λ s : list Z, Z.of_nat (length s)) <$> strings)) as [Hin Hmax].
  change (Z.of_nat (length line) :: _) with lens in Hin, Hmax.
  apply list_elem_of_fmap in Hin as (longest & Hlongest & Hin).
  exists longest. split; [done|].
  assert (Forall (λ l : list Z, Z.of_nat (length l) ≤ Z.of_nat (length longest))
            (line :: strings)) as Hfit.
  { unfold lens in Hmax. rewrite Forall_fmap in Hmax. by rewrite <-Hlongest. }
  split; [eapply Forall_impl; [exact Hfit|]; intros l Hl; cbn beta in Hl; lia|].
  assert (string_to_ascii (Listed (line :: strings)) None
          = string_to_ascii (Listed (line :: strings))
              (Some (Z.of_nat (length longest)))) as Hdefault.
  { unfold string_to_ascii. cbn [listify py_max fmap list_fmap].
    change (list_fmap _ _ ?f strings) with (f <$> strings). by rewrite <-Hlongest. }
  split; [done|]. rewrite Hdefault, string_to_ascii_Ok; [|lia|done].
  rewrite Nat2Z.id. f_equal. apply list_fmap_ext.
  intros i l Hl. f_equal.
  assert (Forall (λ c, 0 ≤ c ≤ 127) l) as Hcodes.
  { rewrite Forall_forall in Hascii. eapply Hascii, list_elem_of_lookup_2, Hl. }
  clear -Hcodes. induction Hcodes as [|c l Hc _ IH]; [done|].
  cbn. rewrite to_int8_ascii by done. by f_equal.
Qed.

Lemma string_to_ascii_default_is_longest_witness :
  ∃ longest : list Z,
    longest ∈ [[104; 105]; [109; 111; 114]] ∧
    Forall (λ line, (length line ≤ length longest)%nat) [[104; 105]; [109; 111; 114]] ∧
    string_to_ascii (Listed [[104; 105]; [109; 111; 114]]) None
    = string_to_ascii (Listed [[104; 105]; [109; 111; 114]])
        (Some (Z.of_nat (length longest))) ∧
    string_to_ascii (Listed [[104; 105]; [109; 111; 114]]) None
    = Ok ((λ line, line ++ replicate (length longest - length line) 0)
            <$> [[104; 105]; [109; 111; 114]]).
Proof.
  apply (proj2 (string_to_ascii_default_is_longest [[104; 105]; [109; 111; 114]])).
  - discriminate.
  - repeat constructor; lia.
Defined.

(** ** More on the exponential moving average *)

Lemma shadow_fold_other (params : list (string * TorchParameter))
    (sh : gmap string positive) (name : string) :
  name ∉ params.*1 →
  foldl (λ sh '(name, param),
           if requires_grad param then <[name := data param]> sh else sh) sh params
    !! name = sh !! name.
Proof.
  revert sh. induction params as [|[n p] params IH]; intros sh Hname; [done|].
  cbn [foldl]. rewrite IH by (intros Hin; apply Hname; cbn; by right).
  destruct (requires_grad p); [|done].
  apply lookup_insert_ne. intros ->. apply Hname. cbn. left.
Qed.

Lemma shadow_fold_registered (params : list (string * TorchParameter))
    (sh : gmap string positive) (name : string) (param : TorchParameter) :
  NoDup params.*1 → (name, param) ∈ params →
  foldl (λ sh '(name, param),
           if requires_grad param then <[name := data param]> sh else sh) sh params
    !! name = if requires_grad param then Some (data param) else sh !! name.
Proof.
  revert sh. induction params as [|[n p] params IH]; intros sh Hnd Hin.
  - by apply elem_of_nil in Hin.
  - cbn in Hnd. apply NoDup_cons in Hnd as [Hfresh Hnd]. cbn [foldl].
    apply elem_of_cons in Hin as [[= -> ->]|Hin].
    + rewrite shadow_fold_other by done.
      destruct (requires_grad p); [by rewrite lookup_insert_eq|done].
    + rewrite IH by done. destruct (requires_grad param); [done|].
      destruct (requires_grad p); [|done].
      apply lookup_insert_ne. intros ->. apply Hfresh.
      apply list_elem_of_fmap. by exists (name, param).
Qed.

(** X16. [__init__] registers in the shadow exactly the parameters of the
    model that require gradients, each under its name and with its own
    tensor (no copy is made); a frozen parameter is not registered. *)
Theorem init_registers_trainable (m : TorchModule) (d : Q) (name : string) :
  NoDup (param_names m) →
  (∀ l, shadow (__init__ m d) !! name = Some l ↔
        ∃ param, (name, param) ∈ named_parameters m ∧
                 requires_grad param = true ∧ data param = l) ∧
  (∀ param, (name, param) ∈ named_parameters m → requires_grad param = false →
            shadow (__init__ m d) !! name = None).
Proof.
  intros Hnd. split.
  - intros l. split; [apply shadow_init_lookup|].
    intros (param & Hin & Hgrad & <-). cbn [__init__ shadow].
    rewrite (shadow_fold_registered _ _ name param) by done. by rewrite Hgrad.
  - intros param Hin Hgrad. cbn [__init__ shadow].
    rewrite (shadow_fold_registered _ _ name param) by done. by rewrite Hgrad.
Qed.

Lemma init_registers_trainable_witness :
  (∀ l, shadow (__init__ example_model (9 # 10)%Q) !! "w"%string = Some l ↔
        ∃ param, ("w"%string, param) ∈ named_parameters example_model ∧
                 requires_grad param = true ∧ data param = l) ∧
  (∀ param, ("w"%string, param) ∈ named_parameters example_model →
            requires_grad param = false →
            shadow (__init__ example_model (9 # 10)%Q) !! "w"%string = None).
Proof.
  apply (init_registers_trainable example_model (9 # 10)%Q "w"%string).
  compute_done.
Defined.

(** The loop of [update_params] when the tensors read and the tensors
    written are apart: every step succeeds and works on the values the store
    had before the loop. *)
Lemma update_loop_values (self : t) (params : list (string * TorchParameter))
    (h : gmap positive (list Q)) :
  NoDup params.*1 →
  (∀ n1 n2 l, shadow self !! n1 = Some l → shadow self !! n2 = Some l → n1 = n2) →
  (∀ n l n' p, shadow self !! n = Some l → (n', p) ∈ params → data p ≠ l) →
  (∀ n l p, shadow self !! n = Some l → (n, p) ∈ params →
            length (h !!! data p) = length (h !!! l)) →
  ∃ h', update_loop self params h = (h', Ok ()) ∧
        ∀ n l p, shadow self !! n = Some l → (n, p) ∈ params →
          h' !!! l = zip_with (λ a b, a - (1 - decay self) * (a - b))%Q
                       (h !!! l) (h !!! data p).
Proof.
  revert h. induction params as [|[n0 p0] params IH]; intros h Hnd Hinj Hapart Hshape.
  - exists h. split; [done|]. intros n l p _ Hin. by apply elem_of_nil in Hin.
  - cbn in Hnd. apply NoDup_cons in Hnd as [Hfresh Hnd]. cbn [update_loop].
    assert (∀ n l n' p, shadow self !! n = Some l → (n', p) ∈ params → data p ≠ l)
      as Hapart' by (intros n l n' p Hn Hin; eapply Hapart; [done|by right]).
    destruct (decide (is_Some (shadow self !! n0))) as [[l0 Hl0]|Hnone].
    + rewrite (update_param_value self n0 (data p0) l0 h Hl0)
        by (apply (Hshape n0); [done|left]).
      set (v0 := zip_with _ (h !!! l0) (h !!! data p0)).
      assert (∀ n l p, shadow self !! n = Some l → (n, p) ∈ params →
                <[l0:=v0]> h !!! l = h !!! l ∧ <[l0:=v0]> h !!! data p = h !!! data p)
        as Hsame.
      { intros n l p Hn Hin. split; apply lookup_total_insert_ne.
        - intros ->. apply Hfresh. rewrite (Hinj n0 n l Hl0 Hn).
          apply list_elem_of_fmap. by exists (n, p).
        - intros Heq. by apply (Hapart' n0 l0 n p Hl0 Hin). }
      destruct (IH (<[l0:=v0]> h)) as (h' & Hloop & Hvalues); try done.
      { intros n l p Hn Hin. destruct (Hsame n l p Hn Hin) as [-> ->].
        apply (Hshape n); [done|by right]. }
      exists h'. split; [done|]. intros n l p Hn [[= -> ->]|Hin]%elem_of_cons.
      * assert (l = l0) as -> by congruence.
        rewrite lookup_total_alt.
        pose proof (update_loop_frame self params l0 (<[l0:=v0]> h)) as Hframe.
        rewrite Hloop in Hframe. cbn [fst] in Hframe. rewrite Hframe.
        -- by rewrite <-lookup_total_alt, lookup_total_insert_eq.
        -- intros n' Hn' Hl'. apply Hfresh. by rewrite (Hinj n0 n' l0 Hl0 Hl').
      * rewrite (Hvalues n l p Hn Hin). by destruct (Hsame n l p Hn Hin) as [-> ->].
    + destruct (IH h) as (h' & Hloop & Hvalues); try done.
      { intros n l p Hn Hin. apply (Hshape n); [done|by right]. }
      exists h'. split; [done|]. intros n l p Hn [[= -> ->]|Hin]%elem_of_cons.
      * exfalso. apply Hnone. by exists l.
      * by apply (Hvalues n).
Qed.

(** X17. [update_params] on a separate model of the same architecture: when
    the parameters of [self.model] have tensors of their own, none of which
    is a tensor of [other_model], names are not repeated, and the parameter
    that [other_model] has under a registered name has the shape of the
    registered tensor, the call succeeds and every trainable parameter of
    [self.model] that [other_model] names too holds the moving average
    [decay * old + (1 - decay) * other], computed once from the values before
    the call. *)
Theorem update_params_moving_average (m other_model : TorchModule) (d : Q)
    (h : gmap positive (list Q)) :
  ident other_model ≠ ident m →
  NoDup (param_names m) → NoDup (param_names other_model) →
  NoDup (storage m) → Forall (λ l, l ∉ storage m) (storage other_model) →
  (∀ name pm po, (name, pm) ∈ named_parameters m →
                 (name, po) ∈ named_parameters other_model →
                 length (h !!! data po) = length (h !!! data pm)) →
  ∃ h', update_params (__init__ m d) other_model h = (h', Ok ()) ∧
        ∀ name pm po,
          (name, pm) ∈ named_parameters m → requires_grad pm = true →
          (name, po) ∈ named_parameters other_model →
          Forall2 Qeq (h' !!! data pm)
            (zip_with (λ s x, d * s + (1 - d) * x)%Q (h !!! data pm) (h !!! data po)).
Proof.
  intros Hident Hnames Hnames' Hown Hapart Hshape.
  rewrite Forall_forall in Hapart.
  destruct (update_loop_values (__init__ m d) (named_parameters other_model) h)
    as (h' & Hloop & Hvalues); try done.
  - intros n1 n2 l (p1 & Hin1 & _ & Hd1)%shadow_init_lookup
      (p2 & Hin2 & _ & Hd2)%shadow_init_lookup.
    eapply storage_owner; [done..|congruence].
  - intros n l n' p (pm & Hin & _ & Hd)%shadow_init_lookup Hin' Heq.
    apply (Hapart (data p)); [by eapply storage_elem|].
    rewrite Heq, <-Hd. by eapply storage_elem.
  - intros n l p (pm & Hin & _ & <-)%shadow_init_lookup Hin'. by eapply Hshape.
  - exists h'. split.
    + unfold update_params. cbn [__init__ model].
      destruct (Nat.eqb_spec (ident other_model) (ident m)) as [?|_]; done.
    + intros name pm po Hpm Hgrad Hpo.
      rewrite (Hvalues name (data pm) po); [apply in_place_update_is_average| |done].
      cbn [__init__ shadow].
      rewrite (shadow_fold_registered _ _ name pm) by done. by rewrite Hgrad.
Qed.

Lemma update_params_moving_average_witness :
  ∃ h', update_params (__init__ example_model (9 # 10)%Q) example_other example_store
        = (h', Ok ()) ∧
        ∀ name pm po,
          (name, pm) ∈ named_parameters example_model → requires_grad pm = true →
          (name, po) ∈ named_parameters example_other →
          Forall2 Qeq (h' !!! data pm)
            (zip_with (λ s x, (9 # 10) * s + (1 - (9 # 10)) * x)%Q
               (example_store !!! data pm) (example_store !!! data po)).
Proof.
  apply (update_params_moving_average example_model example_other (9 # 10)%Q
           example_store).
  - discriminate.
  - compute_done.
  - compute_done.
  - compute_done.
  - compute_done.
  - intros name pm po Hpm Hpo.
    cbn in Hpm, Hpo. set_unfold.
    destruct Hpm as [[= -> ->]|[[= -> ->]|[]]];
      destruct Hpo as [[= ->]|[[= ->]|[]]]; try discriminate; reflexivity.
Defined.

Lemma lookup_in_place_update (d : Q) (s x : list Q) (i : nat) (si xi : Q) :
  s !! i = Some si → x !! i = Some xi →
  zip_with (λ a b, a - (1 - d) * (a - b))%Q s x !! i
  = Some (si - (1 - d) * (si - xi))%Q.
Proof. intros Hs Hx. by rewrite lookup_zip_with, Hs, Hx. Qed.

(** X18. With a decay between 0 and 1, one update step moves every element of
    the shadow value towards the current value and never past it: the new
    element lies between the old shadow element and the current element. *)
Theorem update_param_between (self : t) (name : string) (x l : positive)
    (h : gmap positive (list Q)) :
  (0 <= decay self)%Q → (decay self <= 1)%Q →
  shadow self !! name = Some l → length (h !!! x) = length (h !!! l) →
  ∃ v : list Q,
    _update_param self name x h = (<[l := v]> h, Ok ()) ∧
    length v = length (h !!! l) ∧
    ∀ (i : nat) (si xi vi : Q),
      (h !!! l) !! i = Some si → (h !!! x) !! i = Some xi → v !! i = Some vi →
      ((si <= xi)%Q → (si <= vi)%Q ∧ (vi <= xi)%Q) ∧
      ((xi <= si)%Q → (xi <= vi)%Q ∧ (vi <= si)%Q).
Proof.
  intros Hd0 Hd1 Hname Hlen. eexists.
  split; [by apply update_param_value|]. split.
  - rewrite length_zip_with. lia.
  - intros i si xi vi Hs Hx Hv.
    rewrite (lookup_in_place_update _ _ _ i si xi Hs Hx) in Hv. injection Hv as <-.
    split; intros Hle; split; nra.
Qed.

Lemma update_param_between_witness :
  ∃ v : list Q,
    _update_param (__init__ example_model (9 # 10)%Q) "w" 2%positive example_store
    = (<[1%positive := v]> example_store, Ok ()) ∧
    length v = length (example_store !!! 1%positive) ∧
    ∀ (i : nat) (si xi vi : Q),
      (example_store !!! 1%positive) !! i = Some si →
      (example_store !!! 2%positive) !! i = Some xi → v !! i = Some vi →
      ((si <= xi)%Q → (si <= vi)%Q ∧ (vi <= xi)%Q) ∧
      ((xi <= si)%Q → (xi <= vi)%Q ∧ (vi <= si)%Q).
Proof.
  apply (update_param_between (__init__ example_model (9 # 10)%Q)
           "w" 2%positive 1%positive example_store).
  - discriminate.
  - discriminate.
  - reflexivity.
  - reflexivity.
Defined.

Lemma Forall2_Qeq_zip_with_l (f : Q → Q → Q) (s x : list Q) :
  length x = length s → (∀ a b, f a b == a)%Q → Forall2 Qeq (zip_with f s x) s.
Proof.
  intros Hlen Hf. revert x Hlen.
  induction s as [|a s IH]; intros [|b x] Hlen; cbn in Hlen |- *;
    try done; try constructor.
  - apply Hf.
  - apply IH. lia.
Qed.

Lemma Forall2_Qeq_zip_with_r (f : Q → Q → Q) (s x : list Q) :
  length x = length s → (∀ a b, f a b == b)%Q → Forall2 Qeq (zip_with f s x) x.
Proof.
  intros Hlen Hf. revert x Hlen.
  induction s as [|a s IH]; intros [|b x] Hlen; cbn in Hlen |- *;
    try done; try constructor.
  - apply Hf.
  - apply IH. lia.
Qed.

(** X19. The two ends of the decay: with a decay equal to one an update step
    leaves the shadow value as it is, and with a decay equal to zero it
    replaces the shadow value by the current value (element by element, in
    exact arithmetic). *)
Theorem update_param_decay_ends (self : t) (name : string) (x l : positive)
    (h : gmap positive (list Q)) :
  shadow self !! name = Some l → length (h !!! x) = length (h !!! l) →
  ∃ v : list Q,
    _update_param self name x h = (<[l := v]> h, Ok ()) ∧
    ((decay self == 1)%Q → Forall2 Qeq v (h !!! l)) ∧
    ((decay self == 0)%Q → Forall2 Qeq v (h !!! x)).
Proof.
  intros Hname Hlen. eexists. split; [by apply update_param_value|]. split.
  - intros Hd. apply Forall2_Qeq_zip_with_l; [done|]. intros a b. rewrite Hd. ring.
  - intros Hd. apply Forall2_Qeq_zip_with_r; [done|]. intros a b. rewrite Hd. ring.
Qed.

Lemma update_param_decay_ends_witness :
  ∃ v : list Q,
    _update_param (__init__ example_model 1%Q) "w" 2%positive example_store
    = (<[1%positive := v]> example_store, Ok ()) ∧
    ((decay (__init__ example_model 1%Q) == 1)%Q →
     Forall2 Qeq v (example_store !!! 1%positive)) ∧
    ((decay (__init__ example_model 1%Q) == 0)%Q →
     Forall2 Qeq v (example_store !!! 2%positive)).
Proof.
  apply (update_param_decay_ends (__init__ example_model 1%Q)
           "w" 2%positive 1%positive example_store).
  - reflexivity.
  - reflexivity.
Defined.

(** The assertion of [_update_param] cannot fail inside the loop, which
    tests the name first; what is left to fail is the arithmetic of torch. *)
Lemma update_param_registered_result (self : t) (name : string) (x : positive)
    (h : gmap positive (list Q)) :
  is_Some (shadow self !! name) →
  (_update_param self name x h).2 = Ok () ∨
  (_update_param self name x h).2 = Raise RuntimeError.
Proof.
  intros [l Hl]. unfold _update_param. rewrite Hl.
  assert (∀ a b, (∃ v, tensor_sub a b = Ok v) ∨ tensor_sub a b = Raise RuntimeError)
    as Hsub.
  { intros a b. unfold tensor_sub. destruct (length a =? length b)%nat; [eauto|].
    destruct a as [|? [|? ?]], b as [|? [|? ?]]; eauto. }
  assert (∀ a b, (∃ v, tensor_isub a b = Ok v) ∨ tensor_isub a b = Raise RuntimeError)
    as Hisub.
  { intros a b. unfold tensor_isub. destruct (length a =? length b)%nat; [eauto|].
    destruct b as [|? [|? ?]]; eauto. }
  destruct (Hsub (h !!! l) (h !!! x)) as [[delta ->]| ->]; [|by right].
  destruct (Hisub (h !!! l) (tensor_scale (1 - decay self) delta)) as [[v ->]| ->];
    [by left|by right].
Qed.

Lemma update_loop_result (self : t) (params : list (string * TorchParameter))
    (h : gmap positive (list Q)) :
  (update_loop self params h).2 = Ok () ∨
  (update_loop self params h).2 = Raise RuntimeError.
Proof.
  revert h. induction params as [|[name param] params IH]; intros h; [by left|].
  cbn [update_loop].
  destruct (decide (is_Some (shadow self !! name))) as [Hreg|_]; [|apply IH].
  pose proof (update_param_registered_result self name (data param) h Hreg) as Hstep.
  destruct (_update_param self name (data param) h) as [h1 [[]|e]]; cbn [snd] in Hstep.
  - apply IH.
  - destruct Hstep as [?|[= ->]]; [done|by right].
Qed.

(** X20. [update_params] raises [AssertionError] exactly when it is handed
    the averaged model itself, and then it changes nothing; on any other
    model it succeeds or raises torch's [RuntimeError] (a shape that does
    not fit), so that the assertion inside [_update_param] never fails. *)
Theorem update_params_assertion (self : t) (other_model : TorchModule)
    (h : gmap positive (list Q)) :
  ((update_params self other_model h).2 = Raise AssertionError ↔
   ident other_model = ident (model self)) ∧
  (ident other_model = ident (model self) →
   (update_params self other_model h).1 = h) ∧
  (ident other_model ≠ ident (model self) →
   (update_params self other_model h).2 = Ok () ∨
   (update_params self other_model h).2 = Raise RuntimeError).
Proof.
  unfold update_params.
  destruct (Nat.eqb_spec (ident other_model) (ident (model self))) as [Heq|Hne].
  - split; [done|]. split; [done|]. by intros Hne.
  - pose proof (update_loop_result self (named_parameters other_model) h) as Hres.
    split; [|split; [done|by intros _]].
    split; [|done]. intros Hassert. rewrite Hassert in Hres.
    by destruct Hres.
Qed.

Lemma update_params_assertion_witness :
  (update_params (__init__ example_model (9 # 10)%Q) example_model example_store).2
  = Raise AssertionError ∧
  (update_params (__init__ example_model (9 # 10)%Q) example_model example_store).1
  = example_store.
Proof.
  split.
  - apply (proj2 (proj1 (update_params_assertion (__init__ example_model (9 # 10)%Q)
                           example_model example_store))).
    reflexivity.
  - apply (proj1 (proj2 (update_params_assertion (__init__ example_model (9 # 10)%Q)
                           example_model example_store))).
    reflexivity.
Defined.

(** ** [map_nested] *)

Lemma dict_set_fresh {K V} `{EqDecision K} (k : K) (v : V) (items : list (K * V)) :
  k ∉ items.*1 → dict_set k v items = items ++ [(k, v)].
Proof.
  induction items as [|[k' v'] items IH]; intros Hk; [done|]. cbn.
  destruct (decide (k = k')) as [->|_]; [exfalso; apply Hk; cbn; left|].
  rewrite IH; [done|]. intros Hin. apply Hk. cbn. by right.
Qed.

Section map_nested_proofs.
Context {K X Y : Type} `{EqDecision K}.

Lemma mapping_loop_cases (recurse : nested K X → py_result (nested_result K Y))
    (items : list (K * nested K X)) (mapped : list (K * nested_result K Y)) :
  (∀ v, returns_or_overflows (recurse v)) →
  returns_or_overflows (mapping_loop recurse items mapped).
Proof.
  intros Hrec. revert mapped.
  induction items as [|[k v] items IH]; intros mapped; cbn; [left; eauto|].
  destruct (Hrec v) as [[r ->]| ->]; cbn; [apply IH|by right].
Qed.

Lemma mapM_cases {W} (recurse : W → py_result (nested_result K Y)) (items : list W) :
  (∀ v, returns_or_overflows (recurse v)) →
  (∃ rs, mapM recurse items = Return rs) ∨ mapM recurse items = RaiseRecursionError.
Proof.
  intros Hrec. induction items as [|v items IH]; cbn; [left; eauto|].
  destruct (Hrec v) as [[r ->]| ->]; cbn; [|by right].
  destruct IH as [[rs ->]| ->]; cbn; [left; eauto|by right].
Qed.

Lemma map_nested_cases (func : X → result Y) (limit : nat) (data : nested K X) :
  (∀ x, ∃ y, func x = Ok y) →
  returns_or_overflows (map_nested limit func data).
Proof.
  intros Hfunc. revert data.
  induction limit as [|limit IH]; intros data; [by right|].
  destruct data as [x|items|s|items|x]; cbn [map_nested].
  - destruct (Hfunc x) as [y ->]. left. by eexists.
  - by apply mapping_loop_cases.
  - destruct (mapM_cases (λ v, map_nested limit func (Str [v])) s) as [[rs ->]| ->];
      [done|left; by eexists|by right].
  - destruct (mapM_cases (map_nested limit func) items) as [[rs ->]| ->];
      [done|left; by eexists|by right].
  - destruct (Hfunc x) as [y ->]. left. by eexists.
Qed.

Lemma mapping_loop_overflows (recurse : nested K X → py_result (nested_result K Y))
    (items : list (K * nested K X)) (k : K) (v : nested K X)
    (mapped : list (K * nested_result K Y)) :
  (∀ v, returns_or_overflows (recurse v)) →
  (k, v) ∈ items → recurse v = RaiseRecursionError →
  mapping_loop recurse items mapped = RaiseRecursionError.
Proof.
  intros Hrec Hin Hv. revert mapped.
  induction items as [|[k' v'] items IH]; intros mapped; [by apply elem_of_nil in Hin|].
  cbn. apply elem_of_cons in Hin as [[= <- <-]|Hin]; [by rewrite Hv|].
  destruct (Hrec v') as [[r ->]| ->]; cbn; [by apply IH|done].
Qed.

Lemma mapM_overflows {W} (recurse : W → py_result (nested_result K Y))
    (items : list W) (v : W) :
  (∀ v, returns_or_overflows (recurse v)) →
  v ∈ items → recurse v = RaiseRecursionError →
  mapM recurse items = RaiseRecursionError.
Proof.
  intros Hrec Hin Hv.
  induction items as [|v' items IH]; [by apply elem_of_nil in Hin|].
  cbn. apply elem_of_cons in Hin as [<-|Hin]; [by rewrite Hv|].
  destruct (Hrec v') as [[r ->]| ->]; cbn; [by rewrite IH|done].
Qed.

Lemma map_nested_str (func : X → result Y) (limit : nat) (c : Z) (s : list Z) :
  map_nested (K:=K) limit func (Str (c :: s)) = RaiseRecursionError.
Proof.
  revert c s. induction limit as [|limit IH]; intros c s; [done|].
  cbn [map_nested mapM]. by rewrite IH.
Qed.

(** X21. Data that holds a non-empty string (as such, or as a value of a
    mapping or an item of an iterable at any depth) makes [map_nested] raise
    [RecursionError] whatever the recursion limit, when [func] itself does
    not raise: a string is an iterable whose items are strings again. *)
Theorem map_nested_text_overflows (func : X → result Y) (data : nested K X)
    (limit : nat) :
  (∀ x, ∃ y, func x = Ok y) → has_text data →
  map_nested limit func data = RaiseRecursionError.
Proof.
  intros Hfunc Htext. revert limit.
  induction Htext as [c s|items k v Hin _ IH|items v Hin _ IH]; intros limit.
  - apply map_nested_str.
  - destruct limit as [|limit]; [done|]. cbn [map_nested].
    apply (mapping_loop_overflows _ items k v); [|done|apply IH].
    intros v'. by apply map_nested_cases.
  - destruct limit as [|limit]; [done|]. cbn [map_nested].
    rewrite (mapM_overflows _ items v); [done| |done|apply IH].
    intros v'. by apply map_nested_cases.
Qed.

Lemma mapping_loop_Return (recurse : nested K X → py_result (nested_result K Y))
    (g : nested K X → nested_result K Y)
    (items : list (K * nested K X)) (mapped : list (K * nested_result K Y)) :
  NoDup (mapped.*1 ++ items.*1) →
  Forall (λ kv, recurse kv.2 = Return (g kv.2)) items →
  mapping_loop recurse items mapped
  = Return (Dict (mapped ++ map (λ kv, let '(k, v) := kv in (k, g v)) items)).
Proof.
  intros Hnd Hrec. revert mapped Hnd.
  induction Hrec as [|[k v] items Hv _ IH]; intros mapped Hnd; cbn.
  - by rewrite app_nil_r.
  - cbn in Hv. rewrite Hv. cbn [mbind py_result_bind].
    cbn in Hnd. apply NoDup_app in Hnd as (Hm & Hdisj & Hitems).
    rewrite dict_set_fresh by (intros Hin; apply (Hdisj k Hin); left).
    rewrite IH.
    + by rewrite <-(assoc_L (++)).
    + rewrite fmap_app. cbn. rewrite <-(assoc_L (++)). cbn.
      apply NoDup_app. split; [done|]. split; [|done]. done.
Qed.

Lemma mapM_Return {W} (recurse : W → py_result (nested_result K Y))
    (g : W → nested_result K Y) (items : list W) :
  Forall (λ v, recurse v = Return (g v)) items →
  mapM recurse items = Return (map g items).
Proof.
  induction 1 as [|v items Hv _ IH]; [done|]. cbn. by rewrite Hv, IH.
Qed.

(** X22. On data without a non-empty string, nested less deep than the
    recursion limit allows, and with a [func] that returns, [map_nested]
    returns the data with [func] applied to every array and every other
    leaf: a mapping becomes a [dict] with the same keys in the same order,
    any other iterable becomes a list of the same length. *)
Theorem map_nested_maps_leaves (func : X → result Y) (f : X → Y)
    (data : nested K X) (n limit : nat) :
  (∀ x, func x = Ok (f x)) → plain_data n data → (n ≤ limit)%nat →
  map_nested limit func data = Return (map_leaves f data).
Proof.
  intros Hfunc. revert n data.
  induction limit as [|limit IH]; intros n data Hplain Hn.
  - inversion Hplain; subst; lia.
  - inversion Hplain as [n' x|n' x|n'|n' items Hnd Hitems|n' items Hitems]; subst;
      cbn [map_nested map_leaves].
    + by rewrite Hfunc.
    + by rewrite Hfunc.
    + done.
    + rewrite (mapping_loop_Return _ (map_leaves f)); [done|done|].
      eapply Forall_impl; [exact Hitems|]. intros [k v] Hv. cbn in *.
      apply (IH n'); [done|lia].
    + rewrite (mapM_Return _ (map_leaves f)); [done|].
      eapply Forall_impl; [exact Hitems|]. intros v Hv. apply (IH n'); [done|lia].
Qed.
End map_nested_proofs.

Lemma map_nested_text_overflows_witness :
  map_nested 1000 (λ x : Z, Ok (x + 1))
    (Mapping [(1, Array 5); (2, Iterable [Plain 7; Str [104; 105]])])
  = RaiseRecursionError.
Proof.
  apply (map_nested_text_overflows (K:=Z) (λ x : Z, Ok (x + 1))).
  - intros x. by eexists.
  - apply (text_in_mapping _ 2 (Iterable [Plain 7; Str [104; 105]])); [right; left|].
    apply (text_in_iterable _ (Str [104; 105])); [right; left|]. constructor.
Defined.

Lemma map_nested_maps_leaves_witness :
  map_nested 5 (λ x : Z, Ok (x + 1))
    (Mapping [(1, Array 5); (2, Iterable [Plain 7; Array 8; Str []])])
  = Return (map_leaves (λ x : Z, x + 1)
              (Mapping [(1, Array 5); (2, Iterable [Plain 7; Array 8; Str []])])).
Proof.
  apply (map_nested_maps_leaves (K:=Z) (λ x : Z, Ok (x + 1)) (λ x : Z, x + 1) _ 3 5).
  - done.
  - apply plain_mapping; [compute_done|].
    repeat constructor.
  - lia.
Defined.

(** ** [SequentialWithRecurrent.forward] *)

Section forward_proofs.
Context {X H L : Type}.
Import SequentialWithRecurrent.

Lemma forward_loop_app (ms1 ms2 : list (torch_module X H L)) (hx : option H)
    (seq_len : option L) (input : X) (hidden : option H)
    (module : option (torch_module X H L)) :
  forward_loop (ms1 ++ ms2) hx seq_len input hidden module
  = '(input, hidden, module) ← forward_loop ms1 hx seq_len input hidden module;
    forward_loop ms2 hx seq_len input hidden module.
Proof.
  revert input hidden module.
  induction ms1 as [|m ms1 IH]; intros input hidden module; [done|].
  cbn [app forward_loop]. destruct m as [f|f|f].
  - destruct (f input hx seq_len) as [[input' hidden']|e]; cbn; [apply IH|done].
  - destruct (f input hx) as [[input' hidden']|e]; cbn; [apply IH|done].
  - destruct (f input) as [input'|e]; cbn; [apply IH|done].
Qed.

(** The input that reaches a module does not depend on the hidden state and
    the loop variable the loop started with. *)
Lemma forward_loop_input (ms : list (torch_module X H L)) (hx : option H)
    (seq_len : option L) (input : X) (hidden : option H)
    (module : option (torch_module X H L)) :
  ('(input, _, _) ← forward_loop ms hx seq_len input hidden module; mret input)
  = input_after ms hx seq_len input.
Proof.
  unfold input_after. revert input hidden module.
  generalize (@None H) at 1. generalize (@None (torch_module X H L)) at 1.
  induction ms as [|m ms IH]; intros module0 hidden0 input hidden module; [done|].
  cbn [forward_loop]. destruct m as [f|f|f].
  - destruct (f input hx seq_len) as [[input' hidden']|e]; cbn; [apply IH|done].
  - destruct (f input hx) as [[input' hidden']|e]; cbn; [apply IH|done].
  - destruct (f input) as [input'|e]; cbn; [apply IH|done].
Qed.

Lemma forward_last (ms : list (torch_module X H L)) (last : torch_module X H L)
    (hx : option H) (seq_len : option L) (input : X) :
  forward_loop (ms ++ [last]) hx seq_len input None None
  = '(input, hidden, _) ← forward_loop ms hx seq_len input None None;
    forward_loop [last] hx seq_len input hidden None.
Proof.
  rewrite forward_loop_app.
  destruct (forward_loop ms hx seq_len input None None) as [[[input' hidden'] m]|e];
    [|done].
  cbn. by destruct last as [f|f|f]; cbn; destruct (f _).
Qed.
End forward_proofs.

Section forward_theorems.
Context {X H L : Type}.
Import SequentialWithRecurrent.

Lemma forward_ends_with_other (ms : list (torch_module X H L)) (f : X → result X)
    (input : X) (hx : option H) (seq_len : option L) :
  forward (ms ++ [OtherModule f]) input hx seq_len
  = match input_after ms hx seq_len input ≫= f with
    | Ok output => Return (Output output)
    | Raise e => RaiseFrom e
    end.
Proof.
  unfold forward, input_after. rewrite forward_last.
  destruct (forward_loop ms hx seq_len input None None) as [[[x h] m]|e]; [|done].
  cbn. by destruct (f x).
Qed.

Lemma compose_layers_raise (layers : list (X → result X)) (e : exn) :
  foldl (λ acc layer, acc ≫= layer) (Raise e) layers = Raise e.
Proof. induction layers as [|f layers IH]; [done|]. cbn. apply IH. Qed.

Lemma input_after_layers (layers : list (X → result X)) (input : X)
    (hx : option H) (seq_len : option L) :
  input_after (OtherModule <$> layers) hx seq_len input = compose_layers layers input.
Proof.
  unfold compose_layers. rewrite <-forward_loop_input with (hidden := None) (module := None).
  generalize (@None (torch_module X H L)). revert input.
  induction layers as [|f layers IH]; intros input module; [done|].
  cbn [fmap list_fmap forward_loop foldl].
  change (Ok input ≫= f) with (f input).
  destruct (f input) as [input'|e]; cbn [mbind result_bind].
  - apply IH.
  - by rewrite compose_layers_raise.
Qed.

(** X23. On one or more modules none of which is recurrent, [forward] is the
    forward pass of a plain sequential container: the modules are applied
    one after the other, the output comes back alone (no hidden state), and
    the first exception of a module ends the call; [hx] and [seq_len] are
    not used. *)
Theorem forward_of_plain_modules (layers : list (X → result X)) (input : X)
    (hx : option H) (seq_len : option L) :
  layers ≠ [] →
  forward (OtherModule <$> layers) input hx seq_len
  = match compose_layers layers input with
    | Ok output => Return (Output output)
    | Raise e => RaiseFrom e
    end.
Proof.
  intros Hne. destruct layers as [|f layers _] using rev_ind; [done|].
  rewrite fmap_app. cbn [fmap list_fmap]. rewrite forward_ends_with_other.
  rewrite input_after_layers. unfold compose_layers. by rewrite foldl_app.
Qed.

(** X24. The last module alone decides what [forward] returns.  After a
    module that is not recurrent the output comes back alone, even when a
    recurrent module ran before it, whose hidden state is dropped.  After a
    recurrent layer or a [RecurrentCuDNNWrapper] the output comes back with
    the hidden state of that module, which was called with the initial
    hidden state [hx] whatever ran before it.  Without any module the loop
    variable is read unbound and the call raises [UnboundLocalError]. *)
Theorem forward_last_module_decides (ms : list (torch_module X H L)) (input : X)
    (hx : option H) (seq_len : option L) :
  (∀ f, forward (ms ++ [OtherModule f]) input hx seq_len
        = match input_after ms hx seq_len input ≫= f with
          | Ok output => Return (Output output)
          | Raise e => RaiseFrom e
          end) ∧
  (∀ g, forward (ms ++ [RNNBase g]) input hx seq_len
        = match input_after ms hx seq_len input ≫= (λ x, g x hx) with
          | Ok (output, hidden) => Return (OutputAndHidden output (Some hidden))
          | Raise e => RaiseFrom e
          end) ∧
  (∀ g, forward (ms ++ [RecurrentCuDNNWrapper g]) input hx seq_len
        = match input_after ms hx seq_len input ≫= (λ x, g x hx seq_len) with
          | Ok (output, hidden) => Return (OutputAndHidden output (Some hidden))
          | Raise e => RaiseFrom e
          end) ∧
  forward (@nil (torch_module X H L)) input hx seq_len = RaiseUnboundLocalError.
Proof.
  split; [intros f; apply forward_ends_with_other|].
  split; [|split; [|done]]; intros g; unfold forward, input_after;
    rewrite forward_last;
    (destruct (forward_loop ms hx seq_len input None None) as [[[x h] m]|e]; [|done]);
    cbn.
  - by destruct (g x hx) as [[y h']|e].
  - by destruct (g x hx seq_len) as [[y h']|e].
Qed.
End forward_theorems.

Lemma forward_of_plain_modules_witness :
  SequentialWithRecurrent.forward (H:=Z) (L:=Z)
    (OtherModule <$> [(λ x : Z, Ok (x + 1)); (λ x : Z, Ok (2 * x))]) 3 None None
  = match compose_layers [(λ x : Z, Ok (x + 1)); (λ x : Z, Ok (2 * x))] 3 with
    | Ok output => Return (Output output)
    | Raise e => RaiseFrom e
    end.
Proof.
  apply (forward_of_plain_modules (H:=Z) (L:=Z)
           [(λ x : Z, Ok (x + 1)); (λ x : Z, Ok (2 * x))] 3 None None).
  discriminate.
Defined.

(** ** Steps that are not repeated, and updates that are *)

Lemma expand_ext {X} (steps steps' : list X) (counts : list Z) :
  length steps = length steps' →
  (∀ t : nat, counts !! t ≠ Some 0 → steps !! t = steps' !! t) →
  expand steps counts = expand steps' counts.
Proof.
  revert steps' counts.
  induction steps as [|x steps IH]; intros [|x' steps'] [|c counts] Hlen Hsame;
    try done.
  cbn [expand]. injection Hlen as Hlen.
  rewrite (IH steps' counts Hlen) by (intros t Ht; apply (Hsame (S t) Ht)).
  destruct (decide (c = 0)) as [->|Hc]; [done|].
  assert (Some x = Some x') as [= ->]; [|done].
  apply (Hsame 0%nat). cbn. congruence.
Qed.

(** X25. A step whose count is zero leaves no trace in the output: two
    sequence batches of one shape that agree on every step with a non-zero
    count are upsampled to the same result. *)
Theorem upsample_ignores_zero_count_steps {A : Type} (zero : A)
    (sf sf' : list (list (list A))) (repeats : IntTensor) (r : list (list Z))
    (B T F : nat) :
  shaped sf B T F → shaped sf' B T F → counts_shaped r B T → holds_counts repeats r →
  (0 < B)%nat → non_negative r →
  (∀ (b t : nat) steps steps' counts,
     sf !! b = Some steps → sf' !! b = Some steps' → r !! b = Some counts →
     counts !! t ≠ Some 0 → steps !! t = steps' !! t) →
  upsample_to_repetitions zero sf repeats = upsample_to_repetitions zero sf' repeats.
Proof.
  intros Hsf Hsf' Hr Hholds HposB Hnn Hsame.
  destruct (max_output_length_exists r) as [L HL].
  { destruct Hr as [HrB _]. intros ->. cbn in HrB. lia. }
  rewrite (upsample_to_repetitions_Ok zero sf repeats r B T F L) by done.
  rewrite (upsample_to_repetitions_Ok zero sf' repeats r B T F L) by done.
  f_equal. apply list_eq. intros b. rewrite !lookup_zip_with.
  destruct (sf !! b) as [steps|] eqn:Hs; destruct (sf' !! b) as [steps'|] eqn:Hs'; cbn.
  - destruct (r !! b) as [counts|] eqn:Hc; cbn; [|done]. unfold out_row.
    rewrite (expand_ext steps steps' counts);
      [done| |intros t Ht; by apply (Hsame b t steps steps' counts)].
    destruct Hsf as [_ Hsf], Hsf' as [_ Hsf'].
    rewrite Forall_forall in Hsf. rewrite Forall_forall in Hsf'.
    destruct (Hsf steps) as [-> _]; [by eapply list_elem_of_lookup_2|].
    by destruct (Hsf' steps') as [-> _]; [by eapply list_elem_of_lookup_2|].
  - apply lookup_lt_Some in Hs. apply lookup_ge_None in Hs'.
    destruct Hsf as [HB _], Hsf' as [HB' _]. lia.
  - apply lookup_lt_Some in Hs'. apply lookup_ge_None in Hs.
    destruct Hsf as [HB _], Hsf' as [HB' _]. lia.
  - done.
Qed.

Lemma upsample_ignores_zero_count_steps_witness :
  upsample_to_repetitions 0 [[[5]; [7]; [9]]] (Axes2 [[2; 0; 1]])
  = upsample_to_repetitions 0 [[[5]; [8]; [9]]] (Axes2 [[2; 0; 1]]).
Proof.
  apply (upsample_ignores_zero_count_steps 0 [[[5]; [7]; [9]]] [[[5]; [8]; [9]]]
           (Axes2 [[2; 0; 1]]) [[2; 0; 1]] 1 3 1).
  - split; [reflexivity|]. repeat constructor.
  - split; [reflexivity|]. repeat constructor.
  - split; [reflexivity|]. repeat constructor.
  - left. reflexivity.
  - lia.
  - repeat constructor; lia.
  - intros [|b] [|[|[|t]]] steps steps' counts; cbn; intros; simplify_eq; done.
Defined.

(** X26. Two update steps with the same current value amount to one step
    with the decay squared: when the current tensor is not the registered
    tensor itself, the shadow value after the second step is
    [decay² * s + (1 - decay²) * x], element by element. *)
Theorem update_param_twice (self : t) (name : string) (x l : positive)
    (h : gmap positive (list Q)) :
  shadow self !! name = Some l → x ≠ l → length (h !!! x) = length (h !!! l) →
  ∃ v1 v2 : list Q,
    _update_param self name x h = (<[l := v1]> h, Ok ()) ∧
    _update_param self name x (<[l := v1]> h) = (<[l := v2]> (<[l := v1]> h), Ok ()) ∧
    Forall2 Qeq v2
      (zip_with (λ s xv, decay self * decay self * s
                         + (1 - decay self * decay self) * xv)%Q
         (h !!! l) (h !!! x)).
Proof.
  intros Hname Hx Hlen.
  set (v1 := zip_with (λ a b, a - (1 - decay self) * (a - b))%Q (h !!! l) (h !!! x)).
  assert (length v1 = length (h !!! l)) as Hv1
    by (unfold v1; rewrite length_zip_with; lia).
  exists v1. eexists. split; [by apply update_param_value|]. split.
  - apply update_param_value; [done|].
    by rewrite lookup_total_insert_eq, lookup_total_insert_ne, Hv1.
  - rewrite lookup_total_insert_eq, lookup_total_insert_ne by done. unfold v1.
    clear Hv1 v1. revert Hlen. generalize (h !!! x) (h !!! l). intros xs ss.
    revert xs. induction ss as [|a ss IH]; intros [|b xs] Hlen; cbn in Hlen |- *;
      try done; constructor.
    + ring.
    + apply IH. lia.
Qed.

Lemma update_param_twice_witness :
  ∃ v1 v2 : list Q,
    _update_param (__init__ example_model (9 # 10)%Q) "w" 2%positive example_store
    = (<[1%positive := v1]> example_store, Ok ()) ∧
    _update_param (__init__ example_model (9 # 10)%Q) "w" 2%positive
      (<[1%positive := v1]> example_store)
    = (<[1%positive := v2]> (<[1%positive := v1]> example_store), Ok ()) ∧
    Forall2 Qeq v2
      (zip_with (λ s xv, decay (__init__ example_model (9 # 10)%Q)
                         * decay (__init__ example_model (9 # 10)%Q) * s
                         + (1 - decay (__init__ example_model (9 # 10)%Q)
                                * decay (__init__ example_model (9 # 10)%Q)) * xv)%Q
         (example_store !!! 1%positive) (example_store !!! 2%positive)).
Proof.
  apply (update_param_twice (__init__ example_model (9 # 10)%Q)
           "w" 2%positive 1%positive example_store).
  - reflexivity.
  - discriminate.
  - reflexivity.
Defined.

Lemma both_voiced_mask_raises_witness :
  both_voiced_mask (Z.eqb 0)
    [{| shape := [2%nat]; values := [3; 0] |}; {| shape := [1%nat]; values := [4] |}]
  = Raise RuntimeError.
Proof.
  apply (proj1 (both_voiced_mask_raises (Z.eqb 0)
    [{| shape := [2%nat]; values := [3; 0] |}; {| shape := [1%nat]; values := [4] |}])).
  right. exists {| shape := [2%nat]; values := [3; 0] |},
                {| shape := [1%nat]; values := [4] |}.
  split; [set_solver|]. split; [set_solver|]. discriminate.
Defined.
